(** * Game_Evaluator: the rule composition tree and the n-max search

    A shallow embedding of the Python sources
    - [rule.py]            (Rule, Game, SimpleTurn, RuleSum, max_n),
    - [coordinate_rule.py] (Tile, CoordinateRule, PatternRule, CaptureRule,
                            SimpleCapture, NoCapture),
    - [evaluator.py], [game_prep.py], [game.py], [piece.py]
                           (max_by_key / dictionary_max),
    together with the properties of section 8 of the specification.

    Conventions of the embedding.
    - Python objects that are mutated in place live in an explicit state;
      a method is a state transformer [prog S A].  An exception leaves the
      state as it was when the exception was raised, as in Python.
    - Python [int] is [Z]; [%] with a positive divisor is [Z.modulo].
    - Python [dict] is stdpp's [gmap]; [d[k]] raises [KeyError] when the
      key is absent.
    - Utility values are numbers compared with [>]; the embedding is
      generic in the value type and its comparison, and is instantiated
      with the rationals [Q] where the specification names decimals. *)

From Stdlib Require Import ZArith QArith List Bool Lia Permutation Sorted.
From stdpp Require Import base option list gmap strings.

Local Open Scope Z_scope.

(** ** Exceptions and stateful programs *)

Inductive exn : Type :=
| IndexError
| KeyError
| ValueError
| ZeroDivisionError
| TypeError
| AttributeError
| OutOfFuel.   (* not a Python exception: a [while] loop that did not finish *)

#[global] Instance exn_eq_dec : EqDecision exn.
Proof. solve_decision. Defined.

(** A pure computation that may raise. *)
Definition result (A : Type) : Type := (exn + A)%type.

(** A method: reads and writes the state [S]; the state is returned also
    when an exception escapes. *)
Definition prog (S A : Type) : Type := S -> result A * S.

Definition ret {S A} (a : A) : prog S A := fun s => (inr a, s).

Definition raise {S A} (e : exn) : prog S A := fun s => (inl e, s).

Definition bind {S A B} (c : prog S A) (k : A -> prog S B) : prog S B :=
  fun s => match c s with
           | (inr a, s') => k a s'
           | (inl e, s') => (inl e, s')
           end.

Definition get_state {S} : prog S S := fun s => (inr s, s).

Definition modify {S} (f : S -> S) : prog S unit := fun s => (inr tt, f s).

Definition lift_result {S A} (r : result A) : prog S A := fun s => (r, s).

Notation "x <- c ;; k" := (bind c (fun x => k))
  (at level 62, c at next level, right associativity).
Notation "c ;;; k" := (bind c (fun _ => k))
  (at level 62, right associativity).

(** [for x in xs: body(x)] *)
Fixpoint for_each {S A} (xs : list A) (body : A -> prog S unit) : prog S unit :=
  match xs with
  | [] => ret tt
  | x :: rest => body x ;;; for_each rest body
  end.

(** [[f(x) for x in xs]] *)
Fixpoint map_each {S A B} (xs : list A) (f : A -> prog S B) : prog S (list B) :=
  match xs with
  | [] => ret []
  | x :: rest => y <- f x ;; ys <- map_each rest f ;; ret (y :: ys)
  end.

(** ** Selection of a utility vector: [max_by_key] / [dictionary_max] *)

Section Selection.
Context `{Countable K} {V : Type}.
(** [gt x y] is Python's [x > y] on dictionary entries. *)
Variable gt : V -> V -> bool.

(** [dictionary[key]] *)
Definition getitem (dictionary : gmap K V) (key : K) : result V :=
  match dictionary !! key with
  | Some v => inr v
  | None => inl KeyError
  end.

(** The [for dictionary in dictionaries] loop of [max_by_key]. *)
Fixpoint max_by_key_loop (key : K) (current_max : gmap K V)
    (dictionaries : list (gmap K V)) : result (gmap K V) :=
  match dictionaries with
  | [] => inr current_max
  | dictionary :: rest =>
      match getitem dictionary key with
      | inl e => inl e
      | inr x =>
          match getitem current_max key with
          | inl e => inl e
          | inr y =>
              max_by_key_loop key
                (if gt x y then dictionary else current_max) rest
          end
      end
  end.

(** evaluator.py, [max_by_key]: [current_max = dictionaries[0]] raises
    [IndexError] on the empty list. *)
Definition max_by_key (key : K) (dictionaries : list (gmap K V))
    : result (gmap K V) :=
  match dictionaries with
  | [] => inl IndexError
  | first :: _ => max_by_key_loop key first dictionaries
  end.

(** game_prep.py / game.py / piece.py, [dictionary_max]: the same text
    under another name. *)
Fixpoint dictionary_max_loop (key : K) (current_max : gmap K V)
    (dictionaries : list (gmap K V)) : result (gmap K V) :=
  match dictionaries with
  | [] => inr current_max
  | dictionary :: rest =>
      match getitem dictionary key with
      | inl e => inl e
      | inr x =>
          match getitem current_max key with
          | inl e => inl e
          | inr y =>
              dictionary_max_loop key
                (if gt x y then dictionary else current_max) rest
          end
      end
  end.

Definition dictionary_max (key : K) (dictionaries : list (gmap K V))
    : result (gmap K V) :=
  match dictionaries with
  | [] => inl IndexError
  | first :: _ => dictionary_max_loop key first dictionaries
  end.
End Selection.

(** ** Python list and integer primitives *)

(** [a % n] on integers. *)
Definition py_mod (a n : Z) : result Z :=
  if Z.eqb n 0 then inl ZeroDivisionError else inr (a mod n).

(** [l[i]] with Python's negative indices. *)
Definition py_index {A} (l : list A) (i : Z) : result A :=
  let n := Z.of_nat (length l) in
  let j := if Z.leb 0 i then i else n + i in
  if Z.ltb j 0 then inl IndexError
  else match l !! Z.to_nat j with
       | Some x => inr x
       | None => inl IndexError
       end.

(** [l[:w]] with Python's negative bound. *)
Definition slice_to {A} (l : list A) (w : Z) : list A :=
  if Z.leb 0 w then take (Z.to_nat w) l
  else take (Z.to_nat (Z.of_nat (length l) + w)) l.

(** [sorted(xs, key=...)] once the keys are computed: a stable ascending
    sort that compares keys with [<] only. *)
Fixpoint insert_by_key {A V} (lt : V -> V -> bool) (x : V * A)
    (sorted : list (V * A)) : list (V * A) :=
  match sorted with
  | [] => [x]
  | y :: rest =>
      if lt (fst x) (fst y) then x :: y :: rest
      else y :: insert_by_key lt x rest
  end.

Definition sorted_by_key {A V} (lt : V -> V -> bool) (keyed : list (V * A))
    : list A :=
  map snd (fold_left (fun acc x => insert_by_key lt x acc) keyed []).

(** [y] may follow [x] in a list in ascending order of keys: [y < x] is
    false. *)
Definition ascending {A V} (lt : V -> V -> bool) (x y : V * A) : Prop :=
  lt (fst y) (fst x) = false.

(** Running a program of a component inside a larger state. *)
Definition on_snd {T W A} (c : prog W A) : prog (T * W) A :=
  fun s => let (r, w') := c (snd s) in (r, (fst s, w')).

Definition on_fst {T W A} (c : prog T A) : prog (T * W) A :=
  fun s => let (r, t') := c (fst s) in (r, (t', snd s)).

(** [x < y] and [x > y] on numbers, as in [temp < random()]. *)
Definition Qltb (x y : Q) : bool := negb (Qle_bool y x).

Definition Qgtb (x y : Q) : bool := Qltb y x.

(** The ambient generator of Python's [random] module, made explicit:
    [random n] is what the [n]-th draw returns when it is [random()],
    [sample n population k] what it returns when it is
    [sample(population, k)]. *)
Record random_source (M : Type) : Type := {
  random : nat -> Q;
  sample : nat -> list M -> Z -> result (list M)
}.
Arguments random {M} _ _.
Arguments sample {M} _ _ _ _.

(** [random()] returns a number of the interval [0, 1). *)
Definition unit_interval {M} (rng : random_source M) : Prop :=
  forall n, (0 <= random rng n)%Q /\ (random rng n < 1)%Q.

(** The outcome of a search without the count of draws it made: the value
    returned or the exception raised, and the state of the rules. *)
Definition forget_draws {W A} (x : result A * (W * nat)) : result A * W :=
  (fst x, fst (snd x)).

(** Program [c] raises exception [e] from no state. *)
Definition never_raises {S A} (e : exn) (c : prog S A) : Prop :=
  forall s, fst (c s) <> inl e.

(** ** The contract of [Rule] (rule.py)

    [R] names rule objects, [W] is the state they share and mutate in
    place, [M] is the type of their moves. *)

Module Rule.

Class Ops (R W M K V : Type) `{Countable K} : Type := {
  get_legal_moves : R -> prog W (list M);
  execute_move : R -> M -> prog W unit;
  undo_move : R -> M -> prog W unit;
  get_utility : R -> prog W (gmap K V);
  (** [self.player], [None] when unset *)
  player : R -> W -> option K;
  (** [self.get_bottom_rule().player] *)
  bottom_player : R -> W -> K
}.

(** *** The n-max search: [Rule.max_n] *)

Section Search.
Context {R W M K V : Type} `{Countable K} `{!Ops R W M K V}.
(** Python's [>] (in [max_by_key]) and [<] (in [sorted]) on utilities. *)
Variable gt lt : V -> V -> bool.

(** [if self.player: player = self.player
     else: player = self.get_bottom_rule().player] *)
Definition max_n_player (self : R) : prog W K :=
  fun w => (inr (match player self w with
                 | Some p => p
                 | None => bottom_player self w
                 end), w).

(** [self.max_n(depth)]: [width=None] skips the pruning step, and the
    recursive call hands [width] on, so no draw is ever made. *)
Fixpoint max_n_plain (depth : nat) (self : R) : prog W (gmap K V) :=
  player <- max_n_player self ;;
  legal <- get_legal_moves self ;;
  match depth, legal with
  | O, _ => get_utility self
  | _, [] => get_utility self
  | S depth', _ =>
      utilities <- map_each legal (fun move =>
        execute_move self move ;;;
        u <- max_n_plain depth' self ;;
        undo_move self move ;;;
        ret u) ;;
      lift_result (max_by_key gt player utilities)
  end.

(** The local function [evaluate(m)] of [max_n]. *)
Definition evaluate (k : nat) (self : R) (player : K) (m : M) : prog W V :=
  execute_move self m ;;;
  u <- max_n_plain k self ;;
  utility <- lift_result (getitem u player) ;;
  undo_move self m ;;;
  ret utility.

(** [width and width < len(legal)] *)
Definition width_active (width : option Z) (n : nat) : bool :=
  match width with
  | None => false
  | Some w => negb (Z.eqb w 0) && Z.ltb w (Z.of_nat n)
  end.

(** [sorted(legal, key=evaluate)[:width]] *)
Definition heuristic_prune (k : nat) (self : R) (player : K)
    (legal : list M) (width : Z) : prog W (list M) :=
  keys <- map_each legal (evaluate k self player) ;;
  ret (slice_to (sorted_by_key lt (zip keys legal)) width).

(** One draw from the generator: its number, and the counter advanced. *)
Definition next_draw : prog (W * nat) nat :=
  fun s => (inr (snd s), (fst s, S (snd s))).

(** The pruning step of [max_n] (rule.py, lines 87-96). *)
Definition prune (rng : random_source M) (width : option Z) (temp : Q)
    (k : nat) (self : R) (player : K) (legal : list M)
    : prog (W * nat) (list M) :=
  if width_active width (length legal) then
    n <- next_draw ;;
    if Qltb temp (random rng n) then
      on_fst (heuristic_prune k self player legal (default 0 width))
    else
      population <- on_fst (get_legal_moves self) ;;
      n' <- next_draw ;;
      lift_result (sample rng n' population (default 0 width))
  else ret legal.

(** [Rule.max_n(self, depth, width=None, temp=1, k=1)].  The recursive
    call is [self.max_n(depth - 1, width, temp)]: [k] falls back to 1. *)
Fixpoint max_n (rng : random_source M) (depth : nat) (width : option Z)
    (temp : Q) (k : nat) (self : R) : prog (W * nat) (gmap K V) :=
  player <- on_fst (max_n_player self) ;;
  legal <- on_fst (get_legal_moves self) ;;
  legal <- prune rng width temp k self player legal ;;
  match depth, legal with
  | O, _ => on_fst (get_utility self)
  | _, [] => on_fst (get_utility self)
  | S depth', _ =>
      utilities <- map_each legal (fun move =>
        on_fst (execute_move self move) ;;;
        u <- max_n rng depth' width temp 1%nat self ;;
        on_fst (undo_move self move) ;;;
        ret u) ;;
      lift_result (max_by_key gt player utilities)
  end.


(** None of the four operations of the contract raises [e] on [self]. *)
Definition ops_never_raise (e : exn) (self : R) : Prop :=
  never_raises e (get_legal_moves self)
  /\ (forall m, never_raises e (execute_move self m))
  /\ (forall m, never_raises e (undo_move self m))
  /\ never_raises e (get_utility self).
End Search.

End Rule.

(** ** [Evaluator.explore] (evaluator.py) *)

Module Evaluator.
Section Explore.
Context {R W M K V : Type} `{Countable K} `{!Rule.Ops R W M K V}.
Variable gt lt : V -> V -> bool.

(** [Evaluator.evaluate(game)] and [game.get_player()]: abstract in the
    sources. *)
Variable evaluate_game : R -> prog W (gmap K V).
Variable get_player : R -> prog W K.

(** The recursive call of [explore] is written
    [self.explore(depth - 1, width, temp)]: the [game] argument is left
    out, so [game] is bound to the integer [depth - 1] and the first
    statement, [game.get_player()], raises [AttributeError]. *)
Definition explore_recursive_call : prog W (gmap K V) :=
  raise AttributeError.

(** Lines 35-43 of [explore]. *)
Definition explore_tail (game : R) (depth : nat) (player : K)
    (legal : list M) : prog W (gmap K V) :=
  match depth, legal with
  | O, _ => evaluate_game game
  | _, [] => evaluate_game game
  | S _, _ =>
      utilities <- map_each legal (fun move =>
        Rule.execute_move game move ;;;
        u <- explore_recursive_call ;;
        Rule.undo_move game move ;;;
        ret u) ;;
      lift_result (max_by_key gt player utilities)
  end.

(** [self.explore(game, k)]: [width=-1] fails [0 <= width]. *)
Definition explore_plain (game : R) (depth : nat) : prog W (gmap K V) :=
  player <- get_player game ;;
  legal <- Rule.get_legal_moves game ;;
  explore_tail game depth player legal.

(** The local function [evaluate(m)] of [explore]. *)
Definition explore_evaluate (k : nat) (game : R) (player : K) (m : M)
    : prog W V :=
  Rule.execute_move game m ;;;
  u <- explore_plain game k ;;
  utility <- lift_result (getitem u player) ;;
  Rule.undo_move game m ;;;
  ret utility.

Definition explore_heuristic_prune (k : nat) (game : R) (player : K)
    (legal : list M) (width : Z) : prog W (list M) :=
  keys <- map_each legal (explore_evaluate k game player) ;;
  ret (slice_to (sorted_by_key lt (zip keys legal)) width).

(** Lines 25-34 of [explore]: [0 <= width < len(legal)]. *)
Definition explore_prune (rng : random_source M) (width : Z) (temp : Q)
    (k : nat) (game : R) (player : K) (legal : list M)
    : prog (W * nat) (list M) :=
  if Z.leb 0 width && Z.ltb width (Z.of_nat (length legal)) then
    n <- Rule.next_draw ;;
    if Qltb temp (random rng n) then
      on_fst (explore_heuristic_prune k game player legal width)
    else
      population <- on_fst (Rule.get_legal_moves game) ;;
      n' <- Rule.next_draw ;;
      lift_result (sample rng n' population width)
  else ret legal.

(** [Evaluator.explore(self, game, depth, width=-1, temp=1, k=1)] *)
Definition explore (rng : random_source M) (game : R) (depth : nat)
    (width : Z) (temp : Q) (k : nat) : prog (W * nat) (gmap K V) :=
  player <- on_fst (get_player game) ;;
  legal <- on_fst (Rule.get_legal_moves game) ;;
  legal <- explore_prune rng width temp k game player legal ;;
  on_fst (explore_tail game depth player legal).
End Explore.

End Evaluator.

(** ** [SimpleTurn] (rule.py): the sequencer

    The sequencer's own fields [sequence], [turn] and [sub_rule] are the
    first component of the state; the second is the state of the
    sub-rules.  [Game.__init__] also registers the new object with the
    game state ([add_pieces]); the registry plays no part in the methods
    below. *)

Module SimpleTurn.
Section WithSubRules.
Context {R W M K V : Type} `{Countable K} `{!Rule.Ops R W M K V}.

Record t : Type := {
  sequence : list R;
  turn : Z;
  sub_rule : R
}.

(** [SimpleTurn.__init__(self, game_state, sub_rules..., turn=0)]:
    [self.sequence = sub_rules],
    [self.turn = turn % len(self.sequence)],
    [super().__init__(..., sub_rule=self.sequence[0])]. *)
Definition init (sub_rules : list R) (turn0 : Z) : result t :=
  match py_mod turn0 (Z.of_nat (length sub_rules)) with
  | inl e => inl e
  | inr n =>
      match py_index sub_rules 0 with
      | inl e => inl e
      | inr first =>
          inr {| sequence := sub_rules; turn := n; sub_rule := first |}
      end
  end.

Definition self : prog (t * W) t := fun s => (inr (fst s), s).

(** [self.turn = n] *)
Definition set_turn (n : Z) : prog (t * W) unit :=
  modify (fun s =>
    ({| sequence := sequence (fst s); turn := n;
        sub_rule := sub_rule (fst s) |}, snd s)).

(** [self.sub_rule = r] *)
Definition set_sub_rule (r : R) : prog (t * W) unit :=
  modify (fun s =>
    ({| sequence := sequence (fst s); turn := turn (fst s);
        sub_rule := r |}, snd s)).

Definition get_legal_moves : prog (t * W) (list (R * M)) :=
  st <- self ;;
  sub_moves <- on_snd (Rule.get_legal_moves (sub_rule st)) ;;
  ret (map (fun sub_move => (sub_rule st, sub_move)) sub_moves).

(** [self.turn = (self.turn + delta) % len(self.sequence)]
    [self.sub_rule = self.sequence[self.turn]] *)
Definition shift_turn (delta : Z) : prog (t * W) unit :=
  st <- self ;;
  n <- lift_result (py_mod (turn st + delta) (Z.of_nat (length (sequence st)))) ;;
  set_turn n ;;;
  r <- lift_result (py_index (sequence st) n) ;;
  set_sub_rule r.

(** [execute_move(self, move=None)] *)
Definition execute_move (move : option (R * M)) : prog (t * W) unit :=
  shift_turn 1 ;;;
  match move with
  | Some (sub_rule, sub_move) => on_snd (Rule.execute_move sub_rule sub_move)
  | None => ret tt
  end.

(** [undo_move(self, move=None)] *)
Definition undo_move (move : option (R * M)) : prog (t * W) unit :=
  match move with
  | Some (sub_rule, sub_move) => on_snd (Rule.undo_move sub_rule sub_move)
  | None => ret tt
  end ;;;
  shift_turn (-1).

(** [utility = {}; for sub_rule in self.sequence:
       utility.update(sub_rule.get_utility())] *)
Fixpoint get_utility_loop (rules : list R) (utility : gmap K V)
    : prog W (gmap K V) :=
  match rules with
  | [] => ret utility
  | r :: rest =>
      u <- Rule.get_utility r ;;
      get_utility_loop rest (u ∪ utility)
  end.

Definition get_utility : prog (t * W) (gmap K V) :=
  st <- self ;;
  on_snd (get_utility_loop (sequence st) ∅).

(** The states a sequencer goes through: built by the constructor, then
    changed by [execute_move] and [undo_move] only. *)
Inductive reachable : t * W -> Prop :=
| reach_init sub_rules turn0 st w :
    init sub_rules turn0 = inr st -> reachable (st, w)
| reach_execute s move :
    reachable s -> reachable (snd (execute_move move s))
| reach_undo s move :
    reachable s -> reachable (snd (undo_move move s)).

(** A sequencer as a rule of its own: [Game.__init__] passes
    [player=None], and [Rule.get_bottom_rule] follows [sub_rule]. *)
#[export] Instance ops : Rule.Ops unit (t * W) (R * M) K V := {|
  Rule.get_legal_moves := fun _ => get_legal_moves;
  Rule.execute_move := fun _ move => execute_move (Some move);
  Rule.undo_move := fun _ move => undo_move (Some move);
  Rule.get_utility := fun _ => get_utility;
  Rule.player := fun _ _ => None;
  Rule.bottom_player := fun _ s => Rule.bottom_player (sub_rule (fst s)) (snd s)
|}.
End WithSubRules.
Arguments t : clear implicits.
End SimpleTurn.

(** ** [RuleSum] (rule.py): the aggregator *)

Module RuleSum.
Section WithSubRules.
Context {R W M K V : Type} `{Countable K} `{!Rule.Ops R W M K V}.
Variable gt : V -> V -> bool.

(** [self.player] is the key handed to [max_by_key]; [self.sub_rule] is
    the tuple of sibling rules. *)
Record t : Type := {
  player : K;
  sub_rule : list R
}.

(** [for rule in self.sub_rule:
       for sub_move in rule.get_legal_moves():
          legal.append((rule, sub_move))] *)
Fixpoint get_legal_moves_loop (rules : list R) : prog W (list (R * M)) :=
  match rules with
  | [] => ret []
  | rule :: rest =>
      sub_moves <- Rule.get_legal_moves rule ;;
      later <- get_legal_moves_loop rest ;;
      ret (map (fun sub_move => (rule, sub_move)) sub_moves ++ later)
  end.

Definition get_legal_moves (self : t) : prog W (list (R * M)) :=
  get_legal_moves_loop (sub_rule self).

Definition execute_move (self : t) (move : R * M) : prog W unit :=
  Rule.execute_move (fst move) (snd move).

Definition undo_move (self : t) (move : R * M) : prog W unit :=
  Rule.undo_move (fst move) (snd move).

(** [max_by_key(self.player,
                [rule.get_utility() for rule in self.sub_rule])] *)
Definition get_utility (self : t) : prog W (gmap K V) :=
  utilities <- map_each (sub_rule self) Rule.get_utility ;;
  lift_result (max_by_key gt (player self) utilities).
End WithSubRules.
Arguments t : clear implicits.
End RuleSum.

(** ** coordinate_rule.py: pieces as chains of rules

    A piece is the chain of rules linked through [sub_rule] by
    [piece(...)]; the chain ends in a [Tile].  Pieces are objects with an
    identity: the state keeps them in a store indexed by [pid], and a rule
    object is named by the piece it belongs to and its position in
    [get_piece()] (0 is the top rule). *)

Abbreviation coords := (list Z).
Abbreviation pid := nat.
Abbreviation rref := (nat * nat)%type.

(** Moves are Python tuples:
    - [Step new old] is [(new_coords, old_coords)];
    - [Via rule sub_move captured] is [(rule, sub_move, *captured)]; with
      no captured piece this is the pair [(rule, sub_move)] that
      [SimpleTurn] and [RuleSum] build. *)
Inductive move : Type :=
| Step (new_coords old_coords : coords)
| Via (rule : rref) (sub_move : move) (captured : list pid).

#[global] Instance move_eq_dec : EqDecision move.
Proof. solve_decision. Defined.

(** [self.changed(move, undo=...)]: one notification of the listeners. *)
Inductive event : Type :=
| Changed (who : rref) (m : move) (undo : bool).

Section Chains.
Context {P F Sh : Type}.

(** The classes of coordinate_rule.py.  [P] are the players, [F] the
    rule-type filters of a radar, [Sh] the concrete subclasses of
    [PatternRule] (each fixes [get_step], [does_stop_on], [does_skip]). *)
Inductive rule : Type :=
| Tile (player : option P) (tile_coords : coords)
| PatternRule (player : option P) (shape : Sh) (sub_rule : rule)
| SimpleCapture (player : option P) (radar : list F) (sub_rule : rule)
| NoCapture (player : option P) (radar : list F) (sub_rule : rule).

(** [Rule.get_piece]: the chain, top rule first. *)
Fixpoint get_piece (self : rule) : list rule :=
  self :: match self with
          | Tile _ _ => []
          | PatternRule _ _ sub | SimpleCapture _ _ sub | NoCapture _ _ sub =>
              get_piece sub
          end.

(** [Rule.get_bottom_rule] *)
Fixpoint get_bottom_rule (self : rule) : rule :=
  match self with
  | Tile _ _ => self
  | PatternRule _ _ sub | SimpleCapture _ _ sub | NoCapture _ _ sub =>
      get_bottom_rule sub
  end.

(** [get_coords]: [self.get_bottom_rule().coords] *)
Definition get_coords (self : rule) : coords :=
  match get_bottom_rule self with
  | Tile _ cs => cs
  | _ => []
  end.

(** Assignment to the [coords] attribute of the bottom rule. *)
Fixpoint set_coords (cs : coords) (self : rule) : rule :=
  match self with
  | Tile p _ => Tile p cs
  | PatternRule p sh sub => PatternRule p sh (set_coords cs sub)
  | SimpleCapture p radar sub => SimpleCapture p radar (set_coords cs sub)
  | NoCapture p radar sub => NoCapture p radar (set_coords cs sub)
  end.

(** The rule is an instance of [Tile] or of [CoordinateRule]: its moves
    are pairs of coordinates. *)
Definition coordinate_class (self : rule) : bool :=
  match self with
  | Tile _ _ | PatternRule _ _ _ => true
  | SimpleCapture _ _ _ | NoCapture _ _ _ => false
  end.

Definition rule_player (self : rule) : option P :=
  match self with
  | Tile p _ | PatternRule p _ _ | SimpleCapture p _ _ | NoCapture p _ _ => p
  end.

(** The state shared by all pieces: the objects, the registry of active
    top rules kept by the game state, and the notifications sent. *)
Record world : Type := {
  pieces : gmap pid rule;
  top_rules : list pid;
  log : list event
}.

Definition with_pieces (f : gmap pid rule -> gmap pid rule) (w : world) : world :=
  {| pieces := f (pieces w); top_rules := top_rules w; log := log w |}.

Definition with_top_rules (f : list pid -> list pid) (w : world) : world :=
  {| pieces := pieces w; top_rules := f (top_rules w); log := log w |}.

(** The rule object a reference names. *)
Definition rule_at (w : world) (self : rref) : option rule :=
  match pieces w !! fst self with
  | Some top => get_piece top !! snd self
  | None => None
  end.

(** The reference of [self.get_bottom_rule()]. *)
Definition bottom_ref (w : world) (self : rref) : rref :=
  match pieces w !! fst self with
  | Some top => (fst self, pred (length (get_piece top)))
  | None => self
  end.

(** The abstract methods of [PatternRule], per concrete subclass, and
    the test a type filter stands for. *)
Record policies : Type := {
  get_step : Sh -> rule -> world -> coords -> list coords;
  does_stop_on : Sh -> rule -> world -> coords -> bool;
  does_skip : Sh -> rule -> world -> coords -> bool;
  isinstance : rule -> F -> bool
}.

(** Modelled from the spec: [self.changed(move, undo)] is called by the
    sources but defined in none of them; section 4.1 has every
    execute/undo notify the registered listeners with [(m, undo)].  The
    notification is recorded in [log]. *)
Definition changed (self : rref) (m : move) (undo : bool) : prog world unit :=
  modify (fun w =>
    {| pieces := pieces w; top_rules := top_rules w;
       log := log w ++ [Changed self m undo] |}).
End Chains.
Arguments rule : clear implicits.
Arguments world : clear implicits.
Arguments policies : clear implicits.

(** The game state container (game_state.py) is not among the sources;
    section 6 of the specification gives the interface the rules use. *)
Module GameState.
Section Registry.
Context {P F Sh : Type} (pol : policies P F Sh).

(** Modelled from the spec: [add_rules(r)] is missing; section 6 has it
    activate a rule instance without destroying it. *)
Definition add_rules (piece : pid) : prog (world P F Sh) unit :=
  modify (with_top_rules (fun active => active ++ [piece])).

(** Modelled from the spec: [remove_rules(r)] is missing; section 6 has it
    deactivate a rule instance without destroying it: the object stays in
    the store, only the registry forgets it. *)
Definition remove_rules (piece : pid) : prog (world P F Sh) unit :=
  modify (with_top_rules (filter (fun q => q <> piece))).

(** Modelled from the spec: the test behind "matching any of the given
    type filters" (section 6), for the rule object stored under [piece]. *)
Definition matches (w : world P F Sh) (filters : list F) (piece : pid) : bool :=
  match pieces w !! piece with
  | Some top => existsb (isinstance pol top) filters
  | None => false
  end.

(** Modelled from the spec: [get_top_rules] is missing; section 6 has it
    return the currently active top-level rules matching any of the given
    type filters. *)
Definition get_top_rules (filters : list F) (w : world P F Sh) : list pid :=
  filter (fun piece => matches w filters piece = true) (top_rules w).
End Registry.
End GameState.

Module Tile.
Section Methods.
Context {P F Sh : Type}.

(** [generate_legal_moves]: [return []] *)
Definition generate_legal_moves : list move := [].

(** [self.coords = move[0]; self.changed(move, undo=False)].  The first
    component of a [Via] tuple is a rule object: Python would store it in
    [coords]; the embedding, whose coordinates are tuples of integers,
    stops there with [TypeError]. *)
Definition execute_move (self : rref) (m : move) : prog (world P F Sh) unit :=
  match m with
  | Step new_coords _ =>
      modify (with_pieces (alter (set_coords new_coords) (fst self))) ;;;
      changed self m false
  | Via _ _ _ => raise TypeError
  end.

(** [self.coords = move[1]; self.changed(move, undo=True)]; on a [Via]
    tuple [move[1]] is a move, and the embedding stops as above. *)
Definition undo_move (self : rref) (m : move) : prog (world P F Sh) unit :=
  match m with
  | Step _ old_coords =>
      modify (with_pieces (alter (set_coords old_coords) (fst self))) ;;;
      changed self m true
  | Via _ _ _ => raise TypeError
  end.
End Methods.
End Tile.

Module CoordinateRule.
Section Methods.
Context {P F Sh : Type}.

(** [self.get_bottom_rule().execute_move(move)]
    [self.changed(move, undo=False)] *)
Definition execute_move (self : rref) (m : move) : prog (world P F Sh) unit :=
  w <- get_state ;;
  Tile.execute_move (bottom_ref w self) m ;;;
  changed self m false.

Definition undo_move (self : rref) (m : move) : prog (world P F Sh) unit :=
  w <- get_state ;;
  Tile.undo_move (bottom_ref w self) m ;;;
  changed self m true.
End Methods.
End CoordinateRule.

Module PatternRule.
Section Methods.
Context {P F Sh : Type} (pol : policies P F Sh).
Variables (shape : Sh) (self : rule P F Sh) (w : world P F Sh).

(** One pass of [for coords in edge]; the accumulator is
    [(legal, checked, new_edge)]. *)
Definition visit (acc : list move * list coords * list coords) (c : coords)
    : list move * list coords * list coords :=
  let '(legal, checked, new_edge) := acc in
  let legal' :=
    if negb (does_skip pol shape self w c)
       && negb (bool_decide (Step c (get_coords self) ∈ legal))
    then legal ++ [Step c (get_coords self)]
    else legal in
  let new_edge' :=
    if negb (does_stop_on pol shape self w c)
       && negb (bool_decide (c ∈ checked))
    then new_edge ++ get_step pol shape self w c
    else new_edge in
  (legal', checked ++ [c], new_edge').

(** [while edge: ...]; [fuel] bounds the number of passes. *)
Fixpoint expand (fuel : nat) (edge : list coords) (checked : list coords)
    (legal : list move) : result (list move) :=
  match edge with
  | [] => inr legal
  | _ :: _ =>
      match fuel with
      | O => inl OutOfFuel
      | S fuel' =>
          let '(legal', checked', new_edge) :=
            fold_left visit edge (legal, checked, []) in
          expand fuel' new_edge checked' legal'
      end
  end.

(** [generate_legal_moves], given the list [self.sub_rule.get_legal_moves()]
    returned. *)
Definition generate_legal_moves (fuel : nat) (sub_moves : list move)
    : result (list move) :=
  expand fuel (get_step pol shape self w (get_coords self)) [] sub_moves.
End Methods.
End PatternRule.

Module SimpleCapture.
Section Methods.
Context {P F Sh : Type} (pol : policies P F Sh).

(** [to_capture]: the active rules on the radar whose bottom coordinate
    is [new_coords]. *)
Definition to_capture (radar : list F) (w : world P F Sh) (new_coords : coords)
    : list pid :=
  filter (fun top_rule =>
            (get_coords <$> pieces w !! top_rule) = Some new_coords)
         (GameState.get_top_rules pol radar w).

(** The tuple appended to [legal] for one move of the sub-rule, unpacked
    as [new_coords, old_coords, *sub_captures].  A [Via] tuple unpacks
    to a rule object in the place of [new_coords], which equals no
    coordinate. *)
Definition capture_move (sub_rule : rref) (radar : list F) (w : world P F Sh)
    (sub_move : move) : move :=
  match sub_move with
  | Step new_coords old_coords =>
      Via sub_rule (Step new_coords old_coords) (to_capture radar w new_coords)
  | Via r m sub_captures =>
      Via sub_rule (Via r m []) sub_captures
  end.

(** [generate_legal_moves], given [self.sub_rule] and the list
    [self.sub_rule.get_legal_moves()] returned. *)
Definition generate_legal_moves (sub_rule : rref) (radar : list F)
    (w : world P F Sh) (sub_moves : list move) : list move :=
  map (capture_move sub_rule radar w) sub_moves.
End Methods.
End SimpleCapture.

Module NoCapture.
(** [return self.sub_rule.get_legal_moves()] *)
Definition generate_legal_moves (sub_moves : list move) : list move := sub_moves.
End NoCapture.

Module CaptureRule.
Section Methods.
Context {P F Sh : Type} (pol : policies P F Sh).

(** [execute_move] once [move] is unpacked as
    [sub_rule, sub_move, *pieces_to_capture]; [delegate] is
    [sub_rule.execute_move(sub_move)]. *)
Definition execute_move (self : rref) (m : move) (pieces_to_capture : list pid)
    (delegate : prog (world P F Sh) unit) : prog (world P F Sh) unit :=
  for_each pieces_to_capture GameState.remove_rules ;;;
  delegate ;;;
  changed self m false.

(** [undo_move]; [delegate] is [sub_rule.undo_move(sub_move)]. *)
Definition undo_move (self : rref) (m : move) (pieces_to_capture : list pid)
    (delegate : prog (world P F Sh) unit) : prog (world P F Sh) unit :=
  delegate ;;;
  for_each pieces_to_capture GameState.add_rules ;;;
  changed self m true.
End Methods.
End CaptureRule.

(** Method calls on a rule object: the class of the object named by the
    reference selects the method. *)
Module Piece.
Section Dispatch.
Context {P F Sh : Type} (pol : policies P F Sh).

(** Modelled from the spec: the classes of coordinate_rule.py define
    [generate_legal_moves]; the [get_legal_moves] that other rules call on
    them is not in the sources.  Sections 4.2 to 4.4 describe the
    enumeration of a Coordinate Leaf, a Pattern Expander and a Capture
    Decorator as what [generate_legal_moves] computes. *)
Fixpoint generate_legal_moves (fuel : nat) (piece : pid) (depth : nat)
    (self : rule P F Sh) (w : world P F Sh) : result (list move) :=
  match self with
  | Tile _ _ => inr Tile.generate_legal_moves
  | PatternRule _ shape sub =>
      match generate_legal_moves fuel piece (S depth) sub w with
      | inl e => inl e
      | inr sub_moves =>
          PatternRule.generate_legal_moves pol shape self w fuel sub_moves
      end
  | SimpleCapture _ radar sub =>
      match generate_legal_moves fuel piece (S depth) sub w with
      | inl e => inl e
      | inr sub_moves =>
          inr (SimpleCapture.generate_legal_moves pol (piece, S depth) radar w sub_moves)
      end
  | NoCapture _ _ sub =>
      match generate_legal_moves fuel piece (S depth) sub w with
      | inl e => inl e
      | inr sub_moves => inr (NoCapture.generate_legal_moves sub_moves)
      end
  end.

Definition get_legal_moves (fuel : nat) (self : rref) : prog (world P F Sh) (list move) :=
  fun w => match rule_at w self with
           | Some r => (generate_legal_moves fuel (fst self) (snd self) r w, w)
           | None => (inl AttributeError, w)
           end.

(** [self.execute_move(move)].  A capture rule unpacks the move as
    [sub_rule, sub_move, *pieces_to_capture]; on a pair of coordinates
    [sub_rule] is a tuple, which has no [execute_move]. *)
Fixpoint execute_move (m : move) (self : rref) : prog (world P F Sh) unit :=
  fun w =>
    match rule_at w self with
    | None => (inl AttributeError, w)
    | Some (Tile _ _) => Tile.execute_move self m w
    | Some (PatternRule _ _ _) => CoordinateRule.execute_move self m w
    | Some (SimpleCapture _ _ _) | Some (NoCapture _ _ _) =>
        match m with
        | Step _ _ => (inl AttributeError, w)
        | Via sub_rule sub_move pieces_to_capture =>
            CaptureRule.execute_move self m pieces_to_capture
              (execute_move sub_move sub_rule) w
        end
    end.

Fixpoint undo_move (m : move) (self : rref) : prog (world P F Sh) unit :=
  fun w =>
    match rule_at w self with
    | None => (inl AttributeError, w)
    | Some (Tile _ _) => Tile.undo_move self m w
    | Some (PatternRule _ _ _) => CoordinateRule.undo_move self m w
    | Some (SimpleCapture _ _ _) | Some (NoCapture _ _ _) =>
        match m with
        | Step _ _ => (inl AttributeError, w)
        | Via sub_rule sub_move pieces_to_capture =>
            CaptureRule.undo_move self m pieces_to_capture
              (undo_move sub_move sub_rule) w
        end
    end.

(** Pieces under the contract of [Rule].  The classes of
    coordinate_rule.py leave [get_utility] abstract: it is a parameter. *)
Definition ops `{Countable P} {V : Type} (fuel : nat)
    (utility : rref -> prog (world P F Sh) (gmap (option P) V))
    : Rule.Ops rref (world P F Sh) move (option P) V := {|
  Rule.get_legal_moves := get_legal_moves fuel;
  Rule.execute_move := fun self m => execute_move m self;
  Rule.undo_move := fun self m => undo_move m self;
  Rule.get_utility := utility;
  Rule.player := fun self w =>
    match rule_at w self with
    | Some r => Some <$> rule_player r
    | None => None
    end;
  Rule.bottom_player := fun self w =>
    match rule_at w self with
    | Some r => rule_player (get_bottom_rule r)
    | None => None
    end
|}.
End Dispatch.
End Piece.

(** ** Concrete rules used to exercise the embedding *)

(** An 8x8 board with two movement shapes. *)
Module Board.
(** [AxisStep]: [get_step] yields the four axis-aligned unit neighbours
    that lie on the board, [does_stop_on] is "square occupied",
    [does_skip] is constantly false.
    [AxisRay]: as [AxisStep] from the rule's own coordinate; from any other
    cell [get_step] yields the one next cell in the direction pointing
    away from the rule's coordinate.
    [OneRight]: a single hop to the right-hand neighbour. *)
Inductive shape : Type := AxisStep | AxisRay | OneRight.

(** The cells of the board: both indices in [lo, lo + 8). *)
Definition on_board (lo : Z) (c : coords) : bool :=
  match c with
  | [x; y] => Z.leb lo x && Z.ltb x (lo + 8) && Z.leb lo y && Z.ltb y (lo + 8)
  | _ => false
  end.

Definition neighbours (c : coords) : list coords :=
  match c with
  | [x; y] => [[x + 1; y]; [x - 1; y]; [x; y + 1]; [x; y - 1]]
  | _ => []
  end.

(** The next cell after [c] on the ray that leaves [origin] through [c]. *)
Definition onward (origin c : coords) : list coords :=
  match origin, c with
  | [ox; oy], [x; y] => [[x + Z.sgn (x - ox); y + Z.sgn (y - oy)]]
  | _, _ => []
  end.

(** Some active top rule stands on [c]. *)
Definition occupied (w : world string unit shape) (c : coords) : bool :=
  existsb (fun piece => bool_decide ((get_coords <$> pieces w !! piece) = Some c))
          (top_rules w).

Definition board_policies (lo : Z) : policies string unit shape := {|
  get_step := fun sh self _ c =>
    match sh with
    | AxisStep => filter (fun n => on_board lo n = true) (neighbours c)
    | AxisRay =>
        filter (fun n => on_board lo n = true)
          (if decide (c = get_coords self) then neighbours c
           else onward (get_coords self) c)
    | OneRight => match c with [x; y] => [[x + 1; y]] | _ => [] end
    end;
  does_stop_on := fun sh _ w c =>
    match sh with
    | AxisStep | AxisRay => occupied w c
    | OneRight => true
    end;
  does_skip := fun _ _ _ _ => false;
  isinstance := fun _ _ => true
|}.

(** One [AxisStep] piece on (4,4) over a [Tile]; [registered] tells
    whether the piece itself is among the active top rules. *)
Definition lone_piece (registered : bool) : world string unit shape := {|
  pieces := {[ 0%nat := PatternRule (Some "A") AxisStep (Tile (Some "A") [4; 4]) ]};
  top_rules := if registered then [0%nat] else [];
  log := []
|}.

(** The same position with an [AxisRay] piece. *)
Definition lone_ray_piece (registered : bool) : world string unit shape := {|
  pieces := {[ 0%nat := PatternRule (Some "A") AxisRay (Tile (Some "A") [4; 4]) ]};
  top_rules := if registered then [0%nat] else [];
  log := []
|}.

(** The seven other cells of row 4 and the seven other cells of column 4. *)
Definition row_and_column (lo : Z) : list coords :=
  filter (fun c => on_board lo c = true /\ c ≠ [4; 4])
    (map (fun x => [x; 4]) (seqZ lo 8) ++ map (fun y => [4; y]) (seqZ lo 8)).

(** All 64 cells. *)
Definition all_cells (lo : Z) : list coords :=
  x ← seqZ lo 8; y ← seqZ lo 8; [[x; y]].

Definition destination (m : move) : option coords :=
  match m with
  | Step new_coords _ => Some new_coords
  | Via _ _ _ => None
  end.

(** Two [OneRight] pieces, one per player. *)
Definition two_pieces : world string unit shape := {|
  pieces := {[ 0%nat := PatternRule (Some "A") OneRight (Tile (Some "A") [0; 0]);
               1%nat := PatternRule (Some "B") OneRight (Tile (Some "B") [5; 5]) ]};
  top_rules := [0%nat; 1%nat];
  log := []
|}.

(** A capturing piece of player A on (0,0) and a piece of player B on
    (1,0), the square the capturing piece moves to. *)
Definition capture_position : world string unit shape := {|
  pieces := {[ 0%nat := SimpleCapture (Some "A") [tt]
                          (PatternRule (Some "A") OneRight (Tile (Some "A") [0; 0]));
               1%nat := PatternRule (Some "B") OneRight (Tile (Some "B") [1; 0]) ]};
  top_rules := [0%nat; 1%nat];
  log := []
|}.

(** Pieces carry no evaluation of their own here. *)
Definition no_utility : rref -> prog (world string unit shape) (gmap (option string) Q) :=
  fun _ => ret ∅.

Definition piece_ops (fuel : nat)
    : Rule.Ops rref (world string unit shape) move (option string) Q :=
  Piece.ops (board_policies 0) fuel no_utility.
End Board.

(** A root with three legal moves, each leading to a terminal position. *)
Module ThreeMoves.
(** Position 0 is the root; move [n] leads to position [n]. *)
Definition utility_of (position : nat) : gmap string Q :=
  match position with
  | 1%nat => {[ "A" := 2 # 10; "B" := 8 # 10 ]}
  | 2%nat => {[ "A" := 6 # 10; "B" := 4 # 10 ]}
  | 3%nat => {[ "A" := 9 # 10; "B" := 1 # 10 ]}
  | _ => {[ "A" := 5 # 10; "B" := 5 # 10 ]}
  end.

#[export] Instance ops : Rule.Ops unit nat nat string Q := {|
  Rule.get_legal_moves := fun _ position =>
    (inr (match position with O => [1; 2; 3]%nat | _ => [] end), position);
  Rule.execute_move := fun _ m _ => (inr tt, m);
  Rule.undo_move := fun _ _ _ => (inr tt, O);
  Rule.get_utility := fun _ position => (inr (utility_of position), position);
  Rule.player := fun _ _ => Some "A";
  Rule.bottom_player := fun _ _ => "A"
|}.

(** Two generators that disagree on every draw. *)
Definition low : random_source nat :=
  {| random := fun _ => 0 # 1; sample := fun _ population _ => inr population |}.

Definition high : random_source nat :=
  {| random := fun _ => 9 # 10; sample := fun _ _ _ => inl ValueError |}.
End ThreeMoves.

(** ** What a pattern reaches *)

Module Expansion.
Section Reached.
Context {P F Sh : Type} (pol : policies P F Sh).
Variables (shape : Sh) (self : rule P F Sh) (w : world P F Sh).

(** [reached c]: [c] is one hop from the rule's coordinate, or one hop from
    a reached cell on which the expansion does not stop. *)
Inductive reached : coords -> Prop :=
| reached_first c :
    c ∈ get_step pol shape self w (get_coords self) -> reached c
| reached_next c c' :
    reached c ->
    does_stop_on pol shape self w c = false ->
    c' ∈ get_step pol shape self w c ->
    reached c'.

(** The moves the loop of [PatternRule.generate_legal_moves] adds for the
    cells it has reached. *)
Definition offered (m : move) : Prop :=
  exists c, m = Step c (get_coords self)
            /\ reached c /\ does_skip pol shape self w c = false.

(** What the loop keeps true of the cells still to visit ([pending]: the
    rest of the current frontier and the next one), the cells visited and
    the moves collected. *)
Definition invariant (sub_moves : list move) (pending checked : list coords)
    (legal : list move) : Prop :=
  (forall c, c ∈ pending -> reached c)
  /\ (forall c, c ∈ checked -> reached c)
  /\ (exists added,
        legal = sub_moves ++ added
        /\ NoDup added
        /\ forall m, m ∈ added -> (m ∉ sub_moves) /\ offered m)
  /\ (forall c, c ∈ checked -> does_skip pol shape self w c = false ->
        Step c (get_coords self) ∈ legal)
  /\ (forall c, c ∈ get_step pol shape self w (get_coords self) ->
        c ∈ checked \/ c ∈ pending)
  /\ (forall c c', c ∈ checked -> does_stop_on pol shape self w c = false ->
        c' ∈ get_step pol shape self w c -> c' ∈ checked \/ c' ∈ pending).

(** The cells of [cells] not visited yet. *)
Definition unvisited (cells checked : list coords) : gset coords :=
  list_to_set cells ∖ list_to_set checked.
End Reached.
End Expansion.

(** [for _ in range(n): c] *)
Fixpoint repeat_prog {S} (n : nat) (c : prog S unit) : prog S unit :=
  match n with
  | O => ret tt
  | S n' => c ;;; repeat_prog n' c
  end.

(** [utility.update(u)] for each [u] of [us] in turn, starting from
    [utility]. *)
Definition updated_by {K V} `{Countable K} (us : list (gmap K V))
    (utility : gmap K V) : gmap K V :=
  fold_left (fun acc u => u ∪ acc) us utility.

(** The positions of [ThreeMoves] as sibling rules of a sum: rule [n]
    reports the utility of position [n], whatever the state. *)
Module ThreeMovesSiblings.
#[export] Instance positions : Rule.Ops nat nat nat string Q := {|
  Rule.get_legal_moves := fun _ position => (inr [], position);
  Rule.execute_move := fun _ m position => (inr tt, position);
  Rule.undo_move := fun _ _ position => (inr tt, position);
  Rule.get_utility := fun n position => (inr (ThreeMoves.utility_of n), position);
  Rule.player := fun _ _ => Some "A";
  Rule.bottom_player := fun _ _ => "A"
|}.
End ThreeMovesSiblings.

(** [sample(population, k)] returns elements of [population]. *)
Definition samples_population {M} (rng : random_source M) : Prop :=
  forall n population k chosen,
    sample rng n population k = inr chosen ->
    forall m, m ∈ chosen -> m ∈ population.

(** ** The iterative n-max search: [n_max] (game.py, game_prep.py)

    game.py has [n_max(game, game_state, max_depth)] call the methods of
    [game] on [game_state]; game_prep.py has the same text as the method
    [GameState.n_max(self, max_depth)].  [W] is the game state, mutated in
    place by [make_move] and [revert]. *)

Module Game.

(** The abstract methods [n_max] calls, and the attribute it reads. *)
Class Ops (W M K V : Type) `{Countable K} : Type := {
  legal_moves : prog W (list M);
  make_move : M -> prog W unit;
  (** the boolean [revert] returns is not looked at *)
  revert : prog W unit;
  utility : prog W (gmap K V);
  (** [game_state.player_to_move] *)
  player_to_move : W -> K
}.

Section NMax.
Context {W M K V : Type} `{Countable K} `{!Ops W M K V}.
Variable gt : V -> V -> bool.

(** [l[-1] = x], for a list on which [l[-1]] was read. *)
Definition set_last {A} (l : list A) (x : A) : list A :=
  <[pred (length l) := x]> l.

(** [l.pop(-1)] *)
Definition pop_last {A} (l : list A) : result (A * list A) :=
  match py_index l (-1) with
  | inl e => inl e
  | inr x => inr (x, removelast l)
  end.

(** The local variables of the loop: [move_tree], [utility_tree] and
    [depth]. *)
Record frame : Type := {
  move_tree : list (list M);
  utility_tree : list (list (gmap K V));
  depth : Z
}.

(** What one pass of [while True] ends in: [continue] with the variables
    updated, or [break] with [n_max_utility]. *)
Inductive pass : Type :=
| Continue (f : frame)
| Break (n_max_utility : gmap K V).

(** "In the middle of the tree? Go down."  [move_tree[-1].pop(0)] mutates
    the list that [legal_moves] returned, taken to be a fresh list. *)
Definition go_down (f : frame) : prog W pass :=
  unexplored <- lift_result (py_index (move_tree f) (-1)) ;;
  match unexplored with
  | [] => raise IndexError
  | move :: rest =>
      make_move move ;;;
      legal <- legal_moves ;;
      ret (Continue {| move_tree := set_last (move_tree f) rest ++ [legal];
                       utility_tree := utility_tree f ++ [[]];
                       depth := depth f + 1 |})
  end.

(** "Nowhere to go down? Go up." *)
Definition go_up (max_depth : Z) (player_to_maximize : K) (f : frame)
    : prog W pass :=
  legal <- legal_moves ;;
  utilities <-
    (if bool_decide (legal = []) || Z.eqb (depth f) max_depth then
       bottom <- lift_result (py_index (utility_tree f) (-1)) ;;
       u <- utility ;;
       ret (set_last (utility_tree f) (bottom ++ [u]))
     else ret (utility_tree f)) ;;
  if negb (Z.eqb (depth f) 0) then
    revert ;;;
    parent <- lift_result (py_index utilities (-2)) ;;
    popped <- lift_result (pop_last utilities) ;;
    best <- lift_result (dictionary_max gt player_to_maximize (fst popped)) ;;
    moves <- lift_result (pop_last (move_tree f)) ;;
    ret (Continue {| move_tree := snd moves;
                     utility_tree := set_last (snd popped) (parent ++ [best]);
                     depth := depth f - 1 |})
  else
    children <- lift_result (py_index utilities (-1)) ;;
    best <- lift_result (dictionary_max gt player_to_maximize children) ;;
    ret (Break best).

(** One pass of the loop.  [depth != max_depth and move_tree[-1]] reads
    [move_tree[-1]] only when the depths differ. *)
Definition one_pass (max_depth : Z) (f : frame) : prog W pass :=
  game_state <- get_state ;;
  let player_to_maximize := player_to_move game_state in
  down <-
    (if Z.eqb (depth f) max_depth then ret false
     else
       unexplored <- lift_result (py_index (move_tree f) (-1)) ;;
       ret (negb (bool_decide (unexplored = [])))) ;;
  if (down : bool) then go_down f else go_up max_depth player_to_maximize f.

(** [while True: ...]; [fuel] bounds the number of passes. *)
Fixpoint loop (fuel : nat) (max_depth : Z) (f : frame) : prog W (gmap K V) :=
  match fuel with
  | O => raise OutOfFuel
  | S fuel' =>
      p <- one_pass max_depth f ;;
      match p with
      | Continue f' => loop fuel' max_depth f'
      | Break n_max_utility => ret n_max_utility
      end
  end.

(** [n_max(game, game_state, max_depth)] *)
Definition n_max (fuel : nat) (max_depth : Z) : prog W (gmap K V) :=
  legal <- legal_moves ;;
  loop fuel max_depth
    {| move_tree := [legal]; utility_tree := [[]]; depth := 0 |}.
End NMax.

(** *** What the docstring of [n_max] describes *)

Section Tree.
Context {W M K V : Type} `{Countable K}.
Variable gt : V -> V -> bool.
(** A game whose methods are functions of the state: the moves of a
    position, the position a move leads to, its evaluation, and who is
    to move. *)
Variables (moves : W -> list M) (child : W -> M -> W)
  (value : W -> gmap K V) (player : W -> K).

(** The results of the calls in a list, up to the first that raises. *)
Fixpoint all_results {A} (rs : list (result A)) : result (list A) :=
  match rs with
  | [] => inr []
  | inl e :: _ => inl e
  | inr x :: rest =>
      match all_results rest with
      | inl e => inl e
      | inr xs => inr (x :: xs)
      end
  end.

(** "End nodes (found by depth or by a lack of any legal moves after
    them) are evaluated by the utility method.  Utilities are assigned to
    parent game states by which of the children is the best for the
    player to move of the parent." *)
Fixpoint tree_value (levels : nat) (w : W) : result (gmap K V) :=
  match levels, moves w with
  | O, _ | _, [] => dictionary_max gt (player w) [value w]
  | S levels', ms =>
      match all_results (map (fun m => tree_value levels' (child w m)) ms) with
      | inl e => inl e
      | inr utilities => dictionary_max gt (player w) utilities
      end
  end.

(** The utilities a position at depth [dep] hands to [dictionary_max]
    when the search leaves it: its own evaluation added where it is an
    end node. *)
Definition handed_up (max_depth dep : Z) (w : W) (acc : list (gmap K V))
    : list (gmap K V) :=
  if bool_decide (moves w = []) || Z.eqb dep max_depth then acc ++ [value w]
  else acc.

(** The passes of the loop the search of a position takes, the last one,
    upwards, included. *)
Fixpoint passes (levels : nat) (w : W) : nat :=
  match levels, moves w with
  | O, _ | _, [] => 1
  | S levels', ms =>
      S (list_sum (map (fun m => S (passes levels' (child w m))) ms))
  end.
End Tree.
End Game.

(** A game of two plies: three moves in every position reached by fewer
    than two moves, "A" and "B" moving in turn.  The state is the list of
    the moves made, the last one first; a position is worth what
    [ThreeMoves.utility_of] gives for the last move made. *)
Module TwoPlies.
Definition moves (w : list nat) : list nat :=
  if (length w <? 2)%nat then [1; 2; 3]%nat else [].

Definition value (w : list nat) : gmap string Q :=
  ThreeMoves.utility_of (hd 0%nat w).

#[export] Instance ops : Game.Ops (list nat) nat string Q := {|
  Game.legal_moves := fun w => (inr (moves w), w);
  Game.make_move := fun m w => (inr tt, m :: w);
  Game.revert := fun w => (inr tt, tail w);
  Game.utility := fun w => (inr (value w), w);
  Game.player_to_move := fun w => if Nat.even (length w) then "A" else "B"
|}.
End TwoPlies.

(** ** [CaptureRule.does_attack_piece] and [CaptureRule.is_attacked] *)

Module Attack.
Section Methods.
Context {P F Sh : Type} (pol : policies P F Sh).

(** [sub_rule, sub_move, *pieces_to_capture = move]: what the unpacking
    leaves in [pieces_to_capture].  A pair of coordinates unpacks too, to
    no piece at all. *)
Definition pieces_to_capture (m : move) : list pid :=
  match m with
  | Step _ _ => []
  | Via _ _ captured => captured
  end.

(** [piece in pieces_to_capture]: the captured pieces are top rules, which
    a rule object equals when it is the top rule of its piece. *)
Definition is_captured (piece : rref) (m : move) : bool :=
  bool_decide (snd piece = 0%nat /\ fst piece ∈ pieces_to_capture m).

(** [does_attack_piece(self, piece)]; the method is defined by
    [CaptureRule], other rule objects do not have it. *)
Definition does_attack_piece (fuel : nat) (self piece : rref)
    : prog (world P F Sh) bool :=
  fun w =>
    match rule_at w self with
    | Some (SimpleCapture _ _ _) | Some (NoCapture _ _ _) =>
        (legal <- Piece.get_legal_moves pol fuel self ;;
         ret (existsb (is_captured piece) legal)) w
    | Some (Tile _ _) | Some (PatternRule _ _ _) | None => (inl AttributeError, w)
    end.


End Methods.
End Attack.

(** Two capturing pieces of the same player side by side, and a third
    piece whose capture rule is a [NoCapture]. *)
Module Neighbours.
Definition position : world string unit Board.shape := {|
  pieces := {[ 0%nat := SimpleCapture (Some "A") [tt]
                          (PatternRule (Some "A") Board.OneRight (Tile (Some "A") [0; 0]));
               1%nat := SimpleCapture (Some "A") [tt]
                          (PatternRule (Some "A") Board.OneRight (Tile (Some "A") [1; 0]));
               2%nat := NoCapture (Some "B") [tt]
                          (PatternRule (Some "B") Board.OneRight (Tile (Some "B") [0; 0])) ]};
  top_rules := [0%nat; 1%nat; 2%nat];
  log := []
|}.
End Neighbours.

(** A generator whose [sample(population, k)] returns the first [k]
    elements and raises [ValueError] when [k] is negative or larger than
    the population, and whose [random()] is always 0. *)
Definition first_elements {M} : random_source M := {|
  random := fun _ => 0 # 1;
  sample := fun _ population k =>
    if Z.ltb k 0 || Z.ltb (Z.of_nat (length population)) k then inl ValueError
    else inr (take (Z.to_nat k) population)
|}.

(** ** Players (game_prep.py) *)

(** The player status classes; [PlayOn] is what [Player.__init__] sets. *)
Inductive PlayerStatus : Type := Win | Lose | Draw | PlayOn.

(** Player objects live in a heap, a list indexed by the order of their
    creation; [next] holds the index of the successor, [None] for Python's
    [None]. *)
Module SimplePlayer.
Record t : Type := {
  status : PlayerStatus;
  next : option nat;
  tag : Z
}.

(** [SimplePlayer(successor, tag)] *)
Definition init (successor : option nat) (tag0 : Z) : t :=
  {| status := PlayOn; next := successor; tag := tag0 |}.

(** [self.next = successor] *)
Definition set_next (successor : option nat) (self : t) : t :=
  {| status := status self; next := successor; tag := tag self |}.

(** [turn(self)]: [return self.next] *)
Definition turn (heap : list t) (self : nat) : option nat :=
  match heap !! self with
  | Some player => next player
  | None => None
  end.
End SimplePlayer.

(** [range(n)] *)
Definition py_range (n : Z) : list Z := map Z.of_nat (seq 0 (Z.to_nat n)).

(** One pass of the loop of [simple_players_from_integer]:
    [players.append(SimplePlayer(players[n], number_of_players - n))]. *)
Definition append_player (number_of_players : Z)
    (state : result (list SimplePlayer.t * list nat)) (n : Z)
    : result (list SimplePlayer.t * list nat) :=
  match state with
  | inl e => inl e
  | inr (heap, players) =>
      match py_index players n with
      | inl e => inl e
      | inr successor =>
          inr (heap ++ [SimplePlayer.init (Some successor) (number_of_players - n)],
               players ++ [length heap])
      end
  end.

(** [simple_players_from_integer(number_of_players)]: the heap of the
    players created and the list returned. *)
Definition simple_players_from_integer (number_of_players : Z)
    : result (list SimplePlayer.t * list nat) :=
  match fold_left (append_player number_of_players) (py_range number_of_players)
          (inr ([SimplePlayer.init None (number_of_players + 1)], [0%nat])) with
  | inl e => inl e
  | inr (heap, players) =>
      match py_index players 0 with
      | inl e => inl e
      | inr first =>
          match py_index players (-1) with
          | inl e => inl e
          | inr last =>
              inr (alter (SimplePlayer.set_next (Some last)) first heap,
                   reverse players)
          end
      end
  end.

(** ** Moves that carry their own inverse (game_prep.py)

    What the moves of game_prep.py change: the [status] attribute of the
    players, named by their index in the heap, and [player_to_move] of the
    game state. *)
Module Move.
Record state : Type := {
  status_of : nat -> PlayerStatus;
  player_to_move : nat
}.

(** The subclasses of [Move]. *)
Local Unset Elimination Schemes.
Inductive t : Type :=
| CombinationMove (components : list t)
| Pass
| PlayerStatusChange (player : nat) (new_status : PlayerStatus)
| GameStatePlayerChange (new_player_to_move : nat).
Local Set Elimination Schemes.

(** [anti_move(self)], called in state [s]: [PlayerStatusChange] and
    [GameStatePlayerChange] read the current status and the current
    player to move; [CombinationMove] asks its components in their
    order. *)
Fixpoint anti_move (s : state) (self : t) : t :=
  match self with
  | CombinationMove components => CombinationMove (map (anti_move s) components)
  | Pass => Pass
  | PlayerStatusChange player _ => PlayerStatusChange player (status_of s player)
  | GameStatePlayerChange _ => GameStatePlayerChange (player_to_move s)
  end.

(** [execute_move(self)] *)
Fixpoint execute_move (self : t) (s : state) : state :=
  match self with
  | CombinationMove components =>
      fold_left (fun s' component => execute_move component s') components s
  | Pass => s
  | PlayerStatusChange player new_status =>
      {| status_of := fun q => if decide (q = player) then new_status
                               else status_of s q;
         player_to_move := player_to_move s |}
  | GameStatePlayerChange new_player_to_move =>
      {| status_of := status_of s; player_to_move := new_player_to_move |}
  end.

(** The move assigns the [status] of player [q]. *)
Fixpoint sets_status (q : nat) (self : t) : bool :=
  match self with
  | CombinationMove components => existsb (sets_status q) components
  | Pass => false
  | PlayerStatusChange player _ => bool_decide (q = player)
  | GameStatePlayerChange _ => false
  end.

(** The move assigns [player_to_move]. *)
Fixpoint sets_player_to_move (self : t) : bool :=
  match self with
  | CombinationMove components => existsb sets_player_to_move components
  | Pass => false
  | PlayerStatusChange _ _ => false
  | GameStatePlayerChange _ => true
  end.
End Move.

(** ** [Game] (rule.py): a rule whose moves switch its sub-rule

    A move is [(new_sub_rule, old_sub_rule, sub_moves)], [sub_moves] a
    list of pairs [(rule, sub_move)].  The field [sub_rule] of the game
    is the first component of the state. *)
Module RuleGame.
Section WithSubRules.
Context {R W M K V : Type} `{Countable K} `{!Rule.Ops R W M K V}.

Record t : Type := {
  sub_rule : option R
}.

(** [self.sub_rule = r] *)
Definition set_sub_rule (r : option R) : prog (t * W) unit :=
  modify (fun s => ({| sub_rule := r |}, snd s)).

(** [self.sub_rule = move[0]
     for rule, sub_move in move[2]: rule.execute_move(sub_move)] *)
Definition execute_move (move : option R * option R * list (R * M))
    : prog (t * W) unit :=
  set_sub_rule (fst (fst move)) ;;;
  for_each (snd move)
    (fun step => on_snd (Rule.execute_move (fst step) (snd step))).

(** [for rule, sub_move in move[2]: rule.undo_move(sub_move)
     self.sub_rule = move[1]] *)
Definition undo_move (move : option R * option R * list (R * M))
    : prog (t * W) unit :=
  for_each (snd move)
    (fun step => on_snd (Rule.undo_move (fst step) (snd step))) ;;;
  set_sub_rule (snd (fst move)).
End WithSubRules.
Arguments t : clear implicits.
End RuleGame.

(** A game that never ends: one move in every position. *)
Module Forever.
#[export] Instance ops : Game.Ops nat unit string Q := {|
  Game.legal_moves := fun w => (inr [tt], w);
  Game.make_move := fun _ w => (inr tt, S w);
  Game.revert := fun w => (inr tt, pred w);
  Game.utility := fun w => (inr ∅, w);
  Game.player_to_move := fun _ => "A"
|}.
End Forever.

(** [TwoPlies] under the contract of [Rule]. *)
Module TwoPliesRule.
#[export] Instance ops : Rule.Ops unit (list nat) nat string Q := {|
  Rule.get_legal_moves := fun _ w => (inr (TwoPlies.moves w), w);
  Rule.execute_move := fun _ m w => (inr tt, m :: w);
  Rule.undo_move := fun _ _ w => (inr tt, tail w);
  Rule.get_utility := fun _ w => (inr (TwoPlies.value w), w);
  Rule.player := fun _ w => Some (if Nat.even (length w) then "A" else "B");
  Rule.bottom_player := fun _ _ => "A"
|}.
End TwoPliesRule.

(** ** Rules linked by [sub_rule] *)

(** The objects [Rule.get_piece] and [Rule.get_bottom_rule] walk over.  A
    rule of any class that inherits the two methods ([a_Rule]) has in
    [sub_rule] either [None] or one rule; a [RuleSum] ([a_RuleSum]), which
    overrides both, has there the tuple of its sub-rules.  [name] stands
    for what else the object holds.  Either method calls itself on
    whatever object it finds in [sub_rule], so that the class of that
    object decides which body runs. *)
Module Linked.
Local Unset Elimination Schemes.
Inductive t (A : Type) : Type :=
  | a_Rule (name : A) (sub_rule : option (t A))
  | a_RuleSum (name : A) (sub_rule : list (t A)).
Local Set Elimination Schemes.
Arguments a_Rule {A} name sub_rule.
Arguments a_RuleSum {A} name sub_rule.

Section Methods.
Context {A : Type}.

(** [Rule.get_piece]:
    [if self.sub_rule: return [self] + self.sub_rule.get_piece()]
    [else: return [self]];
    [RuleSum.get_piece]:
    [this_piece = [self]], extended by [rule.get_piece()] for every
    [rule in self.sub_rule]. *)
Fixpoint get_piece (self : t A) : list (t A) :=
  match self with
  | a_Rule _ None => [self]
  | a_Rule _ (Some sub) => [self] ++ get_piece sub
  | a_RuleSum _ subs => [self] ++ concat (map get_piece subs)
  end.

(** [Rule.get_bottom_rule]:
    [if self.sub_rule: return self.sub_rule.get_bottom_rule()]
    [else: return self];
    [RuleSum.get_bottom_rule]:
    [if self.sub_rule: return self.sub_rule[-1].get_bottom_rule()]
    [else: return self], the tuple being true when it is not empty.  The
    call on the last sub-rule is written as the last of the calls on all
    of them, which is the same rule ([get_bottom_rule_of_sum]) and lets
    the recursion be seen as structural. *)
Fixpoint get_bottom_rule (self : t A) : t A :=
  match self with
  | a_Rule _ None => self
  | a_Rule _ (Some sub) => get_bottom_rule sub
  | a_RuleSum _ subs =>
      match last (map get_bottom_rule subs) with
      | Some bottom => bottom
      | None => self
      end
  end.

(** No [RuleSum] on the way down: the linked list the function [piece]
    builds. *)
Fixpoint is_chain (self : t A) : bool :=
  match self with
  | a_Rule _ None => true
  | a_Rule _ (Some sub) => is_chain sub
  | a_RuleSum _ _ => false
  end.
End Methods.

(** The chain of a piece of the board, every rule of it named by itself. *)
Fixpoint of_rule {P F Sh : Type} (r : rule P F Sh) : t (rule P F Sh) :=
  match r with
  | Tile _ _ => a_Rule r None
  | PatternRule _ _ sub => a_Rule r (Some (of_rule sub))
  | SimpleCapture _ _ sub => a_Rule r (Some (of_rule sub))
  | NoCapture _ _ sub => a_Rule r (Some (of_rule sub))
  end.

(** A game over a sum of two pieces, the first with a tile below it. *)
Definition game_over_sum : t string :=
  a_Rule "game"
    (Some (a_RuleSum "sum"
             [a_Rule "rook" (Some (a_Rule "tile" None)); a_Rule "king" None])).
End Linked.

(** * Properties *)

(** ** Selection *)

Section SelectionFacts.
Context `{Countable K} {V : Type}.
Variable gt : V -> V -> bool.
Implicit Types (key : K) (d cur : gmap K V) (ds before after : list (gmap K V)).

Lemma dictionary_max_loop_eq key ds : forall cur,
  dictionary_max_loop gt key cur ds = max_by_key_loop gt key cur ds.
Proof.
  induction ds as [|d ds IH]; intros cur; simpl; [reflexivity|].
  destruct (getitem d key); [reflexivity|].
  destruct (getitem cur key); [reflexivity|].
  apply IH.
Qed.

Lemma dictionary_max_max_by_key key ds :
  dictionary_max gt key ds = max_by_key gt key ds.
Proof.
  destruct ds as [|d0 ds0]; [reflexivity|].
  apply dictionary_max_loop_eq.
Qed.

(** The loop keeps an element of [current_max :: dictionaries]. *)
Lemma max_by_key_loop_elem key ds : forall cur r,
  max_by_key_loop gt key cur ds = inr r -> r = cur \/ r ∈ ds.
Proof.
  induction ds as [|d ds IH]; intros cur r; simpl.
  - intros [= <-]. by left.
  - destruct (getitem d key) as [e|x]; [discriminate|].
    destruct (getitem cur key) as [e|y]; [discriminate|].
    intros Hr. apply IH in Hr as [->|Hin].
    + destruct (gt x y); [right; left | by left].
    + right. by right.
Qed.

(** With the key present everywhere the loop does not raise. *)
Lemma max_by_key_loop_defined key ds : forall cur,
  is_Some (cur !! key) ->
  Forall (fun d => is_Some (d !! key)) ds ->
  exists r, max_by_key_loop gt key cur ds = inr r.
Proof.
  induction ds as [|d ds IH]; intros cur Hcur Hall; simpl.
  - eauto.
  - inversion Hall as [|? ? [x Hx] Hds]; subst.
    destruct Hcur as [y Hy].
    unfold getitem. rewrite Hx, Hy.
    apply IH; [|assumption].
    destruct (gt x y); eauto.
Qed.

(** The only exception the loop can raise is [KeyError]. *)
Lemma max_by_key_loop_raises key ds : forall cur e,
  max_by_key_loop gt key cur ds = inl e -> e = KeyError.
Proof.
  induction ds as [|d ds IH]; intros cur e; simpl; [discriminate|].
  unfold getitem.
  destruct (d !! key); [|by intros [= <-]].
  destruct (cur !! key); [|by intros [= <-]].
  apply IH.
Qed.

(** [IndexError] is raised on the empty list and on no other. *)
Lemma max_by_key_IndexError key ds :
  max_by_key gt key ds = inl IndexError <-> ds = [].
Proof.
  split; [|by intros ->].
  destruct ds as [|d ds]; [done|]. unfold max_by_key.
  intros Hr. apply max_by_key_loop_raises in Hr. discriminate.
Qed.

(** Once the running maximum is a vector nothing later exceeds, it stays. *)
Lemma max_by_key_loop_stays key v ds : forall cur,
  cur !! key = Some v ->
  Forall (fun d => exists vd, d !! key = Some vd /\ gt vd v = false) ds ->
  max_by_key_loop gt key cur ds = inr cur.
Proof.
  induction ds as [|d ds IH]; intros cur Hcur Hall; simpl; [reflexivity|].
  inversion Hall as [|? ? (vd & Hd & Hgt) Hds]; subst.
  unfold getitem. rewrite Hd, Hcur, Hgt. by apply IH.
Qed.

(** While the running maximum is strictly below [v], the first vector with
    value [v] replaces it and is then kept. *)
Lemma max_by_key_loop_first key v d after before : forall cur,
  (exists vc, cur !! key = Some vc /\ gt v vc = true) ->
  Forall (fun x => exists vx, x !! key = Some vx /\ gt v vx = true) before ->
  d !! key = Some v ->
  Forall (fun x => exists vx, x !! key = Some vx /\ gt vx v = false) after ->
  max_by_key_loop gt key cur (before ++ d :: after) = inr d.
Proof.
  induction before as [|b before IH]; intros cur (vc & Hc & Hvc) Hb Hd Ha; simpl.
  - unfold getitem. rewrite Hd, Hc, Hvc.
    by eapply max_by_key_loop_stays.
  - inversion Hb as [|? ? (vb & Hvb & Hgtb) Hb']; subst.
    unfold getitem. rewrite Hvb, Hc.
    apply IH; try assumption.
    destruct (gt vb vc); eauto.
Qed.

Lemma max_by_key_first key v d before after :
  d !! key = Some v ->
  gt v v = false ->
  Forall (fun x => exists vx, x !! key = Some vx /\ gt v vx = true) before ->
  Forall (fun x => exists vx, x !! key = Some vx /\ gt vx v = false) after ->
  max_by_key gt key (before ++ d :: after) = inr d.
Proof.
  intros Hd Hirr Hb Ha.
  destruct before as [|b before]; simpl.
  - unfold getitem. rewrite Hd, Hirr. by apply max_by_key_loop_stays with v.
  - inversion Hb as [|? ? (vb & Hvb & Hgtb) Hb']; subst.
    unfold getitem. rewrite Hvb.
    replace (if gt vb vb then b else b) with b by (by destruct (gt vb vb)).
    apply max_by_key_loop_first with v; eauto.
Qed.

(** C6. Tie-break: when several vectors of the list carry the maximal value
    [v] at the maximizing player's key, [max_by_key] and [dictionary_max]
    return the first of them in enumeration order: the vector [d] with
    value [v] before which every value is strictly below [v], and after
    which no value exceeds [v] (equal values included). *)
Theorem selection_keeps_first_maximal key v d before after :
  d !! key = Some v ->
  gt v v = false ->
  Forall (fun x => exists vx, x !! key = Some vx /\ gt v vx = true) before ->
  Forall (fun x => exists vx, x !! key = Some vx /\ gt vx v = false) after ->
  max_by_key gt key (before ++ d :: after) = inr d
  /\ dictionary_max gt key (before ++ d :: after) = inr d.
Proof.
  intros Hd Hirr Hb Ha.
  split.
  - by apply max_by_key_first with v.
  - etransitivity; [apply dictionary_max_max_by_key|].
    by apply max_by_key_first with v.
Qed.
End SelectionFacts.

(** Two vectors tie at 0.9 for "A"; the earlier one is returned. *)
Lemma selection_keeps_first_maximal_witness :
  let low : gmap string Q := {[ "A" := 2 # 10; "B" := 8 # 10 ]} in
  let first : gmap string Q := {[ "A" := 9 # 10; "B" := 1 # 10 ]} in
  let second : gmap string Q := {[ "A" := 9 # 10; "B" := 0 # 10 ]} in
  max_by_key Qgtb "A" ([low] ++ first :: [second]) = inr first
  /\ dictionary_max Qgtb "A" ([low] ++ first :: [second]) = inr first.
Proof.
  intros low first second.
  apply (selection_keeps_first_maximal Qgtb "A" (9 # 10) first [low] [second]).
  - reflexivity.
  - reflexivity.
  - repeat constructor. exists (2 # 10). split; reflexivity.
  - repeat constructor. exists (9 # 10). split; reflexivity.
Defined.

(** ** The sequencer *)

Lemma py_mod_pos (a n : Z) : 0 < n -> py_mod a n = inr (a mod n).
Proof.
  intros Hn. unfold py_mod.
  destruct (Z.eqb_spec n 0); [lia | reflexivity].
Qed.

Lemma py_index_in_range {A} (l : list A) (i : Z) :
  0 <= i < Z.of_nat (length l) ->
  exists x, l !! Z.to_nat i = Some x /\ py_index l i = inr x.
Proof.
  intros Hi. unfold py_index.
  destruct (Z.leb_spec 0 i); [|lia].
  destruct (Z.ltb_spec i 0); [lia|].
  destruct (lookup_lt_is_Some_2 l (Z.to_nat i)) as [x Hx]; [lia|].
  exists x. by rewrite Hx.
Qed.

Section SimpleTurnFacts.
Context {R W M K V : Type} `{Countable K} `{!Rule.Ops R W M K V}.
Implicit Types (st : SimpleTurn.t R) (w : W) (s : SimpleTurn.t R * W)
  (move : option (R * M)).

(** The sequencer after its index moved by [delta]. *)
Lemma shift_turn_spec st w delta :
  SimpleTurn.sequence st <> [] ->
  let N := Z.of_nat (length (SimpleTurn.sequence st)) in
  exists r,
    SimpleTurn.sequence st !! Z.to_nat ((SimpleTurn.turn st + delta) mod N) = Some r
    /\ SimpleTurn.shift_turn delta (st, w) =
       (inr tt, ({| SimpleTurn.sequence := SimpleTurn.sequence st;
                    SimpleTurn.turn := (SimpleTurn.turn st + delta) mod N;
                    SimpleTurn.sub_rule := r |}, w)).
Proof.
  intros Hne N.
  assert (0 < N) as HN.
  { subst N. destruct (SimpleTurn.sequence st); [done | simpl; lia]. }
  destruct (py_index_in_range (SimpleTurn.sequence st)
              ((SimpleTurn.turn st + delta) mod N)) as (r & Hr & Hidx).
  { apply Z.mod_pos_bound, HN. }
  exists r. split; [exact Hr|].
  unfold SimpleTurn.shift_turn, bind, SimpleTurn.self, lift_result,
    SimpleTurn.set_turn, SimpleTurn.set_sub_rule, modify. simpl.
  fold N. rewrite (py_mod_pos _ N HN). simpl. fold N.
  rewrite Hidx. reflexivity.
Qed.

Lemma execute_move_spec st w move :
  SimpleTurn.sequence st <> [] ->
  let N := Z.of_nat (length (SimpleTurn.sequence st)) in
  let delegated :=
    match move with
    | Some (r, m) => Rule.execute_move r m w
    | None => (inr tt, w)
    end in
  exists r',
    SimpleTurn.sequence st !! Z.to_nat ((SimpleTurn.turn st + 1) mod N) = Some r'
    /\ SimpleTurn.execute_move move (st, w) =
       (fst delegated,
        ({| SimpleTurn.sequence := SimpleTurn.sequence st;
            SimpleTurn.turn := (SimpleTurn.turn st + 1) mod N;
            SimpleTurn.sub_rule := r' |}, snd delegated)).
Proof.
  intros Hne N delegated.
  destruct (shift_turn_spec st w 1 Hne) as (r' & Hr' & Hshift).
  exists r'. split; [exact Hr'|].
  unfold SimpleTurn.execute_move, bind. rewrite Hshift. fold N.
  subst delegated. destruct move as [[r m]|]; [|reflexivity].
  unfold on_snd. simpl. by destruct (Rule.execute_move r m w) as [[e|[]] w'].
Qed.

Lemma undo_move_raises st w move e :
  let delegated :=
    match move with
    | Some (r, m) => Rule.undo_move r m w
    | None => (inr tt, w)
    end in
  fst delegated = inl e ->
  SimpleTurn.undo_move move (st, w) = (inl e, (st, snd delegated)).
Proof.
  intros delegated. subst delegated.
  destruct move as [[r m]|]; [|discriminate].
  unfold SimpleTurn.undo_move, bind, on_snd. simpl.
  destruct (Rule.undo_move r m w) as [[e'|[]] w']; simpl; [|discriminate].
  by intros [= ->].
Qed.

Lemma undo_move_spec st w move :
  SimpleTurn.sequence st <> [] ->
  let N := Z.of_nat (length (SimpleTurn.sequence st)) in
  let delegated :=
    match move with
    | Some (r, m) => Rule.undo_move r m w
    | None => (inr tt, w)
    end in
  fst delegated = inr tt ->
  exists r',
    SimpleTurn.sequence st !! Z.to_nat ((SimpleTurn.turn st - 1) mod N) = Some r'
    /\ SimpleTurn.undo_move move (st, w) =
       (inr tt,
        ({| SimpleTurn.sequence := SimpleTurn.sequence st;
            SimpleTurn.turn := (SimpleTurn.turn st - 1) mod N;
            SimpleTurn.sub_rule := r' |}, snd delegated)).
Proof.
  intros Hne N delegated Hok.
  destruct (shift_turn_spec st (snd delegated) (-1) Hne) as (r' & Hr' & Hshift).
  exists r'. split; [exact Hr'|].
  unfold SimpleTurn.undo_move, bind. subst delegated.
  destruct move as [[r m]|].
  - unfold on_snd. simpl in *.
    destruct (Rule.undo_move r m w) as [[e'|[]] w']; simpl in *; [discriminate|].
    exact Hshift.
  - simpl in *. exact Hshift.
Qed.

(** What every reachable sequencer satisfies. *)
Lemma reachable_in_range s :
  SimpleTurn.reachable s ->
  SimpleTurn.sequence (fst s) <> []
  /\ 0 <= SimpleTurn.turn (fst s) < Z.of_nat (length (SimpleTurn.sequence (fst s))).
Proof.
  induction 1 as [subs t0 st w Hinit | [st w] move Hreach [Hne Hrange]
                 | [st w] move Hreach [Hne Hrange]]; simpl in *.
  - unfold SimpleTurn.init, py_mod in Hinit.
    destruct (Z.eqb_spec (Z.of_nat (length subs)) 0) as [|Hn]; [discriminate|].
    destruct (py_index subs 0) as [|first]; [discriminate|].
    injection Hinit as <-. simpl.
    split; [by destruct subs|].
    apply Z.mod_pos_bound. lia.
  - destruct (execute_move_spec st w move Hne) as (r' & _ & ->). simpl.
    split; [exact Hne|]. apply Z.mod_pos_bound. lia.
  - pose (delegated := match move with
                       | Some (r, m) => Rule.undo_move r m w
                       | None => (inr tt, w)
                       end).
    destruct (fst delegated) as [e|[]] eqn:Hd.
    + rewrite (undo_move_raises st w move e Hd). simpl. by split.
    + destruct (undo_move_spec st w move Hne Hd) as (r' & _ & ->). simpl.
      split; [exact Hne|]. apply Z.mod_pos_bound. lia.
Qed.
End SimpleTurnFacts.

Section SimpleTurnClaims.
Context {R W M K V : Type} `{Countable K} `{!Rule.Ops R W M K V}.
Implicit Types (st : SimpleTurn.t R) (w : W) (s : SimpleTurn.t R * W)
  (move : option (R * M)).

(** C5. For every sequencer over N sub-rules the turn index is always in
    [0, N).  [execute_move] sets it to (index + 1) mod N before the
    delegated sub-move is applied: the new index is in place whatever the
    sub-move does, also when it raises.  [undo_move] sets it to
    (index - 1) mod N after the delegated inverse: when the inverse raises
    the index is untouched.  The result of the undo arithmetic is never
    negative; from index 0 it is N - 1. *)
Theorem SimpleTurn_turn_index_in_range s move :
  SimpleTurn.reachable s ->
  let st := fst s in
  let w := snd s in
  let N := Z.of_nat (length (SimpleTurn.sequence st)) in
  let delegated_execute :=
    match move with
    | Some (r, m) => Rule.execute_move r m w
    | None => (inr tt, w)
    end in
  let delegated_undo :=
    match move with
    | Some (r, m) => Rule.undo_move r m w
    | None => (inr tt, w)
    end in
  0 <= SimpleTurn.turn st < N
  /\ (exists r',
        SimpleTurn.sequence st !! Z.to_nat ((SimpleTurn.turn st + 1) mod N) = Some r'
        /\ SimpleTurn.execute_move move s =
           (fst delegated_execute,
            ({| SimpleTurn.sequence := SimpleTurn.sequence st;
                SimpleTurn.turn := (SimpleTurn.turn st + 1) mod N;
                SimpleTurn.sub_rule := r' |}, snd delegated_execute)))
  /\ (forall e, fst delegated_undo = inl e ->
        SimpleTurn.undo_move move s = (inl e, (st, snd delegated_undo)))
  /\ (fst delegated_undo = inr tt ->
      exists r',
        SimpleTurn.sequence st !! Z.to_nat ((SimpleTurn.turn st - 1) mod N) = Some r'
        /\ SimpleTurn.undo_move move s =
           (inr tt,
            ({| SimpleTurn.sequence := SimpleTurn.sequence st;
                SimpleTurn.turn := (SimpleTurn.turn st - 1) mod N;
                SimpleTurn.sub_rule := r' |}, snd delegated_undo)))
  /\ 0 <= (SimpleTurn.turn st + 1) mod N < N
  /\ 0 <= (SimpleTurn.turn st - 1) mod N < N
  /\ (SimpleTurn.turn st = 0 -> (SimpleTurn.turn st - 1) mod N = N - 1).
Proof.
  intros Hreach st w N dex dun.
  destruct (reachable_in_range s Hreach) as [Hne Hrange].
  destruct s as [st' w']. simpl in *. subst st w.
  assert (0 < N) as HN by (subst N; lia).
  repeat split.
  - apply Hrange.
  - apply Hrange.
  - apply (execute_move_spec st' w' move Hne).
  - intros e He. by apply undo_move_raises.
  - intros Hok. by apply (undo_move_spec st' w' move Hne).
  - by apply Z.mod_pos_bound.
  - by apply Z.mod_pos_bound.
  - by apply Z.mod_pos_bound.
  - by apply Z.mod_pos_bound.
  - intros ->. symmetry.
    apply Z.mod_unique_pos with (q := -1); lia.
Qed.

(** C7. A sequencer over three sub-rules with turn index 0: [execute_move]
    with no sub-move moves it to index 1 and the second sub-rule, and
    [undo_move] with no sub-move brings the index back to 0 and the active
    sub-rule back to the one at position 0. *)
Theorem SimpleTurn_cycle_round_trip (r0 r1 r2 active : R) w :
  let start :=
    {| SimpleTurn.sequence := [r0; r1; r2]; SimpleTurn.turn := 0;
       SimpleTurn.sub_rule := active |} in
  let after_execute :=
    {| SimpleTurn.sequence := [r0; r1; r2]; SimpleTurn.turn := 1;
       SimpleTurn.sub_rule := r1 |} in
  let after_undo :=
    {| SimpleTurn.sequence := [r0; r1; r2]; SimpleTurn.turn := 0;
       SimpleTurn.sub_rule := r0 |} in
  SimpleTurn.execute_move None (start, w) = (inr tt, (after_execute, w))
  /\ SimpleTurn.undo_move None (after_execute, w) = (inr tt, (after_undo, w))
  /\ (SimpleTurn.execute_move None ;;; SimpleTurn.undo_move None) (start, w)
     = (inr tt, (after_undo, w)).
Proof.
  repeat split.
Qed.
End SimpleTurnClaims.

(** C9 (amended). A [SimpleTurn] built over N >= 1 sub-rules with turn
    argument [t] stores the index t mod N, but its active [sub_rule] is the
    sub-rule at position 0 whatever [t] is.  The active sub-rule is the one
    the index designates when t mod N = 0; in general it is so exactly when
    the sub-rule at position t mod N is the sub-rule at position 0; and
    when the sub-rules are pairwise distinct objects, only when
    t mod N = 0. *)
Theorem SimpleTurn_init_active_sub_rule {R : Type} (first : R) (rest : list R)
    (t : Z) :
  let sub_rules := first :: rest in
  let N := Z.of_nat (length sub_rules) in
  exists st,
    SimpleTurn.init sub_rules t = inr st
    /\ SimpleTurn.sequence st = sub_rules
    /\ SimpleTurn.turn st = t mod N
    /\ SimpleTurn.sub_rule st = first
    /\ (t mod N = 0 ->
        SimpleTurn.sequence st !! Z.to_nat (SimpleTurn.turn st)
          = Some (SimpleTurn.sub_rule st))
    /\ (SimpleTurn.sequence st !! Z.to_nat (SimpleTurn.turn st)
          = Some (SimpleTurn.sub_rule st)
        <-> sub_rules !! Z.to_nat (t mod N) = Some first)
    /\ (NoDup sub_rules ->
        SimpleTurn.sequence st !! Z.to_nat (SimpleTurn.turn st)
          = Some (SimpleTurn.sub_rule st) ->
        t mod N = 0).
Proof.
  intros sub_rules N.
  assert (0 < N) as HN by (subst N sub_rules; simpl; lia).
  eexists. split.
  { unfold SimpleTurn.init. fold N. rewrite (py_mod_pos _ N HN). reflexivity. }
  simpl. repeat split.
  - by intros ->.
  - done.
  - done.
  - intros Hnodup Hlook.
    pose proof (Z.mod_pos_bound t N HN) as Hb.
    assert (Z.to_nat (t mod N) = 0%nat) as H0.
    { eapply NoDup_lookup; [exact Hnodup | exact Hlook | reflexivity]. }
    lia.
Qed.

(** The claim without the proviso fails: built with [turn=2] over
    [(a, b, a)], the index 2 designates the active sub-rule [a], and
    2 mod 3 is not 0. *)
Lemma SimpleTurn_init_agrees_at_a_repeated_sub_rule :
  exists st : SimpleTurn.t nat,
    SimpleTurn.init [7; 8; 7]%nat 2 = inr st
    /\ SimpleTurn.sequence st !! Z.to_nat (SimpleTurn.turn st)
       = Some (SimpleTurn.sub_rule st)
    /\ 2 mod Z.of_nat (length [7; 8; 7]%nat) <> 0.
Proof. eexists. split; [reflexivity|]. split; [reflexivity | discriminate]. Qed.

(** Over three distinct sub-rules: built with [turn=3] the index designates
    the active sub-rule; built with [turn=1] it does not. *)
Lemma SimpleTurn_init_active_sub_rule_witness :
  (exists st : SimpleTurn.t nat,
     SimpleTurn.init [10; 20; 30]%nat 3 = inr st
     /\ SimpleTurn.sequence st !! Z.to_nat (SimpleTurn.turn st)
        = Some (SimpleTurn.sub_rule st))
  /\ (exists st : SimpleTurn.t nat,
        SimpleTurn.init [10; 20; 30]%nat 1 = inr st
        /\ NoDup [10; 20; 30]%nat
        /\ SimpleTurn.sequence st !! Z.to_nat (SimpleTurn.turn st)
           <> Some (SimpleTurn.sub_rule st)).
Proof.
  split.
  - destruct (SimpleTurn_init_active_sub_rule 10%nat [20; 30]%nat 3)
      as (st & Hinit & _ & _ & _ & Hagree & _).
    exists st. split; [exact Hinit|].
    apply Hagree. reflexivity.
  - destruct (SimpleTurn_init_active_sub_rule 10%nat [20; 30]%nat 1)
      as (st & Hinit & _ & _ & _ & _ & _ & Honly).
    assert (NoDup [10; 20; 30]%nat) as Hnodup
      by (apply (bool_decide_unpack _); vm_compute; exact I).
    exists st. split; [exact Hinit|]. split; [exact Hnodup|].
    intros Hagree. specialize (Honly Hnodup Hagree). discriminate.
Defined.

(** The sequencer built over the two pieces of [Board.two_pieces] with
    [turn=1], about to execute the move of the first piece. *)
Lemma SimpleTurn_turn_index_in_range_witness :
  let st := {| SimpleTurn.sequence := [(0, 0); (1, 0)]%nat; SimpleTurn.turn := 1;
               SimpleTurn.sub_rule := (0, 0)%nat |} in
  0 <= SimpleTurn.turn st < 2
  /\ (SimpleTurn.turn st - 1) mod 2 = 0.
Proof.
  intros st.
  pose proof (SimpleTurn_turn_index_in_range (H0 := Board.piece_ops 5)
                (st, Board.two_pieces)
                (Some ((0, 0)%nat, Step [1; 0] [0; 0]))
                (SimpleTurn.reach_init [(0, 0); (1, 0)]%nat 1 st
                   Board.two_pieces eq_refl)) as Hthm.
  simpl in Hthm.
  destruct Hthm as (Hrange & _).
  split; [exact Hrange | reflexivity].
Defined.

(** ** Programs *)

Lemma bind_ok {S A B} (c : prog S A) (k : A -> prog S B) s a s' :
  c s = (inr a, s') -> bind c k s = k a s'.
Proof. intros Hc. unfold bind. by rewrite Hc. Qed.

Lemma on_fst_run {T W A} (c : prog T A) t (w : W) r t' :
  c t = (r, t') -> on_fst c (t, w) = (r, (t', w)).
Proof. intros Hc. unfold on_fst. simpl. by rewrite Hc. Qed.

(** A loop whose body gives the state back unchanged. *)
Lemma map_each_stable {S A B} (f : A -> prog S B) s xs ys :
  Forall2 (fun x y => f x s = (inr y, s)) xs ys ->
  map_each xs f s = (inr ys, s).
Proof.
  induction 1 as [|x y xs ys Hx _ IH]; [reflexivity|].
  simpl. rewrite (bind_ok _ _ _ _ _ Hx). rewrite (bind_ok _ _ _ _ _ IH).
  reflexivity.
Qed.

Lemma map_each_length {S A B} (f : A -> prog S B) xs : forall s ys s',
  map_each xs f s = (inr ys, s') -> length ys = length xs.
Proof.
  induction xs as [|x xs IH]; intros s ys s'; simpl.
  - by intros [= <- _].
  - unfold bind at 1. destruct (f x s) as [[e|y] s1]; [discriminate|].
    unfold bind at 1. destruct (map_each xs f s1) as [[e|ys'] s2] eqn:Hrest;
      [discriminate|].
    intros [= <- _]. simpl. f_equal. by eapply IH.
Qed.

Lemma never_raises_bind {S A B} e (c : prog S A) (k : A -> prog S B) :
  never_raises e c ->
  (forall s a s', c s = (inr a, s') -> fst (k a s') <> inl e) ->
  never_raises e (bind c k).
Proof.
  intros Hc Hk s. unfold bind.
  destruct (c s) as [[e'|a] s'] eqn:Hcs.
  - specialize (Hc s). rewrite Hcs in Hc. simpl in *.
    intros [= ->]. by apply Hc.
  - by eapply Hk.
Qed.

Lemma never_raises_map_each {S A B} e (f : A -> prog S B) xs :
  (forall x, never_raises e (f x)) -> never_raises e (map_each xs f).
Proof.
  intros Hf. induction xs as [|x xs IH]; simpl.
  - by intros s.
  - apply never_raises_bind; [apply Hf|]. intros s y s' _.
    apply never_raises_bind; [apply IH|]. by intros.
Qed.

Lemma never_raises_on_fst {T W A} e (c : prog T A) :
  never_raises e c -> never_raises e (on_fst (W := W) c).
Proof.
  intros Hc [t w]. unfold on_fst. simpl.
  specialize (Hc t). destruct (c t) as [r t']. exact Hc.
Qed.


(** ** The search at depth 1 *)

Section DepthOne.
Context {R W M K : Type} `{Countable K} `{!Rule.Ops R W M K Q}.
Variable lt : Q -> Q -> bool.

End DepthOne.


(** ** The search does not depend on the draws when the temperature is
    negative *)

Lemma Qltb_negative (temp r : Q) :
  (temp < 0)%Q -> (0 <= r)%Q -> Qltb temp r = true.
Proof.
  intros Ht Hr. unfold Qltb.
  destruct (Qle_bool r temp) eqn:Hle; [|reflexivity].
  apply Qle_bool_iff in Hle.
  exfalso. apply (Qlt_irrefl temp).
  eapply Qlt_le_trans; [exact Ht|]. eapply Qle_trans; eassumption.
Qed.

Lemma on_fst_forget {W A} (c : prog W A) (w : W) (n : nat) :
  forget_draws (on_fst c (w, n)) = c w.
Proof. unfold forget_draws, on_fst. simpl. by destruct (c w). Qed.

Lemma bind_agree {W A B} (c1 c2 : prog (W * nat) A) (k1 k2 : A -> prog (W * nat) B)
    (s1 s2 : W * nat) :
  forget_draws (c1 s1) = forget_draws (c2 s2) ->
  (forall a w n1 n2, forget_draws (k1 a (w, n1)) = forget_draws (k2 a (w, n2))) ->
  forget_draws (bind c1 k1 s1) = forget_draws (bind c2 k2 s2).
Proof.
  intros Hc Hk. unfold bind.
  destruct (c1 s1) as [[e1|a1] [w1 n1]], (c2 s2) as [[e2|a2] [w2 n2]];
    unfold forget_draws in Hc; simpl in Hc; try discriminate.
  - injection Hc as -> ->. reflexivity.
  - injection Hc as -> ->. apply Hk.
Qed.

Lemma map_each_agree {W A B} (f1 f2 : A -> prog (W * nat) B) (xs : list A) :
  (forall x w n1 n2, forget_draws (f1 x (w, n1)) = forget_draws (f2 x (w, n2))) ->
  forall w n1 n2,
    forget_draws (map_each xs f1 (w, n1)) = forget_draws (map_each xs f2 (w, n2)).
Proof.
  intros Hf. induction xs as [|x xs IH]; intros w n1 n2; simpl; [reflexivity|].
  apply bind_agree; [apply Hf|]. intros y w' n1' n2'.
  apply bind_agree; [apply IH|]. reflexivity.
Qed.

Section Determinism.
Context {R W M K V : Type} `{Countable K} `{!Rule.Ops R W M K V}.
Variable gt lt : V -> V -> bool.
Variable evaluate_game : R -> prog W (gmap K V).
Variable get_player : R -> prog W K.
Variables (rng1 rng2 : random_source M) (temp : Q).
Hypothesis rng1_range : unit_interval rng1.
Hypothesis rng2_range : unit_interval rng2.
Hypothesis temp_negative : (temp < 0)%Q.

(** With a negative temperature the pruning step keeps
    [sorted(legal, key=evaluate)[:width]], whatever is drawn. *)
Lemma prune_heuristic (rng : random_source M) width k self player legal w n :
  unit_interval rng ->
  Rule.width_active width (length legal) = true ->
  forget_draws (Rule.prune gt lt rng width temp k self player legal (w, n))
  = Rule.heuristic_prune gt lt k self player legal (default 0 width) w.
Proof.
  intros Hrng Hactive. unfold Rule.prune. rewrite Hactive.
  unfold bind at 1, Rule.next_draw. cbn [fst snd].
  rewrite Qltb_negative; [|exact temp_negative|apply Hrng].
  apply on_fst_forget.
Qed.

Lemma prune_agree width k self player legal w n1 n2 :
  forget_draws (Rule.prune gt lt rng1 width temp k self player legal (w, n1))
  = forget_draws (Rule.prune gt lt rng2 width temp k self player legal (w, n2)).
Proof.
  destruct (Rule.width_active width (length legal)) eqn:Hactive.
  - by rewrite !(prune_heuristic _ width k self player legal w) by assumption.
  - unfold Rule.prune. by rewrite Hactive.
Qed.

Lemma max_n_agree depth : forall width k self w n1 n2,
  forget_draws (Rule.max_n gt lt rng1 depth width temp k self (w, n1))
  = forget_draws (Rule.max_n gt lt rng2 depth width temp k self (w, n2)).
Proof.
  induction depth as [|depth IH]; intros width k self w n1 n2; cbn [Rule.max_n].
  - apply bind_agree; [by rewrite !on_fst_forget|]. intros player w1 a1 a2.
    apply bind_agree; [by rewrite !on_fst_forget|]. intros legal w2 b1 b2.
    apply bind_agree; [apply prune_agree|]. intros legal' w3 c1 c2.
    by rewrite !on_fst_forget.
  - apply bind_agree; [by rewrite !on_fst_forget|]. intros player w1 a1 a2.
    apply bind_agree; [by rewrite !on_fst_forget|]. intros legal w2 b1 b2.
    apply bind_agree; [apply prune_agree|]. intros legal' w3 c1 c2.
    destruct legal' as [|move rest]; [by rewrite !on_fst_forget|].
    apply bind_agree; [|reflexivity].
    apply map_each_agree. intros x w4 d1 d2.
    apply bind_agree; [by rewrite !on_fst_forget|]. intros [] w5 e1 e2.
    apply bind_agree; [apply IH|]. intros u w6 f1 f2.
    apply bind_agree; [by rewrite !on_fst_forget|]. reflexivity.
Qed.

Lemma explore_prune_heuristic (rng : random_source M) width k game player legal w n :
  unit_interval rng ->
  Z.leb 0 width && Z.ltb width (Z.of_nat (length legal)) = true ->
  forget_draws (Evaluator.explore_prune gt lt evaluate_game get_player rng width temp
                  k game player legal (w, n))
  = Evaluator.explore_heuristic_prune gt lt evaluate_game get_player k game player
      legal width w.
Proof.
  intros Hrng Hactive. unfold Evaluator.explore_prune. rewrite Hactive.
  unfold bind at 1, Rule.next_draw. cbn [fst snd].
  rewrite Qltb_negative; [|exact temp_negative|apply Hrng].
  apply on_fst_forget.
Qed.

Lemma explore_agree game depth width k w n1 n2 :
  forget_draws (Evaluator.explore gt lt evaluate_game get_player rng1 game depth
                  width temp k (w, n1))
  = forget_draws (Evaluator.explore gt lt evaluate_game get_player rng2 game depth
                    width temp k (w, n2)).
Proof.
  unfold Evaluator.explore.
  apply bind_agree; [by rewrite !on_fst_forget|]. intros player w1 a1 a2.
  apply bind_agree; [by rewrite !on_fst_forget|]. intros legal w2 b1 b2.
  apply bind_agree; [|intros; by rewrite !on_fst_forget].
  destruct (Z.leb 0 width && Z.ltb width (Z.of_nat (length legal))) eqn:Hactive.
  - by rewrite !(explore_prune_heuristic _ width k game player legal w2) by assumption.
  - unfold Evaluator.explore_prune. by rewrite Hactive.
Qed.
End Determinism.

Lemma ThreeMoves_low_range : unit_interval ThreeMoves.low.
Proof. intros n. split; unfold Qle, Qlt; simpl; lia. Defined.

Lemma ThreeMoves_high_range : unit_interval ThreeMoves.high.
Proof. intros n. split; unfold Qle, Qlt; simpl; lia. Defined.

(** ** The selection is never applied to an empty list by the search *)

Section NoIndexError.
Context {R W M K V : Type} `{Countable K} `{!Rule.Ops R W M K V}.
Variable gt lt : V -> V -> bool.
Variable self : R.
Hypothesis ops_ok : Rule.ops_never_raise IndexError self.

Lemma lift_max_by_key_nonempty {S} (player : K) (utilities : list (gmap K V)) (s : S) :
  utilities <> [] ->
  fst (lift_result (max_by_key gt player utilities) s) <> inl IndexError.
Proof.
  intros Hne. unfold lift_result. simpl.
  intros Hraise. by apply max_by_key_IndexError in Hraise.
Qed.

Lemma max_n_player_never_raises e : never_raises e (Rule.max_n_player self).
Proof. by intros w. Qed.

Lemma max_n_plain_no_IndexError depth :
  never_raises IndexError (Rule.max_n_plain gt depth self).
Proof.
  destruct ops_ok as (Hlegal & Hexec & Hundo & Hutil).
  induction depth as [|depth IH]; cbn [Rule.max_n_plain].
  - apply never_raises_bind; [apply max_n_player_never_raises|]. intros w player w' _.
    apply never_raises_bind; [apply Hlegal|]. intros w1 legal w2 _. apply Hutil.
  - apply never_raises_bind; [apply max_n_player_never_raises|]. intros w player w' _.
    apply never_raises_bind; [apply Hlegal|]. intros w1 legal w2 _.
    destruct legal as [|move rest]; [apply Hutil|].
    apply never_raises_bind.
    + apply never_raises_map_each. intros x.
      apply never_raises_bind; [apply Hexec|]. intros ? ? ? _.
      apply never_raises_bind; [apply IH|]. intros ? ? ? _.
      apply never_raises_bind; [apply Hundo|]. by intros.
    + intros w3 utilities w4 Hloop. apply lift_max_by_key_nonempty.
      apply map_each_length in Hloop. by destruct utilities.
Qed.

Lemma evaluate_no_IndexError k player m :
  never_raises IndexError (Rule.evaluate gt k self player m).
Proof.
  destruct ops_ok as (Hlegal & Hexec & Hundo & Hutil).
  unfold Rule.evaluate.
  apply never_raises_bind; [apply Hexec|]. intros ? ? ? _.
  apply never_raises_bind; [apply max_n_plain_no_IndexError|]. intros ? u ? _.
  apply never_raises_bind.
  - intros ?. unfold lift_result, getitem. simpl. by destruct (u !! player).
  - intros ? ? ? _. apply never_raises_bind; [apply Hundo|]. by intros.
Qed.

Lemma prune_no_IndexError (rng : random_source M) width temp k player legal :
  (forall n population w, sample rng n population w <> inl IndexError) ->
  never_raises IndexError (Rule.prune gt lt rng width temp k self player legal).
Proof.
  intros Hsample.
  destruct ops_ok as (Hlegal & Hexec & Hundo & Hutil).
  unfold Rule.prune.
  destruct (Rule.width_active width (length legal)); [|by intros ?].
  apply never_raises_bind; [by intros ?|]. intros ? n ? _.
  destruct (Qltb temp (random rng n)).
  - apply never_raises_on_fst. unfold Rule.heuristic_prune.
    apply never_raises_bind; [|by intros].
    apply never_raises_map_each. intros m. apply evaluate_no_IndexError.
  - apply never_raises_bind; [by apply never_raises_on_fst|]. intros ? population ? _.
    apply never_raises_bind; [by intros ?|]. intros ? n' ? _.
    unfold lift_result. simpl. apply Hsample.
Qed.

Lemma max_n_no_IndexError (rng : random_source M) depth : forall width temp k,
  (forall n population w, sample rng n population w <> inl IndexError) ->
  never_raises IndexError (Rule.max_n gt lt rng depth width temp k self).
Proof.
  destruct ops_ok as (Hlegal & Hexec & Hundo & Hutil).
  induction depth as [|depth IH]; intros width temp k Hsample; cbn [Rule.max_n].
  - apply never_raises_bind;
      [apply never_raises_on_fst, max_n_player_never_raises|]. intros ? player ? _.
    apply never_raises_bind; [by apply never_raises_on_fst|]. intros ? legal ? _.
    apply never_raises_bind; [by apply prune_no_IndexError|]. intros ? legal' ? _.
    by apply never_raises_on_fst.
  - apply never_raises_bind;
      [apply never_raises_on_fst, max_n_player_never_raises|]. intros ? player ? _.
    apply never_raises_bind; [by apply never_raises_on_fst|]. intros ? legal ? _.
    apply never_raises_bind; [by apply prune_no_IndexError|]. intros ? legal' ? _.
    destruct legal' as [|move rest]; [by apply never_raises_on_fst|].
    apply never_raises_bind.
    + apply never_raises_map_each. intros x.
      apply never_raises_bind; [by apply never_raises_on_fst|]. intros ? ? ? _.
      apply never_raises_bind; [by apply IH|]. intros ? ? ? _.
      apply never_raises_bind; [by apply never_raises_on_fst|]. by intros.
    + intros ? utilities ? Hloop. apply lift_max_by_key_nonempty.
      apply map_each_length in Hloop. by destruct utilities.
Qed.
End NoIndexError.

(** The claim that the selection returns an element of every non-empty
    list fails on a dictionary without the key: [dictionary[key]] raises
    [KeyError]. *)
Lemma selection_raises_on_missing_key :
  ~ (forall (key : string) (dictionaries : list (gmap string Q)),
        dictionaries <> [] ->
        exists d, max_by_key Qgtb key dictionaries = inr d /\ d ∈ dictionaries).
Proof.
  intros Hclaim.
  destruct (Hclaim "A" [∅]) as (d & Hd & _); [discriminate|].
  vm_compute in Hd. discriminate.
Qed.

(** C10 (amended). The selection is defined for a non-empty list of
    dictionaries that all contain the key: it then returns an element of
    the list; on the empty list it raises [IndexError].  Consequently
    [RuleSum.get_utility] raises [IndexError] when the aggregate owns no
    sibling sub-rule, and the n-max recursion never raises [IndexError]
    unless an operation of the rule or [sample] does: it applies the
    selection to as many vectors as there are legal moves, and only when
    there is at least one. *)
Theorem selection_defined_on_nonempty_keyed_lists {R W M K V : Type}
    `{Countable K} `{!Rule.Ops R W M K V} (gt lt : V -> V -> bool) :
  (forall (key : K) (dictionaries : list (gmap K V)),
      dictionaries <> [] ->
      Forall (fun d => is_Some (d !! key)) dictionaries ->
      exists d, max_by_key gt key dictionaries = inr d
                /\ dictionary_max gt key dictionaries = inr d
                /\ d ∈ dictionaries)
  /\ (forall key : K,
      max_by_key gt key [] = inl IndexError
      /\ dictionary_max gt key [] = inl IndexError)
  /\ (forall (player : K) (w : W),
      RuleSum.get_utility gt {| RuleSum.player := player; RuleSum.sub_rule := [] |} w
      = (inl IndexError, w))
  /\ (forall (rng : random_source M) (self : R) depth width temp k,
      Rule.ops_never_raise IndexError self ->
      (forall n population w, sample rng n population w <> inl IndexError) ->
      never_raises IndexError (Rule.max_n gt lt rng depth width temp k self)).
Proof.
  repeat split.
  - intros key ds Hne Hall.
    destruct ds as [|d0 ds]; [done|].
    destruct (max_by_key_loop_defined gt key (d0 :: ds) d0) as [d Hd];
      [by inversion Hall | exact Hall |].
    exists d. split; [exact Hd|]. split.
    + etransitivity; [apply dictionary_max_max_by_key | exact Hd].
    + apply max_by_key_loop_elem in Hd as [->|Hin]; [left | exact Hin].
  - intros. by apply max_n_no_IndexError.
Qed.

(** The search of [ThreeMoves], whose operations raise nothing. *)
Lemma selection_defined_on_nonempty_keyed_lists_witness :
  fst (Rule.max_n (Ops0 := ThreeMoves.ops) Qgtb Qltb ThreeMoves.low 2 (Some 2)
         1 1 tt (0%nat, 0%nat)) <> inl IndexError.
Proof.
  destruct (selection_defined_on_nonempty_keyed_lists (H0 := ThreeMoves.ops)
              Qgtb Qltb) as (_ & _ & _ & Hsearch).
  apply (Hsearch ThreeMoves.low tt 2%nat (Some 2) 1%Q 1%nat).
  - repeat split; repeat intros ?; discriminate.
  - intros n population w. discriminate.
Defined.

(** ** Pattern expansion *)

Section ExpandFuel.
Context {P F Sh : Type} (pol : policies P F Sh).
Variables (shape : Sh) (self : rule P F Sh) (w : world P F Sh).

(** A loop that finished within [fuel] passes finishes with the same list
    under any larger bound. *)
Lemma expand_more_fuel fuel : forall edge checked legal r,
  PatternRule.expand pol shape self w fuel edge checked legal = inr r ->
  PatternRule.expand pol shape self w (S fuel) edge checked legal = inr r.
Proof.
  induction fuel as [|fuel IH]; intros edge checked legal r.
  - destruct edge; [done | discriminate].
  - destruct edge as [|c edge]; [done|].
    cbn [PatternRule.expand].
    destruct (fold_left _ _ _) as [[legal' checked'] new_edge].
    apply IH.
Qed.

Lemma expand_fuel_le fuel fuel' edge checked legal r :
  (fuel <= fuel')%nat ->
  PatternRule.expand pol shape self w fuel edge checked legal = inr r ->
  PatternRule.expand pol shape self w fuel' edge checked legal = inr r.
Proof.
  induction 1 as [|fuel' _ IH]; [done|].
  intros Hr. by apply expand_more_fuel, IH.
Qed.
End ExpandFuel.

(** The enumeration of the lone piece is the frontier loop started on the
    neighbours of (4,4), with nothing contributed by the [Tile]. *)
Lemma lone_piece_get_legal_moves (lo : Z) (registered : bool) (fuel : nat) :
  let w := Board.lone_piece registered in
  let self := PatternRule (Some "A") Board.AxisStep (Tile (Some "A") [4; 4]) in
  Piece.get_legal_moves (Board.board_policies lo) fuel (0, 0)%nat w
  = (PatternRule.expand (Board.board_policies lo) Board.AxisStep self w fuel
       (get_step (Board.board_policies lo) Board.AxisStep self w [4; 4]) [] [], w).
Proof. reflexivity. Qed.

(** Nine passes of the loop reach every cell. *)
Lemma lone_piece_nine_passes (one_based registered : bool) :
  let lo := if one_based then 1 else 0 in
  exists legal,
    Piece.get_legal_moves (Board.board_policies lo) 9 (0, 0)%nat
      (Board.lone_piece registered) = (inr legal, Board.lone_piece registered)
    /\ Forall (fun m => exists c, m = Step c [4; 4]) legal
    /\ Permutation (omap Board.destination legal) (Board.all_cells lo).
Proof.
  destruct one_based, registered; eexists;
    (split; [vm_compute; reflexivity|]); split.
  - repeat (constructor; [eexists; reflexivity|]); constructor.
  - apply (bool_decide_unpack _). vm_compute. exact I.
  - repeat (constructor; [eexists; reflexivity|]); constructor.
  - apply (bool_decide_unpack _). vm_compute. exact I.
  - repeat (constructor; [eexists; reflexivity|]); constructor.
  - apply (bool_decide_unpack _). vm_compute. exact I.
  - repeat (constructor; [eexists; reflexivity|]); constructor.
  - apply (bool_decide_unpack _). vm_compute. exact I.
Qed.

(** With fewer passes the loop has not finished. *)
Lemma lone_piece_needs_nine_passes (one_based registered : bool) (fuel : nat) :
  (fuel < 9)%nat ->
  fst (Piece.get_legal_moves (Board.board_policies (if one_based then 1 else 0))
         fuel (0, 0)%nat (Board.lone_piece registered)) = inl OutOfFuel.
Proof.
  intros Hfuel.
  do 9 (destruct fuel as [|fuel];
        [destruct one_based, registered; vm_compute; reflexivity|]).
  lia.
Qed.

Lemma all_cells_NoDup (one_based : bool) :
  NoDup (Board.all_cells (if one_based then 1 else 0))
  /\ length (Board.all_cells (if one_based then 1 else 0)) = 64%nat.
Proof.
  destruct one_based; (split; [|reflexivity]);
    apply (bool_decide_unpack _); vm_compute; exact I.
Qed.

(** Nine passes suffice: a larger bound changes nothing. *)
Lemma lone_piece_enough_fuel (lo : Z) (registered : bool) (fuel : nat)
    (legal : list move) :
  (9 <= fuel)%nat ->
  Piece.get_legal_moves (Board.board_policies lo) 9 (0, 0)%nat
    (Board.lone_piece registered) = (inr legal, Board.lone_piece registered) ->
  Piece.get_legal_moves (Board.board_policies lo) fuel (0, 0)%nat
    (Board.lone_piece registered) = (inr legal, Board.lone_piece registered).
Proof.
  intros Hfuel Hrun.
  rewrite lone_piece_get_legal_moves in *. f_equal.
  injection Hrun as Hrun. by apply expand_fuel_le with 9%nat.
Qed.

(** C4 (amended). The pattern-expansion rule whose step function yields the
    four axis-aligned unit neighbours, with [stops_on] "square occupied"
    and [skips] constantly false, on an otherwise empty 8x8 board at (4,4)
    with a sub-rule contributing no moves: once the loop is given the nine
    passes it needs, it enumerates exactly 64 moves, all from (4,4), whose
    destinations are the 64 cells of the board, each exactly once, the
    off-axis cell (3,3) and the starting cell (4,4) among them.  This holds
    with rows and columns numbered from 0 or from 1, and whether or not the
    piece itself is among the active top rules. *)
Theorem pattern_expansion_floods_the_board (one_based registered : bool)
    (fuel : nat) :
  (9 <= fuel)%nat ->
  let lo := if one_based then 1 else 0 in
  exists legal,
    Piece.get_legal_moves (Board.board_policies lo) fuel (0, 0)%nat
      (Board.lone_piece registered) = (inr legal, Board.lone_piece registered)
    /\ Forall (fun m => exists c, m = Step c [4; 4]) legal
    /\ Permutation (omap Board.destination legal) (Board.all_cells lo)
    /\ NoDup (omap Board.destination legal)
    /\ length legal = 64%nat
    /\ Step [3; 3] [4; 4] ∈ legal
    /\ Step [4; 4] [4; 4] ∈ legal.
Proof.
  intros Hfuel lo.
  destruct (lone_piece_nine_passes one_based registered)
    as (legal & Hrun & Hsteps & Hperm).
  fold lo in Hrun, Hperm.
  destruct (all_cells_NoDup one_based) as [Hnodup Hlen]. fold lo in Hnodup, Hlen.
  assert (forall c, c ∈ Board.all_cells lo -> Step c [4; 4] ∈ legal) as Hcell.
  { intros c Hc. rewrite <- Hperm in Hc.
    apply list_elem_of_omap in Hc as (m & Hm & Hdest).
    rewrite Forall_forall in Hsteps.
    destruct (Hsteps m Hm) as [c' ->]. simpl in Hdest. by injection Hdest as ->. }
  exists legal. repeat split.
  - by apply lone_piece_enough_fuel.
  - exact Hsteps.
  - exact Hperm.
  - by rewrite Hperm.
  - rewrite <- Hlen, <- Hperm.
    clear -Hsteps. induction Hsteps as [|m ms [c ->] _ IH]; simpl; [done | by f_equal].
  - apply Hcell. subst lo. destruct one_based;
      apply (bool_decide_unpack _); vm_compute; exact I.
  - apply Hcell. subst lo. destruct one_based;
      apply (bool_decide_unpack _); vm_compute; exact I.
Qed.

Lemma pattern_expansion_floods_the_board_witness :
  exists legal,
    Piece.get_legal_moves (Board.board_policies 0) 9 (0, 0)%nat
      (Board.lone_piece true) = (inr legal, Board.lone_piece true)
    /\ length legal = 64%nat.
Proof.
  destruct (pattern_expansion_floods_the_board false true 9 (le_n 9))
    as (legal & Hrun & _ & _ & _ & Hlen & _).
  exists legal. split; [exact Hrun | exact Hlen].
Defined.

(** The enumeration is not the 14 cells of row 4 and column 4, whatever
    bound the loop is given, however rows and columns are numbered, and
    whether or not the piece itself is registered. *)
Lemma pattern_expansion_is_not_row_and_column :
  ~ (exists (one_based registered : bool) (fuel : nat) (legal : list move),
        let lo := if one_based then 1 else 0 in
        Piece.get_legal_moves (Board.board_policies lo) fuel (0, 0)%nat
          (Board.lone_piece registered) = (inr legal, Board.lone_piece registered)
        /\ Permutation (omap Board.destination legal) (Board.row_and_column lo)).
Proof.
  intros (one_based & registered & fuel & legal & Hrun & Hperm).
  destruct (Nat.lt_ge_cases fuel 9) as [Hlt|Hge].
  - pose proof (lone_piece_needs_nine_passes one_based registered fuel Hlt) as Hout.
    rewrite Hrun in Hout. discriminate.
  - destruct (lone_piece_nine_passes one_based registered)
      as (legal' & Hrun' & _ & Hperm').
    apply (lone_piece_enough_fuel _ _ fuel) in Hrun'; [|exact Hge].
    cbn zeta in Hrun. rewrite Hrun in Hrun'. injection Hrun' as <-.
    rewrite Hperm in Hperm'. apply Permutation_length in Hperm'.
    destruct one_based; vm_compute in Hperm'; discriminate.
Qed.

(** A step function that follows the ray away from the rule's coordinate
    does enumerate the row and the column: the 14 cells, each once. *)
Lemma ray_expansion_is_row_and_column (one_based registered : bool) (fuel : nat) :
  (4 <= fuel)%nat ->
  let lo := if one_based then 1 else 0 in
  exists legal,
    Piece.get_legal_moves (Board.board_policies lo) fuel (0, 0)%nat
      (Board.lone_ray_piece registered)
    = (inr legal, Board.lone_ray_piece registered)
    /\ Permutation (omap Board.destination legal) (Board.row_and_column lo).
Proof.
  intros Hfuel lo.
  assert (exists legal,
    Piece.get_legal_moves (Board.board_policies lo) 4 (0, 0)%nat
      (Board.lone_ray_piece registered)
    = (inr legal, Board.lone_ray_piece registered)
    /\ Permutation (omap Board.destination legal) (Board.row_and_column lo))
    as (legal & Hrun & Hperm).
  { subst lo. destruct one_based, registered; eexists;
      (split; [vm_compute; reflexivity|]);
      apply (bool_decide_unpack _); vm_compute; exact I. }
  exists legal. split; [|exact Hperm].
  change (Piece.get_legal_moves (Board.board_policies lo) fuel (0, 0)%nat
            (Board.lone_ray_piece registered))
    with (PatternRule.expand (Board.board_policies lo) Board.AxisRay
            (PatternRule (Some "A") Board.AxisRay (Tile (Some "A") [4; 4]))
            (Board.lone_ray_piece registered) fuel
            (get_step (Board.board_policies lo) Board.AxisRay
               (PatternRule (Some "A") Board.AxisRay (Tile (Some "A") [4; 4]))
               (Board.lone_ray_piece registered) [4; 4]) [] [],
          Board.lone_ray_piece registered).
  f_equal. injection Hrun as Hrun. by apply expand_fuel_le with 4%nat.
Qed.

(** ** Capture *)

Section CaptureFacts.
Context {P F Sh : Type} (pol : policies P F Sh).
Implicit Types (w : world P F Sh) (r x : rule P F Sh) (m : move).

Lemma get_piece_drop r : forall d x,
  get_piece r !! d = Some x -> drop d (get_piece r) = get_piece x.
Proof.
  induction r as [p cs|p sh sub IH|p radar sub IH|p radar sub IH];
    intros [|d] x Hx; simpl in *;
    try (injection Hx as <-; reflexivity); try discriminate;
    by apply IH.
Qed.

Lemma get_piece_next r d x :
  get_piece r !! d = Some x -> get_piece r !! S d = get_piece x !! 1%nat.
Proof.
  intros Hx. rewrite <- (get_piece_drop r d x Hx), lookup_drop.
  f_equal. lia.
Qed.

Lemma get_piece_set_coords cs r :
  get_piece (set_coords cs r) = set_coords cs <$> get_piece r.
Proof. induction r; simpl; by f_equal. Qed.

Lemma get_coords_set_coords cs r : get_coords (set_coords cs r) = cs.
Proof. unfold get_coords. induction r; simpl; auto. Qed.

Lemma set_coords_twice cs cs' r :
  set_coords cs (set_coords cs' r) = set_coords cs r.
Proof. induction r; simpl; by f_equal. Qed.

Lemma rule_at_moved w i d cs :
  rule_at (with_pieces (alter (set_coords cs) i) w) (i, d)
  = set_coords cs <$> rule_at w (i, d).
Proof.
  unfold rule_at. simpl. rewrite lookup_alter_eq.
  destruct (pieces w !! i) as [top|]; simpl; [|reflexivity].
  by rewrite get_piece_set_coords, list_lookup_fmap.
Qed.

Lemma rule_at_pieces w i d x :
  rule_at w (i, d) = Some x -> exists top, pieces w !! i = Some top.
Proof. unfold rule_at. simpl. destruct (pieces w !! i); [eauto | discriminate]. Qed.

(** A pair of coordinates executed on a [Tile] or a [CoordinateRule] moves
    the piece and leaves the registry alone. *)
Lemma coordinate_execute_step w self x new old :
  rule_at w self = Some x ->
  coordinate_class x = true ->
  exists lg,
    Piece.execute_move (Step new old) self w
    = (inr tt, {| pieces := alter (set_coords new) (fst self) (pieces w);
                  top_rules := top_rules w; log := lg |}).
Proof.
  intros Hx Hclass. destruct self as [i d].
  destruct (rule_at_pieces w i d x Hx) as [top Htop].
  cbn [Piece.execute_move]. rewrite Hx.
  destruct x; try discriminate.
  - eexists. reflexivity.
  - unfold CoordinateRule.execute_move, bind, get_state, bottom_ref.
    cbn [fst snd]. rewrite Htop. eexists. reflexivity.
Qed.

Lemma coordinate_undo_step w self x new old :
  rule_at w self = Some x ->
  coordinate_class x = true ->
  exists lg,
    Piece.undo_move (Step new old) self w
    = (inr tt, {| pieces := alter (set_coords old) (fst self) (pieces w);
                  top_rules := top_rules w; log := lg |}).
Proof.
  intros Hx Hclass. destruct self as [i d].
  destruct (rule_at_pieces w i d x Hx) as [top Htop].
  cbn [Piece.undo_move]. rewrite Hx.
  destruct x; try discriminate.
  - eexists. reflexivity.
  - unfold CoordinateRule.undo_move, bind, get_state, bottom_ref.
    cbn [fst snd]. rewrite Htop. eexists. reflexivity.
Qed.

Lemma filter_none {A} (Q : A -> Prop) `{!forall a, Decision (Q a)} (l : list A) :
  (forall b, b ∈ l -> ~ Q b) -> filter Q l = [].
Proof.
  induction l as [|y l IH]; intros Hno; [reflexivity|].
  rewrite filter_cons_False by (apply Hno; left).
  apply IH. intros b Hb. apply Hno. by right.
Qed.

Lemma filter_unique {A} (Q : A -> Prop) `{!forall a, Decision (Q a)} (l : list A) (a : A) :
  NoDup l -> a ∈ l -> Q a -> (forall b, b ∈ l -> Q b -> b = a) ->
  filter Q l = [a].
Proof.
  intros Hnd. induction Hnd as [|y l Hy Hnd IH]; intros Ha HQa Huniq.
  - by apply elem_of_nil in Ha.
  - apply elem_of_cons in Ha as [<-|Ha].
    + rewrite filter_cons_True by done. f_equal.
      apply filter_none. intros b Hb HQb.
      apply Hy. rewrite <- (Huniq b); [exact Hb | by right | exact HQb].
    + rewrite filter_cons_False.
      * apply IH; [exact Ha | exact HQa |]. intros b Hb. apply Huniq. by right.
      * intros HQy. apply Hy. rewrite (Huniq y); [exact Ha | left | exact HQy].
Qed.

(** C2. A capturing rule [SimpleCapture] over a coordinate rule, and exactly
    one active piece [opp] on its radar whose bottom coordinate is the
    destination [dest] of a move of the sub-rule.  The generated move
    carries the capture list [[opp]] and no other.  [execute_move] first
    removes [opp] from the registry, so that the positional change runs
    with [opp] already absent, and [opp] is absent from [get_top_rules]
    afterwards.  [undo_move] first delegates the sub-rule's undo, with
    [opp] still absent, then adds [opp] back: it is active again, on the
    radar again, and it is the object it was before the move.
    The order shows whatever is delegated: [execute_move] runs any
    delegated move in the state without [opp], [undo_move] runs any
    delegated undo before [opp] is added.  So when the delegated call
    raises, as for a move that names the capture rule itself as the rule
    to move and hands it a pair of coordinates, [execute_move] stops with
    [opp] already removed and [undo_move] stops with [opp] not yet added
    back. *)
Theorem capture_removes_and_restores (w : world P F Sh) (fuel : nat)
    (mover depth opp : pid) (player : option P) (radar : list F)
    (sub : rule P F Sh) (sub_moves : list move) (dest old : coords) :
  let self := (mover, depth) in
  let sub_rule := (mover, S depth) in
  let m := Via sub_rule (Step dest old) [opp] in
  rule_at w self = Some (SimpleCapture player radar sub) ->
  coordinate_class sub = true ->
  Piece.generate_legal_moves pol fuel mover (S depth) sub w = inr sub_moves ->
  Step dest old ∈ sub_moves ->
  NoDup (top_rules w) ->
  opp ∈ GameState.get_top_rules pol radar w ->
  (get_coords <$> pieces w !! opp) = Some dest ->
  (forall q, q ∈ GameState.get_top_rules pol radar w ->
             (get_coords <$> pieces w !! q) = Some dest -> q = opp) ->
  opp <> mover ->
  (exists legal,
      Piece.get_legal_moves pol fuel self w = (inr legal, w)
      /\ (m ∈ legal)
      /\ forall captured, Via sub_rule (Step dest old) captured ∈ legal ->
                          captured = [opp])
  /\ (exists w0 w1,
        GameState.remove_rules opp w = (inr tt, w0)
        /\ (opp ∉ top_rules w0)
        /\ Piece.execute_move m self w
           = (Piece.execute_move (Step dest old) sub_rule ;;; changed self m false) w0
        /\ Piece.execute_move m self w = (inr tt, w1)
        /\ (opp ∉ top_rules w1)
        /\ (forall filters, opp ∉ GameState.get_top_rules pol filters w1)
        /\ (get_coords <$> pieces w1 !! mover) = Some dest
        /\ exists w_mid w2,
             Piece.undo_move (Step dest old) sub_rule w1 = (inr tt, w_mid)
             /\ (opp ∉ top_rules w_mid)
             /\ Piece.undo_move m self w1
                = (GameState.add_rules opp ;;; changed self m true) w_mid
             /\ Piece.undo_move m self w1 = (inr tt, w2)
             /\ (opp ∈ top_rules w2)
             /\ (opp ∈ GameState.get_top_rules pol radar w2)
             /\ pieces w2 !! opp = pieces w !! opp
             /\ (get_coords <$> pieces w2 !! mover) = Some old
             /\ (forall delegate : prog (world P F Sh) unit,
                   CaptureRule.execute_move self m [opp] delegate w
                   = (delegate ;;; changed self m false) w0)
             /\ (forall delegate : prog (world P F Sh) unit,
                   CaptureRule.undo_move self m [opp] delegate w1
                   = (delegate ;;; GameState.add_rules opp ;;; changed self m true) w1)
             /\ Piece.execute_move (Via self (Step dest old) [opp]) self w
                = (inl AttributeError, w0)
             /\ Piece.undo_move (Via self (Step dest old) [opp]) self w1
                = (inl AttributeError, w1)
             /\ Piece.execute_move (Via self (Step dest old) [opp]) self w
                <> (inl AttributeError, w)).
Proof.
  intros self sub_rule m Hself Hclass Hsub Hstep Hnodup Hopp Hat Huniq Hne.
  assert (SimpleCapture.to_capture pol radar w dest = [opp]) as Hcap.
  { unfold SimpleCapture.to_capture. apply filter_unique; try done.
    unfold GameState.get_top_rules. by apply NoDup_filter. }
  split.
  - exists (SimpleCapture.generate_legal_moves pol sub_rule radar w sub_moves).
    split; [|split].
    + unfold Piece.get_legal_moves. rewrite Hself. subst self sub_rule.
      cbn [fst snd Piece.generate_legal_moves]. by rewrite Hsub.
    + unfold SimpleCapture.generate_legal_moves.
      apply list_elem_of_fmap. exists (Step dest old). split; [|exact Hstep].
      simpl. by rewrite Hcap.
    + intros captured Hin. unfold SimpleCapture.generate_legal_moves in Hin.
      apply list_elem_of_fmap in Hin as (sm & Heq & _).
      destruct sm as [new' old'|r' m' caps']; simpl in Heq.
      * injection Heq as <- <- ->. exact Hcap.
      * discriminate.
  - assert (rule_at w sub_rule = Some sub) as Hsub_at.
    { unfold rule_at in *. subst self sub_rule. cbn [fst snd] in *.
      destruct (pieces w !! mover) as [top|]; [|discriminate].
      rewrite (get_piece_next _ _ _ Hself). by destruct sub. }
    set (w0 := with_top_rules (filter (fun q => q <> opp)) w).
    assert (opp ∉ top_rules w0) as Hgone.
    { simpl. intros Hin. apply list_elem_of_filter in Hin as [Hq _]. by apply Hq. }
    destruct (coordinate_execute_step w0 sub_rule sub dest old Hsub_at Hclass)
      as [lg1 Hexec].
    set (w1' := {| pieces := alter (set_coords dest) mover (pieces w);
                   top_rules := top_rules w0; log := lg1 |}) in *.
    set (w1 := snd (changed self m false w1')).
    assert (Piece.execute_move m self w
            = (Piece.execute_move (Step dest old) sub_rule ;;; changed self m false) w0)
      as Hdecomp.
    { subst m. cbn [Piece.execute_move]. rewrite Hself. reflexivity. }
    assert (Piece.execute_move m self w = (inr tt, w1)) as Hrun.
    { rewrite Hdecomp. unfold bind at 1. rewrite Hexec. reflexivity. }
    assert (rule_at w1 self = Some (SimpleCapture player radar (set_coords dest sub)))
      as Hself1.
    { change (rule_at w1 self) with
        (rule_at (with_pieces (alter (set_coords dest) mover) w) (mover, depth)).
      rewrite rule_at_moved. fold self. by rewrite Hself. }
    assert (rule_at w1 sub_rule = Some (set_coords dest sub)) as Hsub1.
    { change (rule_at w1 sub_rule) with
        (rule_at (with_pieces (alter (set_coords dest) mover) w) (mover, S depth)).
      rewrite rule_at_moved. fold sub_rule. by rewrite Hsub_at. }
    assert (coordinate_class (set_coords dest sub) = true) as Hclass1
      by (by destruct sub).
    destruct (coordinate_undo_step w1 sub_rule _ dest old Hsub1 Hclass1)
      as [lg2 Hundo].
    set (w_mid := {| pieces := alter (set_coords old) mover (pieces w1);
                     top_rules := top_rules w1; log := lg2 |}) in *.
    set (w2 := snd ((GameState.add_rules opp ;;; changed self m true) w_mid)).
    assert (Piece.undo_move m self w1
            = (GameState.add_rules opp ;;; changed self m true) w_mid) as Hdecomp2.
    { transitivity (CaptureRule.undo_move self m [opp]
                      (Piece.undo_move (Step dest old) sub_rule) w1).
      - subst m. cbn [Piece.undo_move]. rewrite Hself1. reflexivity.
      - unfold CaptureRule.undo_move. unfold bind at 1. rewrite Hundo.
        reflexivity. }
    destruct (rule_at_pieces w mover depth _ Hself) as [top Htop].
    exists w0, w1. repeat split; try assumption.
    + intros filters Hin. unfold GameState.get_top_rules in Hin.
      apply list_elem_of_filter in Hin as [_ Hin]. by apply Hgone.
    + simpl. rewrite lookup_alter_eq, Htop. simpl.
      by rewrite get_coords_set_coords.
    + exists w_mid, w2.
      split; [exact Hundo|]. split; [exact Hgone|]. split; [exact Hdecomp2|].
      split; [by rewrite Hdecomp2|].
      split; [simpl; apply elem_of_app; right; left|].
      assert (Piece.execute_move (Via self (Step dest old) [opp]) self w
              = (inl AttributeError, w0)) as Hstuck.
      { cbn [Piece.execute_move]. rewrite Hself.
        unfold CaptureRule.execute_move. cbn [for_each]. unfold bind at 1 2.
        unfold GameState.remove_rules, modify. fold w0. unfold ret, bind.
        cbn [Piece.execute_move].
        replace (rule_at w0 self) with (rule_at w self) by reflexivity.
        by rewrite Hself. }
      split; [|split; [|split; [|split; [|split; [|split; [|split]]]]]].
      * unfold GameState.get_top_rules. apply list_elem_of_filter. split.
        -- unfold GameState.get_top_rules in Hopp.
           apply list_elem_of_filter in Hopp as [Hm _].
           unfold GameState.matches in *. simpl.
           rewrite !lookup_alter_ne by done. exact Hm.
        -- simpl. apply elem_of_app. right. left.
      * simpl. by rewrite !lookup_alter_ne by done.
      * simpl. rewrite !lookup_alter_eq, Htop. simpl.
        by rewrite get_coords_set_coords.
      * intros delegate. unfold CaptureRule.execute_move. cbn [for_each].
        unfold bind at 1 2. unfold GameState.remove_rules, modify. fold w0.
        reflexivity.
      * intros delegate. unfold CaptureRule.undo_move. cbn [for_each].
        unfold bind. destruct (delegate w1) as [[e|[]] w']; reflexivity.
      * exact Hstuck.
      * cbn [Piece.undo_move]. rewrite Hself1.
        unfold CaptureRule.undo_move. unfold bind at 1.
        cbn [Piece.undo_move]. by rewrite Hself1.
      * rewrite Hstuck. intros [= Hsame].
        apply Hgone. rewrite Hsame.
        unfold GameState.get_top_rules in Hopp.
        by apply list_elem_of_filter in Hopp as [_ Hin].
Qed.
End CaptureFacts.

(** The capturing piece of [Board.capture_position] takes the piece on
    (1,0); handed a move that names itself as the rule to move, it stops
    with that piece already out of the registry. *)
Lemma capture_removes_and_restores_witness :
  let m := Via (0, 1)%nat (Step [1; 0] [0; 0]) [1%nat] in
  let stuck := Via (0, 0)%nat (Step [1; 0] [0; 0]) [1%nat] in
  exists w0 w1,
    Piece.execute_move m (0, 0)%nat Board.capture_position = (inr tt, w1)
    /\ (1%nat ∉ top_rules w1)
    /\ Piece.execute_move stuck (0, 0)%nat Board.capture_position
       = (inl AttributeError, w0)
    /\ (1%nat ∉ top_rules w0)
    /\ Piece.undo_move stuck (0, 0)%nat w1 = (inl AttributeError, w1).
Proof.
  intros m stuck.
  destruct (capture_removes_and_restores (Board.board_policies 0)
              Board.capture_position 3 0 0 1 (Some "A") [tt]
              (PatternRule (Some "A") Board.OneRight (Tile (Some "A") [0; 0]))
              [Step [1; 0] [0; 0]] [1; 0] [0; 0])
    as (_ & w0 & w1 & _ & Hgone0 & _ & Hrun & Hgone & _ & _ & w_mid & w2
        & _ & _ & _ & _ & _ & _ & _ & _ & _ & _ & Hstuck & Hstuck_undo & _).
  - reflexivity.
  - reflexivity.
  - reflexivity.
  - left.
  - apply (bool_decide_unpack _). vm_compute. exact I.
  - apply (bool_decide_unpack _). vm_compute. exact I.
  - reflexivity.
  - intros q Hq Hcoords.
    change (GameState.get_top_rules (Board.board_policies 0) [tt]
              Board.capture_position) with [0%nat; 1%nat] in Hq.
    apply elem_of_cons in Hq as [->|Hq].
    + vm_compute in Hcoords. discriminate.
    + by apply list_elem_of_singleton in Hq.
  - discriminate.
  - exists w0, w1. by repeat split.
Defined.

(** ** Reversibility *)

Section CoordinateRoundTrip.
Context {P F Sh : Type}.
Implicit Types (w : world P F Sh) (r x : rule P F Sh).

Lemma set_coords_get_coords r : set_coords (get_coords r) r = r.
Proof. unfold get_coords. induction r; simpl in *; by f_equal. Qed.

(** A move [(new, old)] whose second component is the current coordinate,
    executed and undone on a [Tile] or a [CoordinateRule], leaves every
    piece and the registry as they were. *)
Lemma coordinate_round_trip w self x new :
  rule_at w self = Some x ->
  coordinate_class x = true ->
  let old := get_coords x in
  exists w',
    (Piece.execute_move (Step new old) self ;;; Piece.undo_move (Step new old) self) w
    = (inr tt, w')
    /\ pieces w' = pieces w
    /\ top_rules w' = top_rules w.
Proof.
  intros Hx Hclass old. destruct self as [i d].
  destruct (coordinate_execute_step w (i, d) x new old Hx Hclass) as [lg1 Hexec].
  set (w1 := {| pieces := alter (set_coords new) i (pieces w);
                top_rules := top_rules w; log := lg1 |}) in *.
  assert (rule_at w1 (i, d) = Some (set_coords new x)) as Hx1.
  { change (rule_at w1 (i, d)) with
      (rule_at (with_pieces (alter (set_coords new) i) w) (i, d)).
    by rewrite rule_at_moved, Hx. }
  assert (coordinate_class (set_coords new x) = true) as Hclass1 by (by destruct x).
  destruct (coordinate_undo_step w1 (i, d) _ new old Hx1 Hclass1) as [lg2 Hundo].
  eexists. split; [|split].
  - unfold bind. rewrite Hexec. exact Hundo.
  - simpl. destruct (rule_at_pieces w i d x Hx) as [top Htop].
    apply map_eq. intros j. destruct (decide (j = i)) as [->|Hj].
    + rewrite !lookup_alter_eq, Htop. simpl. f_equal.
      rewrite set_coords_twice.
      assert (get_coords top = old) as <-; [|apply set_coords_get_coords].
      unfold rule_at in Hx. simpl in Hx. rewrite Htop in Hx.
      subst old. clear -Hx. revert d Hx.
      induction top; intros [|d] Hx; simpl in Hx;
        try (injection Hx as <-; reflexivity); try discriminate;
        unfold get_coords in *; simpl; eauto.
    + by rewrite !lookup_alter_ne.
  - reflexivity.
Qed.
End CoordinateRoundTrip.

Section SequencerRoundTrip.
Context {R W M K V : Type} `{Countable K} `{!Rule.Ops R W M K V}.

(** When the active sub-rule is the one the turn index designates, and the
    delegated move is undone by the delegated inverse, [execute_move] then
    [undo_move] gives the sequencer and the sub-rules back unchanged. *)
Lemma SimpleTurn_round_trip_consistent (st : SimpleTurn.t R) (w w1 : W) (r : R) (m : M) :
  0 <= SimpleTurn.turn st < Z.of_nat (length (SimpleTurn.sequence st)) ->
  SimpleTurn.sequence st !! Z.to_nat (SimpleTurn.turn st)
    = Some (SimpleTurn.sub_rule st) ->
  Rule.execute_move r m w = (inr tt, w1) ->
  Rule.undo_move r m w1 = (inr tt, w) ->
  (SimpleTurn.execute_move (Some (r, m)) ;;; SimpleTurn.undo_move (Some (r, m))) (st, w)
  = (inr tt, (st, w)).
Proof.
  intros Hrange Hactive Hexec Hundo.
  assert (SimpleTurn.sequence st <> []) as Hne.
  { intros Hnil. rewrite Hnil in Hrange. simpl in Hrange. lia. }
  destruct (execute_move_spec st w (Some (r, m)) Hne) as (r1 & Hr1 & Hrun1).
  cbn zeta in Hrun1. rewrite Hexec in Hrun1. cbn [fst snd] in Hrun1.
  set (N := Z.of_nat (length (SimpleTurn.sequence st))) in *.
  set (st1 := {| SimpleTurn.sequence := SimpleTurn.sequence st;
                 SimpleTurn.turn := (SimpleTurn.turn st + 1) mod N;
                 SimpleTurn.sub_rule := r1 |}) in *.
  destruct (undo_move_spec st1 w1 (Some (r, m)) Hne) as (r2 & Hr2 & Hrun2).
  { cbn zeta. by rewrite Hundo. }
  cbn zeta in Hrun2. rewrite Hundo in Hrun2. cbn [fst snd] in Hrun2.
  unfold bind. rewrite Hrun1, Hrun2.
  subst st1. cbn [SimpleTurn.turn SimpleTurn.sequence] in Hr2 |- *.
  fold N in Hr2 |- *.
  assert (((SimpleTurn.turn st + 1) mod N - 1) mod N = SimpleTurn.turn st) as Hback.
  { rewrite Zminus_mod_idemp_l.
    replace (SimpleTurn.turn st + 1 - 1) with (SimpleTurn.turn st) by lia.
    by apply Z.mod_small. }
  rewrite Hback in Hr2 |- *. rewrite Hactive in Hr2. injection Hr2 as <-.
  by destruct st.
Qed.
End SequencerRoundTrip.

(** C1, at the sequencer built over the two pieces of [Board.two_pieces]
    with [turn=1].  Its only legal move is the move of the first piece;
    executing and undoing it restores every coordinate, but the legal
    moves are then those of the second piece: the round trip leaves the
    active sub-rule at the one index 1 designates, where the constructor
    had set the sub-rule at position 0. *)
Theorem SimpleTurn_round_trip_after_offset_init :
  let ops := Board.piece_ops 5 in
  let st := {| SimpleTurn.sequence := [(0, 0); (1, 0)]%nat; SimpleTurn.turn := 1;
               SimpleTurn.sub_rule := (0, 0)%nat |} in
  let st' := {| SimpleTurn.sequence := [(0, 0); (1, 0)]%nat; SimpleTurn.turn := 1;
                SimpleTurn.sub_rule := (1, 0)%nat |} in
  let move := ((0, 0)%nat, Step [1; 0] [0; 0]) in
  let move' := ((1, 0)%nat, Step [6; 5] [5; 5]) in
  let start := (st, Board.two_pieces) in
  let round_trip :=
    (SimpleTurn.execute_move (H0 := ops) (Some move) ;;;
     SimpleTurn.undo_move (H0 := ops) (Some move)) start in
  SimpleTurn.init [(0, 0); (1, 0)]%nat 1 = inr st
  /\ SimpleTurn.get_legal_moves (H0 := ops) start = (inr [move], start)
  /\ fst round_trip = inr tt
  /\ fst (snd round_trip) = st'
  /\ pieces (snd (snd round_trip)) = pieces Board.two_pieces
  /\ top_rules (snd (snd round_trip)) = top_rules Board.two_pieces
  /\ SimpleTurn.get_legal_moves (H0 := ops) (snd round_trip)
     = (inr [move'], snd round_trip)
  /\ ~ (forall x, x ∈ [move] <-> x ∈ [move']).
Proof.
  repeat split; try (vm_compute; reflexivity).
  intros Hsame.
  assert (((0, 0)%nat, Step [1; 0] [0; 0]) ∈ [((1, 0)%nat, Step [6; 5] [5; 5])]) as Hin.
  { apply Hsame. left. }
  apply list_elem_of_singleton in Hin. discriminate.
Qed.

(** ** The helper [max_n_plain] is [max_n] without a width *)

Lemma on_fst_bind {T W A B} (c : prog T A) (k : A -> prog T B) (s : T * W) :
  on_fst (bind c k) s = bind (on_fst c) (fun a => on_fst (k a)) s.
Proof.
  destruct s as [t w]. unfold on_fst, bind. simpl.
  by destruct (c t) as [[e|a] t'].
Qed.

Lemma bind_ext {S A B} (c : prog S A) (k1 k2 : A -> prog S B) (s : S) :
  (forall a s', k1 a s' = k2 a s') -> bind c k1 s = bind c k2 s.
Proof. intros Hk. unfold bind. destruct (c s) as [[e|a] s']; [done | apply Hk]. Qed.

Lemma bind_cong {S A B} (c1 c2 : prog S A) (k1 k2 : A -> prog S B) (s : S) :
  c1 s = c2 s -> (forall a s', k1 a s' = k2 a s') -> bind c1 k1 s = bind c2 k2 s.
Proof. intros Hc Hk. unfold bind. rewrite Hc. destruct (c2 s) as [[e|a] s']; [done | apply Hk]. Qed.

Lemma map_each_ext {S A B} (f g : A -> prog S B) (xs : list A) :
  (forall x s, f x s = g x s) -> forall s, map_each xs f s = map_each xs g s.
Proof.
  intros Hfg. induction xs as [|x xs IH]; intros s; simpl; [reflexivity|].
  unfold bind at 1 3. rewrite Hfg. destruct (g x s) as [[e|y] s']; [done|].
  unfold bind. by rewrite IH.
Qed.

Lemma on_fst_map_each {T W A B} (f : A -> prog T B) (xs : list A) : forall (s : T * W),
  on_fst (map_each xs f) s = map_each xs (fun x => on_fst (f x)) s.
Proof.
  induction xs as [|x xs IH]; intros s; simpl.
  - by destruct s.
  - rewrite on_fst_bind. apply bind_ext. intros y s'.
    rewrite on_fst_bind. unfold bind. rewrite IH.
    destruct (map_each xs _ s') as [[e|ys] s'']; [done | by destruct s''].
Qed.

Section PlainSearch.
Context {R W M K V : Type} `{Countable K} `{!Rule.Ops R W M K V}.
Variable gt lt : V -> V -> bool.

Lemma max_n_without_width (rng : random_source M) depth : forall temp k self s,
  Rule.max_n gt lt rng depth None temp k self s
  = on_fst (Rule.max_n_plain gt depth self) s.
Proof.
  induction depth as [|depth IH]; intros temp k self s;
    cbn [Rule.max_n Rule.max_n_plain];
    rewrite on_fst_bind; apply bind_ext; intros player s1;
    rewrite on_fst_bind; apply bind_ext; intros legal s2;
    unfold Rule.prune; cbn [Rule.width_active];
    (rewrite (bind_ok _ _ s2 legal s2) by reflexivity).
  - reflexivity.
  - destruct legal as [|move rest]; [reflexivity|].
    rewrite on_fst_bind. apply bind_cong; [|by intros us []].
    rewrite on_fst_map_each. apply map_each_ext. intros x s3.
    rewrite on_fst_bind. apply bind_ext. intros [] s4.
    rewrite on_fst_bind. apply bind_cong; [apply IH|]. intros u s5.
    rewrite on_fst_bind. apply bind_ext. intros [] s6. by destruct s6.
Qed.
End PlainSearch.

(** ** [sorted]: the kept branches are in ascending order of their keys *)

Section SortedByKey.
Context {A V : Type} (lt : V -> V -> bool).
Implicit Types (x y : V * A) (l acc : list (V * A)).

Lemma insert_by_key_perm x l : Permutation (insert_by_key lt x l) (x :: l).
Proof.
  induction l as [|y l IH]; simpl; [reflexivity|].
  destruct (lt (fst x) (fst y)); [reflexivity|].
  rewrite IH. apply perm_swap.
Qed.

Lemma insert_all_perm l : forall acc,
  Permutation (fold_left (fun acc x => insert_by_key lt x acc) l acc) (l ++ acc).
Proof.
  induction l as [|x l IH]; intros acc; simpl; [reflexivity|].
  rewrite IH, insert_by_key_perm. by rewrite Permutation_middle.
Qed.

(** The sorted list is a rearrangement of the list given. *)
Lemma sorted_by_key_permutation l :
  Permutation (sorted_by_key lt l) (map snd l).
Proof.
  unfold sorted_by_key. rewrite insert_all_perm, app_nil_r. reflexivity.
Qed.

Hypothesis lt_asym : forall a b, lt a b = true -> lt b a = false.

Lemma insert_by_key_sorted x l :
  Sorted (ascending lt) l -> Sorted (ascending lt) (insert_by_key lt x l).
Proof.
  induction 1 as [|y l Hsorted IH Hhd]; simpl.
  - repeat constructor.
  - destruct (lt (fst x) (fst y)) eqn:Hxy.
    + constructor; [by constructor|]. constructor. by apply lt_asym.
    + constructor; [exact IH|].
      destruct Hhd as [|z l Hyz]; simpl.
      * by constructor.
      * destruct (lt (fst x) (fst z)); by constructor.
Qed.

(** The keys of the sorted list never decrease. *)
Lemma insert_all_sorted l : forall acc,
  Sorted (ascending lt) acc ->
  Sorted (ascending lt) (fold_left (fun acc x => insert_by_key lt x acc) l acc).
Proof.
  induction l as [|x l IH]; intros acc Hacc; simpl; [exact Hacc|].
  by apply IH, insert_by_key_sorted.
Qed.
End SortedByKey.

(** * Further properties of the code *)

(** ** Selection: what is returned and what is raised *)

Section SelectionMore.
Context `{Countable K} {V : Type}.
Variable gt : V -> V -> bool.
Implicit Types (key : K) (d cur r : gmap K V) (ds seen : list (gmap K V)).

(** The comparison is a strict weak order: [>] is asymmetric, and a value
    above another is above, or the other below, any third. *)
Hypothesis gt_asym : forall a b, gt a b = true -> gt b a = false.
Hypothesis gt_between : forall a b c, gt a c = true -> gt a b = true \/ gt b c = true.

Lemma max_by_key_loop_maximal key ds : forall cur vc seen r,
  cur !! key = Some vc ->
  (forall d, d ∈ seen -> exists vd, d !! key = Some vd /\ gt vd vc = false) ->
  max_by_key_loop gt key cur ds = inr r ->
  exists v, r !! key = Some v
    /\ forall d, d ∈ seen ++ ds -> exists vd, d !! key = Some vd /\ gt vd v = false.
Proof.
  induction ds as [|d ds IH]; intros cur vc seen r Hcur Hseen; simpl.
  - intros [= <-]. exists vc. split; [exact Hcur|].
    intros d Hd. rewrite app_nil_r in Hd. by apply Hseen.
  - unfold getitem. destruct (d !! key) as [x|] eqn:Hd; [|discriminate].
    rewrite Hcur. intros Hloop.
    replace (seen ++ d :: ds) with ((seen ++ [d]) ++ ds) by (by rewrite <- app_assoc).
    destruct (gt x vc) eqn:Hgt.
    + apply (IH d x (seen ++ [d]) r Hd); [|exact Hloop].
      intros d' Hd'. apply elem_of_app in Hd' as [Hd'|Hd'].
      * destruct (Hseen d' Hd') as (vd & Hvd & Hle). exists vd. split; [exact Hvd|].
        destruct (gt vd x) eqn:Hvx; [|reflexivity].
        destruct (gt_between vd vc x Hvx) as [Habove|Hbelow]; [congruence|].
        apply gt_asym in Hbelow. congruence.
      * apply list_elem_of_singleton in Hd' as ->. exists x. split; [exact Hd|].
        destruct (gt x x) eqn:Hxx; [|reflexivity].
        pose proof (gt_asym _ _ Hxx). congruence.
    + apply (IH cur vc (seen ++ [d]) r Hcur); [|exact Hloop].
      intros d' Hd'. apply elem_of_app in Hd' as [Hd'|Hd']; [by apply Hseen|].
      apply list_elem_of_singleton in Hd' as ->. eauto.
Qed.

(** X1. When [max_by_key] (or [dictionary_max]) returns, the dictionary it
    returns is an element of the list, every dictionary of the list has the
    key, and none has a value at the key above the returned one: the value
    at the key is maximized, as the docstring says, provided [>] orders the
    values. *)
Theorem max_by_key_maximizes key ds r :
  max_by_key gt key ds = inr r ->
  dictionary_max gt key ds = inr r
  /\ r ∈ ds
  /\ exists v, r !! key = Some v
       /\ forall d, d ∈ ds -> exists vd, d !! key = Some vd /\ gt vd v = false.
Proof.
  intros Hmax. split; [|split].
  - etransitivity; [apply dictionary_max_max_by_key | exact Hmax].
  - destruct ds as [|d0 ds]; [discriminate|]. unfold max_by_key in Hmax.
    apply max_by_key_loop_elem in Hmax as [->|Hin]; [left | exact Hin].
  - destruct ds as [|d0 ds]; [discriminate|]. unfold max_by_key in Hmax.
    destruct (d0 !! key) as [v0|] eqn:Hd0.
    + apply (max_by_key_loop_maximal key (d0 :: ds) d0 v0 [] r Hd0) in Hmax;
        [exact Hmax|].
      intros d Hd. by apply elem_of_nil in Hd.
    + simpl in Hmax. unfold getitem in Hmax. rewrite Hd0 in Hmax. discriminate.
Qed.
End SelectionMore.

Lemma Qgtb_asym (a b : Q) : Qgtb a b = true -> Qgtb b a = false.
Proof.
  unfold Qgtb, Qltb. intros Hab.
  apply negb_true_iff in Hab. apply negb_false_iff.
  apply Qle_bool_iff. apply Qlt_le_weak. apply Qnot_le_lt.
  intros Hle. apply Qle_bool_iff in Hle. congruence.
Qed.

Lemma Qgtb_between (a b c : Q) :
  Qgtb a c = true -> Qgtb a b = true \/ Qgtb b c = true.
Proof.
  unfold Qgtb, Qltb. intros Hac. apply negb_true_iff in Hac.
  destruct (Qle_bool a b) eqn:Hab; [|by left]. right.
  apply negb_true_iff. destruct (Qle_bool b c) eqn:Hbc; [|reflexivity].
  apply Qle_bool_iff in Hab, Hbc.
  assert (Qle_bool a c = true) as Habs
    by (apply Qle_bool_iff; eapply Qle_trans; eassumption).
  congruence.
Qed.

(** Three vectors; the one with 0.9 for "A" is returned and no value
    exceeds it. *)
Lemma max_by_key_maximizes_witness :
  let low : gmap string Q := {[ "A" := 2 # 10; "B" := 8 # 10 ]} in
  let best : gmap string Q := {[ "A" := 9 # 10; "B" := 1 # 10 ]} in
  let mid : gmap string Q := {[ "A" := 6 # 10; "B" := 4 # 10 ]} in
  best ∈ [low; best; mid]
  /\ dictionary_max Qgtb "A" [low; best; mid] = inr best.
Proof.
  intros low best mid.
  destruct (max_by_key_maximizes Qgtb Qgtb_asym Qgtb_between "A" [low; best; mid] best)
    as (Hdict & Hin & _).
  - reflexivity.
  - split; [exact Hin | exact Hdict].
Defined.

(** X2. The exceptions of [max_by_key] and [dictionary_max]: [IndexError]
    exactly on the empty list, [KeyError] exactly on a non-empty list with a
    dictionary that lacks the key, and nothing else; otherwise a dictionary
    of the list is returned. *)
Theorem max_by_key_exceptions `{Countable K} {V : Type} (gt : V -> V -> bool)
    (key : K) (ds : list (gmap K V)) :
  (max_by_key gt key ds = inl IndexError <-> ds = [])
  /\ (max_by_key gt key ds = inl KeyError <->
      exists d, d ∈ ds /\ d !! key = None)
  /\ (forall e, max_by_key gt key ds = inl e -> e = IndexError \/ e = KeyError)
  /\ ((exists r, max_by_key gt key ds = inr r) <->
      ds <> [] /\ Forall (fun d => is_Some (d !! key)) ds)
  /\ dictionary_max gt key ds = max_by_key gt key ds.
Proof.
  assert (forall (l : list (gmap K V)) cur, is_Some (cur !! key) ->
            max_by_key_loop gt key cur l = inl KeyError ->
            exists d, d ∈ l /\ d !! key = None) as Hloop.
  { induction l as [|d l IH]; intros cur [vc Hcur]; simpl; [discriminate|].
    unfold getitem. destruct (d !! key) as [x|] eqn:Hd.
    - rewrite Hcur. intros Hl.
      destruct (IH (if gt x vc then d else cur)) as (d' & Hin & Hnone);
        [by destruct (gt x vc); eauto | exact Hl |].
      exists d'. split; [by right | exact Hnone].
    - intros _. exists d. split; [left | exact Hd]. }
  split; [apply max_by_key_IndexError|].
  split; [|split; [|split]].
  - split.
    + destruct ds as [|d0 ds]; [discriminate|]. unfold max_by_key. intros Hl.
      destruct (d0 !! key) as [v0|] eqn:Hd0.
      * apply Hloop in Hl; [exact Hl | eauto].
      * exists d0. split; [left | exact Hd0].
    + intros (d & Hin & Hnone).
      destruct (max_by_key gt key ds) as [e|r] eqn:Hmax.
      * destruct ds as [|d0 ds]; [by apply elem_of_nil in Hin|].
        unfold max_by_key in Hmax. apply max_by_key_loop_raises in Hmax. by subst.
      * exfalso. destruct ds as [|d0 ds]; [discriminate|].
        unfold max_by_key in Hmax.
        assert (forall (l : list (gmap K V)) cur r', d ∈ l ->
                  max_by_key_loop gt key cur l = inr r' -> False) as Hno.
        { induction l as [|d' l IH]; intros cur r' Hd; [by apply elem_of_nil in Hd|].
          simpl. unfold getitem. apply elem_of_cons in Hd as [<-|Hd].
          - rewrite Hnone. discriminate.
          - destruct (d' !! key); [|discriminate].
            destruct (cur !! key); [|discriminate]. by apply IH. }
        by apply (Hno (d0 :: ds) d0 r).
  - intros e He. destruct ds as [|d0 ds].
    + left. by injection He as <-.
    + right. unfold max_by_key in He. by apply max_by_key_loop_raises in He.
  - split.
    + intros [r Hr]. destruct ds as [|d0 ds]; [discriminate|]. split; [done|].
      unfold max_by_key in Hr.
      assert (forall (l : list (gmap K V)) cur r',
                max_by_key_loop gt key cur l = inr r' ->
                Forall (fun d => is_Some (d !! key)) l) as Hall.
      { induction l as [|d' l IH]; intros cur r'; [constructor|].
        simpl. unfold getitem. destruct (d' !! key) eqn:Hd'; [|discriminate].
        destruct (cur !! key); [|discriminate].
        intros Hl. constructor; [eauto | by eapply IH]. }
      by eapply Hall.
    + intros [Hne Hall]. destruct ds as [|d0 ds]; [done|].
      apply max_by_key_loop_defined; [by inversion Hall | exact Hall].
  - apply dictionary_max_max_by_key.
Qed.

(** ** Pattern expansion in general *)

Section ExpansionFacts.
Context {P F Sh : Type} (pol : policies P F Sh).
Variables (shape : Sh) (self : rule P F Sh) (w : world P F Sh).
Variable sub_moves : list move.
Implicit Types (c : coords) (edge rest pending checked new_edge : list coords)
  (legal : list move).


(** One visit, spelled out. *)
Lemma visit_cases c legal checked new_edge :
  exists legal' new_edge',
    PatternRule.visit pol shape self w (legal, checked, new_edge) c
    = (legal', checked ++ [c], new_edge')
    /\ (legal' = legal
        /\ (does_skip pol shape self w c = false -> Step c (get_coords self) ∈ legal)
        \/ legal' = legal ++ [Step c (get_coords self)]
           /\ does_skip pol shape self w c = false
           /\ Step c (get_coords self) ∉ legal)
    /\ (new_edge' = new_edge
        /\ (does_stop_on pol shape self w c = false -> c ∈ checked)
        \/ new_edge' = new_edge ++ get_step pol shape self w c
           /\ does_stop_on pol shape self w c = false
           /\ c ∉ checked).
Proof.
  unfold PatternRule.visit.
  eexists _, _. split; [reflexivity|]. split.
  - destruct (does_skip pol shape self w c); simpl; [left; split; [done | discriminate]|].
    destruct (bool_decide (Step c (get_coords self) ∈ legal)) eqn:Hin; simpl.
    + apply bool_decide_eq_true in Hin. left. by split.
    + apply bool_decide_eq_false in Hin. right. by repeat split.
  - destruct (does_stop_on pol shape self w c); simpl; [left; split; [done | discriminate]|].
    destruct (bool_decide (c ∈ checked)) eqn:Hin; simpl.
    + apply bool_decide_eq_true in Hin. left. by split.
    + apply bool_decide_eq_false in Hin. right. by repeat split.
Qed.

Lemma visit_invariant c rest new_edge checked legal :
  Expansion.invariant pol shape self w sub_moves (c :: rest ++ new_edge) checked legal ->
  exists legal' new_edge',
    PatternRule.visit pol shape self w (legal, checked, new_edge) c
    = (legal', checked ++ [c], new_edge')
    /\ Expansion.invariant pol shape self w sub_moves (rest ++ new_edge')
         (checked ++ [c]) legal'
    /\ (new_edge' = new_edge \/ c ∉ checked).
Proof.
  intros (Hpend & Hchk & (added & Hlegal & Hnodup & Hadded) & Hshown & Hfirst & Hclosed).
  destruct (visit_cases c legal checked new_edge)
    as (legal' & new_edge' & Hvisit & Hlegal' & Hedge').
  exists legal', new_edge'. split; [exact Hvisit|].
  assert (Expansion.reached pol shape self w c) as Hc by (apply Hpend; left).
  assert (forall x, x ∈ new_edge -> x ∈ new_edge') as Hgrow.
  { intros x Hx. destruct Hedge' as [[-> _]|[-> _]]; [done|].
    apply elem_of_app. by left. }
  assert (forall x, x ∈ c :: rest ++ new_edge ->
            x ∈ checked ++ [c] \/ x ∈ rest ++ new_edge') as Hmove.
  { intros x Hx. apply elem_of_cons in Hx as [->|Hx].
    - left. apply elem_of_app. right. left.
    - right. apply elem_of_app in Hx as [Hx|Hx]; apply elem_of_app; auto. }
  assert (forall m, m ∈ legal -> m ∈ legal') as Hkeep.
  { intros m Hm. destruct Hlegal' as [[-> _]|[-> _]]; [done|].
    apply elem_of_app. by left. }
  split; [|destruct Hedge' as [[-> _]|(_ & _ & ?)]; auto].
  repeat split.
  - intros x Hx. apply elem_of_app in Hx as [Hx|Hx].
    + apply Hpend. right. apply elem_of_app. by left.
    + destruct Hedge' as [[-> _]|(-> & Hstop & _)].
      * apply Hpend. right. apply elem_of_app. by right.
      * apply elem_of_app in Hx as [Hx|Hx].
        -- apply Hpend. right. apply elem_of_app. by right.
        -- by eapply Expansion.reached_next.
  - intros x Hx. apply elem_of_app in Hx as [Hx|Hx]; [by apply Hchk|].
    by apply list_elem_of_singleton in Hx as ->.
  - destruct Hlegal' as [[-> _]|(-> & Hskip & Hin)]; [exists added; auto|].
    exists (added ++ [Step c (get_coords self)]).
    split; [by rewrite Hlegal, app_assoc|].
    assert ((Step c (get_coords self) ∉ added)
            /\ (Step c (get_coords self) ∉ sub_moves)) as [Hna Hns].
    { rewrite Hlegal in Hin. split; intros Hx; apply Hin, elem_of_app; auto. }
    split.
    + apply NoDup_app. split; [exact Hnodup|]. split.
      * intros m Hm Hm'. apply list_elem_of_singleton in Hm'. by subst.
      * apply NoDup_singleton.
    + intros m Hm. apply elem_of_app in Hm as [Hm|Hm]; [by apply Hadded|].
      apply list_elem_of_singleton in Hm as ->.
      split; [exact Hns|]. by exists c.
  - intros x Hx Hskip. apply elem_of_app in Hx as [Hx|Hx].
    + by apply Hkeep, Hshown.
    + apply list_elem_of_singleton in Hx as ->.
      destruct Hlegal' as [[-> Hin]|(-> & _ & _)]; [by apply Hin|].
      apply elem_of_app. right. left.
  - intros x Hx. destruct (Hfirst x Hx) as [Hx'|Hx'].
    + left. apply elem_of_app. by left.
    + by apply Hmove.
  - intros x x' Hx Hstop Hx'. apply elem_of_app in Hx as [Hx|Hx].
    + destruct (Hclosed x x' Hx Hstop Hx') as [H1|H1].
      * left. apply elem_of_app. by left.
      * by apply Hmove.
    + apply list_elem_of_singleton in Hx as ->.
      destruct Hedge' as [[-> Hold]|(-> & _ & _)].
      * destruct (Hclosed c x' (Hold Hstop) Hstop Hx') as [H1|H1].
        -- left. apply elem_of_app. by left.
        -- by apply Hmove.
      * right. apply elem_of_app. right. apply elem_of_app. by right.
Qed.

Lemma fold_visit_invariant rest : forall legal checked new_edge,
  Expansion.invariant pol shape self w sub_moves (rest ++ new_edge) checked legal ->
  let '(legal', checked', new_edge') :=
    fold_left (PatternRule.visit pol shape self w) rest (legal, checked, new_edge) in
  Expansion.invariant pol shape self w sub_moves new_edge' checked' legal'
  /\ checked' = checked ++ rest
  /\ (new_edge' = new_edge \/ exists c, c ∈ rest /\ c ∉ checked).
Proof.
  induction rest as [|c rest IH]; intros legal checked new_edge Hinv;
    cbn [fold_left].
  - split; [exact Hinv|]. split; [by rewrite app_nil_r | by left].
  - destruct (visit_invariant c rest new_edge checked legal Hinv)
      as (legal1 & new_edge1 & -> & Hinv1 & Hnew1).
    specialize (IH legal1 (checked ++ [c]) new_edge1 Hinv1).
    destruct (fold_left (PatternRule.visit pol shape self w) rest (legal1, checked ++ [c], new_edge1))
      as [[legal' checked'] new_edge'].
    destruct IH as (Hinv' & -> & Hnew').
    split; [exact Hinv'|]. split; [by rewrite <- app_assoc|].
    destruct Hnew' as [->|(x & Hx & Hfresh)].
    + destruct Hnew1 as [->|Hfresh]; [by left|].
      right. exists c. split; [left | exact Hfresh].
    + right. exists x. split; [by right|].
      intros Hold. apply Hfresh, elem_of_app. by left.
Qed.

Lemma expand_invariant fuel : forall edge checked legal r,
  Expansion.invariant pol shape self w sub_moves edge checked legal ->
  PatternRule.expand pol shape self w fuel edge checked legal = inr r ->
  exists checked', Expansion.invariant pol shape self w sub_moves [] checked' r.
Proof.
  induction fuel as [|fuel IH]; intros edge checked legal r Hinv.
  - destruct edge; [|discriminate]. intros [= <-]. eauto.
  - destruct edge as [|c edge]; [intros [= <-]; eauto|].
    cbn [PatternRule.expand].
    pose proof (fold_visit_invariant (c :: edge) legal checked []) as Hpass.
    rewrite app_nil_r in Hpass. specialize (Hpass Hinv).
    destruct (fold_left (PatternRule.visit pol shape self w) (c :: edge) (legal, checked, []))
      as [[legal' checked'] new_edge].
    destruct Hpass as (Hinv' & _ & _). by apply IH.
Qed.

Lemma invariant_start :
  Expansion.invariant pol shape self w sub_moves (get_step pol shape self w (get_coords self)) [] sub_moves.
Proof.
  repeat split.
  - intros c Hc. by apply Expansion.reached_first.
  - intros c Hc. by apply elem_of_nil in Hc.
  - exists []. rewrite app_nil_r. split; [reflexivity|]. split; [constructor|].
    intros m Hm. by apply elem_of_nil in Hm.
  - intros c Hc. by apply elem_of_nil in Hc.
  - intros c Hc. by right.
  - intros c c' Hc. by apply elem_of_nil in Hc.
Qed.

Lemma invariant_end checked legal :
  Expansion.invariant pol shape self w sub_moves [] checked legal ->
  forall m, m ∈ legal <-> m ∈ sub_moves \/ Expansion.offered pol shape self w m.
Proof.
  intros (_ & Hchk & (added & -> & Hnodup & Hadded) & Hshown & Hfirst & Hclosed) m.
  assert (forall c, Expansion.reached pol shape self w c -> c ∈ checked) as Hall.
  { induction 1 as [c Hc|c c' _ IH Hstop Hc'].
    - destruct (Hfirst c Hc) as [?|Hnil]; [done | by apply elem_of_nil in Hnil].
    - destruct (Hclosed c c' IH Hstop Hc') as [?|Hnil];
        [done | by apply elem_of_nil in Hnil]. }
  split.
  - intros Hm. apply elem_of_app in Hm as [Hm|Hm]; [by left|].
    right. by apply Hadded.
  - intros [Hm|(c & -> & Hc & Hskip)]; [apply elem_of_app; by left|].
    apply Hshown; [by apply Hall | exact Hskip].
Qed.

(** The loop ends once it has no cell left that it has not visited. *)
Lemma expand_terminates (cells : list coords) :
  (forall c, Expansion.reached pol shape self w c -> c ∈ cells) ->
  forall fuel edge checked legal,
    Expansion.invariant pol shape self w sub_moves edge checked legal ->
    (size (Expansion.unvisited cells checked) < fuel)%nat ->
    exists r, PatternRule.expand pol shape self w fuel edge checked legal = inr r.
Proof.
  intros Hcells.
  induction fuel as [|fuel IH]; intros edge checked legal Hinv Hsize; [lia|].
  destruct edge as [|c edge]; [simpl; eauto|].
  cbn [PatternRule.expand].
  pose proof (fold_visit_invariant (c :: edge) legal checked []) as Hpass.
  rewrite app_nil_r in Hpass. specialize (Hpass Hinv).
  destruct (fold_left (PatternRule.visit pol shape self w) (c :: edge) (legal, checked, []))
    as [[legal' checked'] new_edge].
  destruct Hpass as (Hinv' & -> & Hnew).
  destruct Hnew as [->|(x & Hx & Hfresh)].
  - destruct fuel; simpl; eauto.
  - apply IH; [exact Hinv'|].
    assert (Expansion.unvisited cells (checked ++ c :: edge)
              ⊂ Expansion.unvisited cells checked) as Hless.
    { assert (x ∈ cells) as Hxc.
      { apply Hcells. destruct Hinv as (Hpend & _). by apply Hpend. }
      unfold Expansion.unvisited. rewrite list_to_set_app_L.
      assert (x ∈ (list_to_set cells : gset coords)) as Hxs
        by (by apply elem_of_list_to_set).
      assert (x ∈ (list_to_set (c :: edge) : gset coords)) as Hxe
        by (by apply elem_of_list_to_set).
      assert (x ∉ (list_to_set checked : gset coords)) as Hxn
        by (by rewrite elem_of_list_to_set).
      split.
      - intros y Hy. apply elem_of_difference in Hy as [Hy1 Hy2].
        apply elem_of_difference. split; [done|].
        intros Hy3. apply Hy2, elem_of_union. by left.
      - intros Hsub. specialize (Hsub x).
        rewrite !elem_of_difference, elem_of_union in Hsub.
        destruct Hsub as [_ Hsub]; [done|]. apply Hsub. by right. }
    apply subset_size in Hless. lia.
Qed.

Lemma size_list_to_set_le (cells : list coords) :
  (size (list_to_set cells : gset coords) <= length cells)%nat.
Proof.
  induction cells as [|c cells IH].
  - by rewrite list_to_set_nil, size_empty.
  - rewrite list_to_set_cons. cbn [length].
    rewrite size_union_alt, size_singleton.
    assert (size (list_to_set cells ∖ {[c]} : gset coords)
            <= size (list_to_set cells : gset coords))%nat
      by (apply subseteq_size; intros y Hy;
          apply elem_of_difference in Hy; tauto).
    lia.
Qed.

(** X3. [PatternRule.generate_legal_moves] ends and is exact whenever the
    cells its step function can reach are finitely many: if every reached
    cell lies in the list [cells] and the loop may make more than
    [length cells] passes, it returns a list whose members are exactly the
    moves of the sub-rule and the moves [(c, current coordinate)] for the
    reached cells [c] that [does_skip] does not reject. *)
Theorem pattern_expansion_total_and_exact (cells : list coords) (fuel : nat) :
  (forall c, Expansion.reached pol shape self w c -> c ∈ cells) ->
  (length cells < fuel)%nat ->
  exists legal,
    PatternRule.generate_legal_moves pol shape self w fuel sub_moves = inr legal
    /\ forall m, m ∈ legal <->
         m ∈ sub_moves \/ Expansion.offered pol shape self w m.
Proof.
  intros Hcells Hfuel.
  destruct (expand_terminates cells Hcells fuel
              (get_step pol shape self w (get_coords self)) [] sub_moves
              invariant_start) as [legal Hrun].
  { unfold Expansion.unvisited.
    pose proof (size_list_to_set_le cells) as Hsize.
    assert (size (list_to_set cells ∖ list_to_set [] : gset coords)
            <= size (list_to_set cells : gset coords))%nat
      by (apply subseteq_size; intros y Hy;
          apply elem_of_difference in Hy; tauto).
    lia. }
  exists legal. split; [exact Hrun|].
  destruct (expand_invariant _ _ _ _ _ invariant_start Hrun) as [checked Hinv].
  by apply invariant_end with checked.
Qed.

(** X4. Whatever [PatternRule.generate_legal_moves] returns keeps the moves
    of the sub-rule first, in their order and with their repetitions, and
    appends after them, each once, exactly the offered moves that the
    sub-rule did not already give. *)
Theorem pattern_expansion_appends_new_moves_once (fuel : nat) (legal : list move) :
  PatternRule.generate_legal_moves pol shape self w fuel sub_moves = inr legal ->
  exists added,
    legal = sub_moves ++ added
    /\ NoDup added
    /\ forall m, m ∈ added <->
         (m ∉ sub_moves) /\ Expansion.offered pol shape self w m.
Proof.
  intros Hrun.
  destruct (expand_invariant _ _ _ _ _ invariant_start Hrun) as [checked Hinv].
  pose proof (invariant_end _ _ Hinv) as Hend.
  destruct Hinv as (_ & _ & (added & -> & Hnodup & Hadded) & _).
  exists added. split; [done|]. split; [done|].
  intros m. split; [apply Hadded|].
  intros [Hnot Hoff].
  assert (m ∈ sub_moves ++ added) as Hin by (apply Hend; by right).
  apply elem_of_app in Hin as [Hin|Hin]; [by destruct Hnot | done].
Qed.
End ExpansionFacts.

Lemma on_board_all_cells (lo : Z) (c : coords) :
  Board.on_board lo c = true -> c ∈ Board.all_cells lo.
Proof.
  destruct c as [|x [|y [|? ?]]]; simpl; try discriminate.
  intros Hon. unfold Board.all_cells.
  apply list_elem_of_bind. exists x. split.
  - apply list_elem_of_bind. exists y. split; [apply list_elem_of_singleton; done|].
    apply elem_of_seqZ. lia.
  - apply elem_of_seqZ. lia.
Qed.

Lemma axis_step_reached_on_board (lo : Z) self w (c : coords) :
  Expansion.reached (Board.board_policies lo) Board.AxisStep self w c ->
  c ∈ Board.all_cells lo.
Proof.
  intros Hreached. apply on_board_all_cells.
  destruct Hreached as [c Hstep|c0 c _ _ Hstep];
    simpl in Hstep; apply list_elem_of_filter in Hstep; tauto.
Qed.

Lemma pattern_expansion_total_and_exact_witness :
  let self := PatternRule (Some "A") Board.AxisStep (Tile (Some "A") [4; 4]) in
  exists legal,
    PatternRule.generate_legal_moves (Board.board_policies 0) Board.AxisStep self
      (Board.lone_piece false) 65 [] = inr legal
    /\ forall m, m ∈ legal <->
         m ∈ [] \/ Expansion.offered (Board.board_policies 0) Board.AxisStep self
                     (Board.lone_piece false) m.
Proof.
  intros self.
  apply (pattern_expansion_total_and_exact (Board.board_policies 0)
           Board.AxisStep self (Board.lone_piece false) [] (Board.all_cells 0) 65).
  - apply axis_step_reached_on_board.
  - vm_compute. lia.
Defined.

Lemma pattern_expansion_appends_new_moves_once_witness :
  let self := PatternRule (Some "A") Board.OneRight (Tile (Some "A") [0; 0]) in
  exists added,
    [Step [1; 0] [0; 0]; Step [1; 0] [0; 0]] =
      [Step [1; 0] [0; 0]; Step [1; 0] [0; 0]] ++ added
    /\ NoDup added
    /\ forall m, m ∈ added <->
         (m ∉ [Step [1; 0] [0; 0]; Step [1; 0] [0; 0]])
         /\ Expansion.offered (Board.board_policies 0) Board.OneRight self
              Board.two_pieces m.
Proof.
  intros self.
  apply (pattern_expansion_appends_new_moves_once (Board.board_policies 0)
           Board.OneRight self Board.two_pieces
           [Step [1; 0] [0; 0]; Step [1; 0] [0; 0]] 1).
  reflexivity.
Defined.

(** ** The sequencer: cycles, round trips, merged utilities *)

Section SequencerMore.
Context {R W M K V : Type} `{Countable K} `{!Rule.Ops R W M K V}.
Implicit Types (st : SimpleTurn.t R) (w : W) (move : option (R * M)).

(** X5. A sequencer whose active sub-rule is the one its turn index
    designates is given back unchanged by [execute_move] followed by
    [undo_move], with or without a delegated move, provided the delegated
    inverse undoes the delegated move. *)
Theorem SimpleTurn_round_trip_restores st w w1 move :
  0 <= SimpleTurn.turn st < Z.of_nat (length (SimpleTurn.sequence st)) ->
  SimpleTurn.sequence st !! Z.to_nat (SimpleTurn.turn st)
    = Some (SimpleTurn.sub_rule st) ->
  match move with
  | Some (r, m) =>
      Rule.execute_move r m w = (inr tt, w1) /\ Rule.undo_move r m w1 = (inr tt, w)
  | None => w1 = w
  end ->
  (SimpleTurn.execute_move move ;;; SimpleTurn.undo_move move) (st, w)
  = (inr tt, (st, w)).
Proof.
  intros Hrange Hactive Hmove.
  assert (SimpleTurn.sequence st <> []) as Hne.
  { intros Hnil. rewrite Hnil in Hrange. simpl in Hrange. lia. }
  destruct (execute_move_spec st w move Hne) as (r1 & Hr1 & Hrun1).
  cbn zeta in Hrun1.
  set (N := Z.of_nat (length (SimpleTurn.sequence st))) in *.
  set (st1 := {| SimpleTurn.sequence := SimpleTurn.sequence st;
                 SimpleTurn.turn := (SimpleTurn.turn st + 1) mod N;
                 SimpleTurn.sub_rule := r1 |}) in *.
  assert (SimpleTurn.execute_move move (st, w) = (inr tt, (st1, w1))) as Hexec.
  { rewrite Hrun1. destruct move as [[r m]|].
    - destruct Hmove as [-> _]. reflexivity.
    - by subst w1. }
  destruct (undo_move_spec st1 w1 move Hne) as (r2 & Hr2 & Hrun2).
  { cbn zeta. destruct move as [[r m]|]; [|done]. by destruct Hmove as [_ ->]. }
  cbn zeta in Hrun2.
  unfold bind. rewrite Hexec, Hrun2.
  subst st1. cbn [SimpleTurn.turn SimpleTurn.sequence] in Hr2 |- *.
  fold N in Hr2 |- *.
  assert (((SimpleTurn.turn st + 1) mod N - 1) mod N = SimpleTurn.turn st) as Hback.
  { rewrite Zminus_mod_idemp_l.
    replace (SimpleTurn.turn st + 1 - 1) with (SimpleTurn.turn st) by lia.
    by apply Z.mod_small. }
  rewrite Hback in Hr2 |- *. rewrite Hactive in Hr2. injection Hr2 as <-.
  f_equal. f_equal; [by destruct st|].
  destruct move as [[r m]|]; [by destruct Hmove as [_ ->] | done].
Qed.

(** X6. [k + 1] calls of [execute_move()] in a row advance the turn index
    by [k + 1] modulo the number of sub-rules and leave the sub-rule at
    that index active; the state of the sub-rules is not touched. *)
Theorem SimpleTurn_execute_move_repeated st w (k : nat) :
  SimpleTurn.sequence st <> [] ->
  let N := Z.of_nat (length (SimpleTurn.sequence st)) in
  let n := (SimpleTurn.turn st + Z.of_nat (S k)) mod N in
  exists r,
    SimpleTurn.sequence st !! Z.to_nat n = Some r
    /\ repeat_prog (S k) (SimpleTurn.execute_move None) (st, w)
       = (inr tt, ({| SimpleTurn.sequence := SimpleTurn.sequence st;
                      SimpleTurn.turn := n;
                      SimpleTurn.sub_rule := r |}, w)).
Proof.
  intros Hne N. revert st Hne N.
  induction k as [|k IH]; intros st Hne N n.
  - destruct (execute_move_spec st w None Hne) as (r & Hr & Hrun).
    exists r. split; [exact Hr|].
    cbn [repeat_prog]. unfold bind. rewrite Hrun. reflexivity.
  - destruct (execute_move_spec st w None Hne) as (r1 & Hr1 & Hrun).
    cbn zeta in Hrun. cbn [fst snd] in Hrun. fold N in Hrun.
    set (st1 := {| SimpleTurn.sequence := SimpleTurn.sequence st;
                   SimpleTurn.turn := (SimpleTurn.turn st + 1) mod N;
                   SimpleTurn.sub_rule := r1 |}) in *.
    destruct (IH st1 Hne) as (r & Hr & Hrest).
    cbn [SimpleTurn.sequence SimpleTurn.turn st1] in Hr, Hrest. fold N in Hr, Hrest.
    assert (((SimpleTurn.turn st + 1) mod N + Z.of_nat (S k)) mod N = n) as Hn.
    { subst n. rewrite Zplus_mod_idemp_l. f_equal. lia. }
    rewrite Hn in Hr, Hrest.
    exists r. split; [exact Hr|].
    change (repeat_prog (S (S k)) (SimpleTurn.execute_move None) (st, w))
      with (bind (SimpleTurn.execute_move None)
              (fun _ => repeat_prog (S k) (SimpleTurn.execute_move None)) (st, w)).
    unfold bind at 1. rewrite Hrun. exact Hrest.
Qed.


Lemma updated_by_app (us vs : list (gmap K V)) (utility : gmap K V) :
  updated_by (us ++ vs) utility = updated_by vs (updated_by us utility).
Proof. apply fold_left_app. Qed.

Lemma updated_by_lookup (us : list (gmap K V)) (key : K) (v : V) :
  updated_by us ∅ !! key = Some v
  <-> exists before u after,
        us = before ++ u :: after
        /\ u !! key = Some v
        /\ Forall (fun u' => u' !! key = None) after.
Proof.
  induction us as [|x us IH] using rev_ind.
  - split.
    + unfold updated_by. simpl. by rewrite lookup_empty.
    + intros (before & u & after & Hsplit & _). by destruct before.
  - rewrite updated_by_app. unfold updated_by at 1. cbn [fold_left].
    rewrite lookup_union_Some_raw. split.
    + intros [Hx|[Hx Hrest]].
      * exists us, x, []. by repeat split.
      * apply IH in Hrest as (before & u & after & -> & Hu & Hafter).
        exists before, u, (after ++ [x]). split; [by rewrite <- app_assoc|].
        split; [done|]. apply Forall_app. split; [done | by constructor].
    + intros (before & u & after & Hsplit & Hu & Hafter).
      destruct after as [|y after _] using rev_ind.
      * apply app_inj_tail in Hsplit as [-> ->]. by left.
      * rewrite app_comm_cons, app_assoc in Hsplit.
        apply app_inj_tail in Hsplit as [-> ->].
        apply Forall_app in Hafter as [Hafter Hy].
        right. split; [by inversion Hy|].
        apply IH. by exists before, u, after.
Qed.

Lemma get_utility_loop_updates (rules : list R) (us : list (gmap K V)) w :
  Forall2 (fun r u => Rule.get_utility r w = (inr u, w)) rules us ->
  forall utility,
    SimpleTurn.get_utility_loop rules utility w = (inr (updated_by us utility), w).
Proof.
  induction 1 as [|r u rules us Hr _ IH]; intros utility; [reflexivity|].
  cbn [SimpleTurn.get_utility_loop]. unfold bind. rewrite Hr. apply IH.
Qed.

(** X8. [SimpleTurn.get_utility] merges the utilities of all the sub-rules
    of the sequence, not only of the active one: when the sub-rules report
    [us], a key has the value given by the last sub-rule of the sequence
    that reports the key, and the keys no sub-rule reports are absent. *)
Theorem SimpleTurn_get_utility_later_sub_rules_override st w
    (us : list (gmap K V)) :
  Forall2 (fun r u => Rule.get_utility r w = (inr u, w)) (SimpleTurn.sequence st) us ->
  exists utility,
    SimpleTurn.get_utility (st, w) = (inr utility, (st, w))
    /\ forall key v,
         utility !! key = Some v
         <-> exists before u after,
               us = before ++ u :: after
               /\ u !! key = Some v
               /\ Forall (fun u' => u' !! key = None) after.
Proof.
  intros Hus. exists (updated_by us ∅). split; [|apply updated_by_lookup].
  unfold SimpleTurn.get_utility, bind, SimpleTurn.self, on_snd. cbn [fst snd].
  by rewrite (get_utility_loop_updates _ _ _ Hus).
Qed.
End SequencerMore.

Lemma SimpleTurn_round_trip_restores_witness :
  let st := {| SimpleTurn.sequence := [tt; tt]; SimpleTurn.turn := 1;
               SimpleTurn.sub_rule := tt |} in
  (SimpleTurn.execute_move (H0 := ThreeMoves.ops) (Some (tt, 2%nat)) ;;;
   SimpleTurn.undo_move (H0 := ThreeMoves.ops) (Some (tt, 2%nat))) (st, 0%nat)
  = (inr tt, (st, 0%nat)).
Proof.
  intros st.
  refine (SimpleTurn_round_trip_restores (H0 := ThreeMoves.ops) st 0%nat 2%nat
            (Some (tt, 2%nat)) _ _ _).
  - simpl. lia.
  - reflexivity.
  - split; reflexivity.
Defined.

Lemma SimpleTurn_execute_move_repeated_witness :
  let st := {| SimpleTurn.sequence := [tt; tt; tt]; SimpleTurn.turn := 2;
               SimpleTurn.sub_rule := tt |} in
  exists r,
    SimpleTurn.sequence st !! Z.to_nat ((2 + Z.of_nat 2) mod 3) = Some r
    /\ repeat_prog 2 (SimpleTurn.execute_move (H0 := ThreeMoves.ops) None) (st, 0%nat)
       = (inr tt, ({| SimpleTurn.sequence := [tt; tt; tt];
                      SimpleTurn.turn := (2 + Z.of_nat 2) mod 3;
                      SimpleTurn.sub_rule := r |}, 0%nat)).
Proof.
  intros st.
  apply (SimpleTurn_execute_move_repeated (H0 := ThreeMoves.ops) st 0%nat 1).
  discriminate.
Defined.

Lemma SimpleTurn_get_utility_later_sub_rules_override_witness :
  exists utility : gmap string Q,
    SimpleTurn.get_utility (H0 := ThreeMoves.ops)
      ({| SimpleTurn.sequence := [tt; tt]; SimpleTurn.turn := 0;
          SimpleTurn.sub_rule := tt |}, 1%nat)
    = (inr utility, ({| SimpleTurn.sequence := [tt; tt]; SimpleTurn.turn := 0;
                        SimpleTurn.sub_rule := tt |}, 1%nat))
    /\ utility !! "A" = Some (2 # 10).
Proof.
  destruct (SimpleTurn_get_utility_later_sub_rules_override (H0 := ThreeMoves.ops)
              {| SimpleTurn.sequence := [tt; tt]; SimpleTurn.turn := 0;
                 SimpleTurn.sub_rule := tt |} 1%nat
              [ThreeMoves.utility_of 1; ThreeMoves.utility_of 1])
    as (utility & Hrun & Hkeys).
  - repeat constructor.
  - exists utility. split; [exact Hrun|].
    apply Hkeys. exists [ThreeMoves.utility_of 1], (ThreeMoves.utility_of 1), [].
    repeat split; constructor.
Defined.

(** ** The aggregator *)

Section RuleSumFacts.
Context {R W M K V : Type} `{Countable K} `{!Rule.Ops R W M K V}.
Variable gt : V -> V -> bool.
Implicit Types (self : RuleSum.t R K) (w : W) (rules : list R)
  (mss : list (list M)) (us : list (gmap K V)).

Lemma get_legal_moves_loop_tags rules mss w :
  Forall2 (fun r ms => Rule.get_legal_moves r w = (inr ms, w)) rules mss ->
  RuleSum.get_legal_moves_loop rules w
  = (inr (concat (zip_with (fun r ms => map (pair r) ms) rules mss)), w).
Proof.
  induction 1 as [|r ms rules mss Hr _ IH]; [reflexivity|].
  cbn [RuleSum.get_legal_moves_loop]. unfold bind. rewrite Hr, IH. reflexivity.
Qed.

Lemma elem_of_tagged rules mss (r : R) (m : M) :
  (r, m) ∈ concat (zip_with (fun r ms => map (pair r) ms) rules mss)
  <-> exists i ms, rules !! i = Some r /\ mss !! i = Some ms /\ m ∈ ms.
Proof.
  revert mss. induction rules as [|r0 rules IH]; intros mss.
  - simpl. split; [by intros ?%elem_of_nil | by intros (i & ms & ? & _)].
  - destruct mss as [|ms0 mss].
    + simpl. split; [by intros ?%elem_of_nil|].
      by intros (i & ms & _ & ? & _).
    + cbn [zip_with concat]. rewrite elem_of_app, IH. split.
      * intros [Hhere|(i & ms & Hi & Hms & Hm)].
        -- apply list_elem_of_fmap in Hhere as (m' & [= -> ->] & Hm).
           by exists 0%nat, ms0.
        -- by exists (S i), ms.
      * intros ([|i] & ms & Hi & Hms & Hm).
        -- injection Hi as ->. injection Hms as ->.
           left. apply list_elem_of_fmap. by exists m.
        -- right. by exists i, ms.
Qed.

(** X9. [RuleSum.get_legal_moves] offers, tagged with its rule, every move
    of every sub-rule and nothing else: the moves come sub-rule by
    sub-rule in the order of the sub-rules, each sub-rule's moves in its
    own order, so that a sum without sub-rule has no move. *)
Theorem RuleSum_get_legal_moves_tags_every_move self w mss :
  Forall2 (fun r ms => Rule.get_legal_moves r w = (inr ms, w))
    (RuleSum.sub_rule self) mss ->
  exists legal,
    RuleSum.get_legal_moves self w = (inr legal, w)
    /\ map snd legal = concat mss
    /\ (forall r m, (r, m) ∈ legal <->
          exists i ms, RuleSum.sub_rule self !! i = Some r
                       /\ mss !! i = Some ms /\ (m ∈ ms))
    /\ (RuleSum.sub_rule self = [] -> legal = []).
Proof.
  intros Hsub. eexists. split; [by apply get_legal_moves_loop_tags|].
  split; [|split].
  - revert Hsub. generalize (RuleSum.sub_rule self) as rules.
    intros rules. induction 1 as [|r ms rules mss' Hr _ IH]; [reflexivity|].
    cbn [zip_with concat]. rewrite map_app, IH. f_equal.
    rewrite map_map. simpl. apply map_id.
  - apply elem_of_tagged.
  - by intros ->.
Qed.
End RuleSumFacts.

Section RuleSumUtility.
Context {R W M K V : Type} `{Countable K} `{!Rule.Ops R W M K V}.
Variable gt : V -> V -> bool.
Hypothesis gt_asym : forall a b, gt a b = true -> gt b a = false.
Hypothesis gt_between : forall a b c, gt a c = true -> gt a b = true \/ gt b c = true.
Implicit Types (self : RuleSum.t R K) (w : W) (us : list (gmap K V)).

Lemma max_by_key_returns_maximum (key : K) us (u : gmap K V) :
  max_by_key gt key us = inr u ->
  (u ∈ us)
  /\ exists v, u !! key = Some v
       /\ forall u', u' ∈ us -> exists v', u' !! key = Some v' /\ gt v' v = false.
Proof.
  intros Hmax. destruct us as [|u0 us]; [discriminate|].
  unfold max_by_key in Hmax. split.
  - apply max_by_key_loop_elem in Hmax as [->|Hin]; [left | exact Hin].
  - destruct (u0 !! key) as [v0|] eqn:Hu0.
    + apply (max_by_key_loop_maximal gt gt_asym gt_between key (u0 :: us) u0 v0 [] u Hu0)
        in Hmax; [exact Hmax|].
      intros d Hd. by apply elem_of_nil in Hd.
    + simpl in Hmax. unfold getitem in Hmax. rewrite Hu0 in Hmax. discriminate.
Qed.

(** X10. [RuleSum.get_utility] asks every sub-rule for its utility and
    returns one of these dictionaries whole, one whose entry for the
    sum's player no other sub-rule's entry exceeds; it does not merge
    them.  A sum without sub-rule raises [IndexError].  The state is the
    one the sub-rules' [get_utility] leave. *)
Theorem RuleSum_get_utility_picks_best_sub_rule self w us :
  Forall2 (fun r u => Rule.get_utility r w = (inr u, w)) (RuleSum.sub_rule self) us ->
  (RuleSum.sub_rule self = [] ->
   RuleSum.get_utility gt self w = (inl IndexError, w))
  /\ (forall e, fst (RuleSum.get_utility gt self w) = inl e ->
        e = IndexError /\ RuleSum.sub_rule self = []
        \/ e = KeyError /\ exists u, u ∈ us /\ u !! RuleSum.player self = None)
  /\ (forall u w',
        RuleSum.get_utility gt self w = (inr u, w') ->
        w' = w
        /\ (u ∈ us)
        /\ exists v, u !! RuleSum.player self = Some v
             /\ forall u', u' ∈ us ->
                  exists v', u' !! RuleSum.player self = Some v' /\ gt v' v = false).
Proof.
  intros Hus.
  assert (RuleSum.get_utility gt self w
          = (max_by_key gt (RuleSum.player self) us, w)) as Hrun.
  { unfold RuleSum.get_utility, bind.
    by rewrite (map_each_stable _ _ _ _ Hus). }
  rewrite Hrun. split; [|split].
  - intros Hnil. rewrite Hnil in Hus. by inversion Hus.
  - cbn [fst]. intros e He.
    destruct us as [|u0 us'].
    + left. split; [by injection He as <-|]. by inversion Hus.
    + right. unfold max_by_key in He.
      pose proof (max_by_key_loop_raises gt _ _ _ _ He) as ->. split; [done|].
      destruct (decide (Forall (fun d => is_Some (d !! RuleSum.player self))
                          (u0 :: us'))) as [Hall|Hsome].
      * destruct (max_by_key_loop_defined gt (RuleSum.player self) (u0 :: us') u0)
          as [r Hr]; [by inversion Hall | exact Hall |].
        rewrite Hr in He. discriminate.
      * apply not_Forall_Exists in Hsome; [|solve_decision].
        apply Exists_exists in Hsome as (u & Hu & Hnone).
        exists u. split; [exact Hu|]. by apply eq_None_not_Some.
  - intros u w' [= Hmax <-]. split; [done|].
    by apply max_by_key_returns_maximum.
Qed.
End RuleSumUtility.

Lemma RuleSum_get_legal_moves_tags_every_move_witness :
  exists legal,
    RuleSum.get_legal_moves (H0 := Board.piece_ops 5)
      {| RuleSum.player := Some "A"; RuleSum.sub_rule := [(0, 0); (1, 0)]%nat |}
      Board.two_pieces = (inr legal, Board.two_pieces)
    /\ map snd legal = [Step [1; 0] [0; 0]; Step [6; 5] [5; 5]].
Proof.
  destruct (RuleSum_get_legal_moves_tags_every_move (H0 := Board.piece_ops 5)
              {| RuleSum.player := Some "A"; RuleSum.sub_rule := [(0, 0); (1, 0)]%nat |}
              Board.two_pieces [[Step [1; 0] [0; 0]]; [Step [6; 5] [5; 5]]])
    as (legal & Hrun & Hmoves & _).
  - repeat constructor.
  - by exists legal.
Defined.

Lemma RuleSum_get_utility_picks_best_sub_rule_witness :
  let us := [ThreeMoves.utility_of 1; ThreeMoves.utility_of 3] in
  (ThreeMoves.utility_of 3 ∈ us)
  /\ exists v, ThreeMoves.utility_of 3 !! "A" = Some v
       /\ forall u', u' ∈ us -> exists v', u' !! "A" = Some v' /\ Qgtb v' v = false.
Proof.
  intros us.
  destruct (RuleSum_get_utility_picks_best_sub_rule
              (H0 := ThreeMovesSiblings.positions) Qgtb Qgtb_asym Qgtb_between
              {| RuleSum.player := "A"; RuleSum.sub_rule := [1; 3]%nat |} 0%nat us)
    as (_ & _ & Hbest).
  - repeat constructor.
  - destruct (Hbest (ThreeMoves.utility_of 3) 0%nat) as (_ & Hu & Hv).
    + vm_compute. reflexivity.
    + by split.
Defined.

(** ** The search: what it leaves behind, what pruning keeps *)

Lemma bind_inr {S A B} (c : prog S A) (k : A -> prog S B) s b s' :
  bind c k s = (inr b, s') ->
  exists a s1, c s = (inr a, s1) /\ k a s1 = (inr b, s').
Proof.
  unfold bind. destruct (c s) as [[e|a] s1]; [discriminate|]. intros Hk. by exists a, s1.
Qed.

Lemma on_fst_inr {T W A} (c : prog T A) (t : T) (w : W) a s' :
  on_fst c (t, w) = (inr a, s') ->
  exists t', c t = (inr a, t') /\ s' = (t', w).
Proof.
  unfold on_fst. cbn [fst snd]. destruct (c t) as [r t']. intros [= -> <-]. by exists t'.
Qed.

Lemma map_each_invariant {S A B} (inv : S -> Prop) (f : A -> prog S B) xs :
  (forall x s y s', x ∈ xs -> inv s -> f x s = (inr y, s') -> inv s') ->
  forall s ys s', inv s -> map_each xs f s = (inr ys, s') -> inv s'.
Proof.
  induction xs as [|x xs IH]; intros Hf s ys s' Hs Hrun.
  - by injection Hrun as _ <-.
  - cbn [map_each] in Hrun.
    apply bind_inr in Hrun as (y & s1 & Hx & Hrun).
    apply bind_inr in Hrun as (ys' & s2 & Hxs & Hrun).
    injection Hrun as _ <-.
    apply (IH (fun x' s0 y' s0' Hin => Hf x' s0 y' s0' (list_elem_of_further _ _ _ Hin))
             s1 ys' s2); [|exact Hxs].
    apply (Hf x s y s1); [left | exact Hs | exact Hx].
Qed.

Section SearchRestores.
Context {R W M K V : Type} `{Countable K} `{!Rule.Ops R W M K V}.
Variable gt lt : V -> V -> bool.
Variable self : R.

(** Listing the moves and evaluating the position leave the state alone,
    and [undo_move] gives back the state in which a legal move was
    executed. *)
Hypothesis legal_pure : forall w ms w',
  Rule.get_legal_moves self w = (inr ms, w') -> w' = w.
Hypothesis utility_pure : forall w u w',
  Rule.get_utility self w = (inr u, w') -> w' = w.
Hypothesis undo_reverses : forall w ms m w1 w2,
  Rule.get_legal_moves self w = (inr ms, w) -> m ∈ ms ->
  Rule.execute_move self m w = (inr tt, w1) ->
  Rule.undo_move self m w1 = (inr tt, w2) -> w2 = w.

Lemma max_n_plain_restores depth : forall w u w',
  Rule.max_n_plain gt depth self w = (inr u, w') -> w' = w.
Proof.
  induction depth as [|depth IH]; intros w u w' Hrun;
    cbn [Rule.max_n_plain] in Hrun;
    apply bind_inr in Hrun as (player & w0 & [= _ <-] & Hrun);
    apply bind_inr in Hrun as (legal & w1 & Hlegal & Hrun);
    pose proof (legal_pure _ _ _ Hlegal); subst w1.
  - by apply utility_pure in Hrun.
  - destruct legal as [|move rest]; [by apply utility_pure in Hrun|].
    apply bind_inr in Hrun as (us & w2 & Hmap & [= _ <-]).
    apply (map_each_invariant (fun s => s = w)) in Hmap; [done| |done].
    intros x s y s' Hx -> Hstep.
    apply bind_inr in Hstep as ([] & wa & Hexec & Hstep).
    apply bind_inr in Hstep as (ua & wb & Hsub & Hstep).
    apply bind_inr in Hstep as ([] & wc & Hundo & [= _ <-]).
    apply IH in Hsub as ->. by apply (undo_reverses w _ x wa wc Hlegal).
Qed.

Lemma evaluate_restores k player w legal m key w' :
  Rule.get_legal_moves self w = (inr legal, w) -> m ∈ legal ->
  Rule.evaluate gt k self player m w = (inr key, w') -> w' = w.
Proof.
  intros Hlegal Hm Hrun. unfold Rule.evaluate in Hrun.
  apply bind_inr in Hrun as ([] & wa & Hexec & Hrun).
  apply bind_inr in Hrun as (u & wb & Hsub & Hrun).
  apply bind_inr in Hrun as (value & wb' & [= _ <-] & Hrun).
  apply bind_inr in Hrun as ([] & wc & Hundo & [= _ <-]).
  apply max_n_plain_restores in Hsub as ->.
  by apply (undo_reverses w _ m wa wc Hlegal).
Qed.

Lemma slice_to_subseteq {A} (l : list A) (width : Z) (x : A) :
  x ∈ slice_to l width -> x ∈ l.
Proof.
  unfold slice_to. destruct (0 <=? width); intros Hx;
    by apply (subseteq_take _ _ _ Hx).
Qed.

Lemma prune_restores (rng : random_source M) width temp k player legal w n kept s' :
  samples_population rng ->
  Rule.get_legal_moves self w = (inr legal, w) ->
  Rule.prune gt lt rng width temp k self player legal (w, n) = (inr kept, s') ->
  fst s' = w /\ forall m, m ∈ kept -> m ∈ legal.
Proof.
  intros Hsample Hlegal Hrun. unfold Rule.prune in Hrun.
  destruct (Rule.width_active width (length legal)); [|by injection Hrun as <- <-].
  apply bind_inr in Hrun as (d & s1 & [= <- <-] & Hrun). cbn [fst snd] in Hrun.
  destruct (Qltb temp (random rng n)).
  - apply on_fst_inr in Hrun as (w1 & Hrun & ->). cbn [fst].
    unfold Rule.heuristic_prune in Hrun.
    apply bind_inr in Hrun as (keys & w2 & Hkeys & [= <- <-]). split.
    + apply (map_each_invariant (fun s => s = w)) in Hkeys; [done| |done].
      intros x s y s0 Hx -> Hstep. by apply (evaluate_restores k player w legal x y).
    + intros m Hm. apply slice_to_subseteq in Hm.
      rewrite sorted_by_key_permutation in Hm.
      apply list_elem_of_fmap in Hm as ([key m'] & -> & Hin).
      by apply elem_of_zip_r in Hin.
  - apply bind_inr in Hrun as (population & s2 & Hpop & Hrun).
    apply on_fst_inr in Hpop as (w1 & Hpop & ->).
    rewrite Hlegal in Hpop. injection Hpop as <- <-.
    apply bind_inr in Hrun as (d' & s3 & [= <- <-] & Hrun).
    unfold lift_result in Hrun. injection Hrun as Hchosen <-. split; [done|].
    intros m Hm. by apply (Hsample _ _ _ _ Hchosen).
Qed.

(** X11. A search that returns leaves the game as it found it.  When
    listing the moves and evaluating a position do not change the state,
    [undo_move] gives back the state in which a legal move was executed,
    and [sample] draws from its population, [Rule.max_n], pruned or not,
    at any depth, ends in the state it started from.  (A search that
    raises stops where the exception occurred, the moves made on the way
    there not undone.) *)
Theorem max_n_leaves_the_state_as_found (rng : random_source M) depth :
  samples_population rng ->
  forall width temp k w n u s',
    Rule.max_n gt lt rng depth width temp k self (w, n) = (inr u, s') ->
    fst s' = w.
Proof.
  intros Hsample. induction depth as [|depth IH]; intros width temp k w n u s' Hrun;
    cbn [Rule.max_n] in Hrun;
    apply bind_inr in Hrun as (player & s0 & Hplayer & Hrun);
    apply on_fst_inr in Hplayer as (w0 & [= _ <-] & ->);
    apply bind_inr in Hrun as (legal & s1 & Hlegal & Hrun);
    apply on_fst_inr in Hlegal as (w1 & Hlegal & ->);
    pose proof (legal_pure _ _ _ Hlegal); subst w1;
    apply bind_inr in Hrun as (kept & [w2 n2] & Hprune & Hrun);
    apply prune_restores in Hprune as [Hw2 Hkept]; try done;
    cbn [fst] in Hw2; subst w2.
  - apply on_fst_inr in Hrun as (w3 & Hu & ->). by apply utility_pure in Hu.
  - destruct kept as [|move rest].
    { apply on_fst_inr in Hrun as (w3 & Hu & ->). by apply utility_pure in Hu. }
    apply bind_inr in Hrun as (us & s2 & Hmap & [= _ <-]).
    apply (map_each_invariant (fun s => fst s = w)) in Hmap; [done| |done].
    intros x [wx nx] y sy Hx Hwx Hstep. cbn [fst] in Hwx. subst wx.
    apply bind_inr in Hstep as ([] & sa & Hexec & Hstep).
    apply on_fst_inr in Hexec as (wa & Hexec & ->).
    apply bind_inr in Hstep as (ua & [wb nb] & Hsub & Hstep).
    apply IH in Hsub. cbn [fst] in Hsub. subst wb.
    apply bind_inr in Hstep as ([] & sc & Hundo & [= _ <-]).
    apply on_fst_inr in Hundo as (wc & Hundo & ->). cbn [fst].
    by apply (undo_reverses w _ x wa wc Hlegal (Hkept x Hx)).
Qed.
End SearchRestores.

Lemma ThreeMoves_low_samples_population : samples_population ThreeMoves.low.
Proof. intros n population k chosen [= <-] m Hm. exact Hm. Qed.

Lemma max_n_leaves_the_state_as_found_witness :
  Rule.max_n (Ops0 := ThreeMoves.ops) Qgtb Qltb ThreeMoves.low 2 (Some 2) 1 1 tt
    (0%nat, 0%nat) = (inr (ThreeMoves.utility_of 3), (0%nat, 2%nat))
  /\ fst (0%nat, 2%nat) = 0%nat.
Proof.
  assert (Rule.max_n (Ops0 := ThreeMoves.ops) Qgtb Qltb ThreeMoves.low 2 (Some 2) 1 1 tt
            (0%nat, 0%nat) = (inr (ThreeMoves.utility_of 3), (0%nat, 2%nat))) as Hrun
    by (vm_compute; reflexivity).
  split; [exact Hrun|].
  refine (max_n_leaves_the_state_as_found (H0 := ThreeMoves.ops) Qgtb Qltb tt
            _ _ _ ThreeMoves.low 2 ThreeMoves_low_samples_population
            (Some 2) 1 1%nat 0%nat 0%nat _ _ Hrun).
  - by intros w ms w' [= _ <-].
  - by intros w u w' [= _ <-].
  - intros [|w] ms m w1 w2 [= <-] Hm _ [= <-]; [done | by apply elem_of_nil in Hm].
Defined.

Section WidthZero.
Context {R W M K V : Type} `{Countable K} `{!Rule.Ops R W M K V}.
Variable gt lt : V -> V -> bool.

Lemma max_n_inactive_width (rng : random_source M) width depth :
  (forall n, Rule.width_active width n = false) ->
  forall temp k self s,
    Rule.max_n gt lt rng depth width temp k self s
    = on_fst (Rule.max_n_plain gt depth self) s.
Proof.
  intros Hwidth.
  induction depth as [|depth IH]; intros temp k self s;
    cbn [Rule.max_n Rule.max_n_plain];
    rewrite on_fst_bind; apply bind_ext; intros player s1;
    rewrite on_fst_bind; apply bind_ext; intros legal s2;
    unfold Rule.prune; rewrite Hwidth;
    (rewrite (bind_ok _ _ s2 legal s2) by reflexivity).
  - reflexivity.
  - destruct legal as [|move rest]; [reflexivity|].
    rewrite on_fst_bind. apply bind_cong; [|by intros us []].
    rewrite on_fst_map_each. apply map_each_ext. intros x s3.
    rewrite on_fst_bind. apply bind_ext. intros [] s4.
    rewrite on_fst_bind. apply bind_cong; [apply IH|]. intros u s5.
    rewrite on_fst_bind. apply bind_ext. intros [] s6. by destruct s6.
Qed.

(** X12. A width of 0 does not mean "no branch": [width and ...] is false
    for 0 as it is for [None], so [Rule.max_n] with [width=0] searches
    every legal move at every node, makes no draw from the random
    generator, and ignores [temp] and [k]; negative depths apart, it is the
    plain search. *)
Theorem max_n_width_zero_is_unpruned (rng : random_source M) (depth : nat)
    (temp : Q) (k : nat) (self : R) (w : W) (draws : nat) :
  Rule.max_n gt lt rng depth (Some 0) temp k self (w, draws)
  = Rule.max_n gt lt rng depth None temp k self (w, draws)
  /\ Rule.max_n gt lt rng depth (Some 0) temp k self (w, draws)
     = (fst (Rule.max_n_plain gt depth self w),
        (snd (Rule.max_n_plain gt depth self w), draws)).
Proof.
  rewrite !max_n_inactive_width by done. split; [reflexivity|].
  unfold on_fst. cbn [fst snd]. by destruct (Rule.max_n_plain gt depth self w).
Qed.
End WidthZero.

Lemma strongly_sorted_app_elem {A} (R : A -> A -> Prop) (l1 l2 : list A) (x1 x2 : A) :
  StronglySorted R (l1 ++ l2) -> x1 ∈ l1 -> x2 ∈ l2 -> R x1 x2.
Proof.
  induction l1 as [|a l1 IH]; intros Hsorted H1 H2.
  - by apply elem_of_nil in H1.
  - simpl in Hsorted. inversion Hsorted as [|? ? Hrest Hall]; subst.
    apply elem_of_cons in H1 as [->|H1]; [|by apply IH].
    rewrite Forall_forall in Hall. apply Hall, elem_of_app. by right.
Qed.

Section HeuristicPrune.
Context {R W M K V : Type} `{Countable K} `{!Rule.Ops R W M K V}.
Variable gt lt : V -> V -> bool.

(** [<] on utilities is a strict weak order. *)
Hypothesis lt_asym : forall a b, lt a b = true -> lt b a = false.
Hypothesis not_lt_trans : forall a b c,
  lt b a = false -> lt c b = false -> lt c a = false.

Lemma ascending_trans (x y z : V * M) :
  ascending lt x y -> ascending lt y z -> ascending lt x z.
Proof. unfold ascending. intros Hxy Hyz. by apply not_lt_trans with (fst y). Qed.

(** X13. The heuristic branch of the pruning keeps the lowest-valued
    moves.  [sorted(legal, key=evaluate)] is ascending and [[:width]] takes
    its head: with [0 <= width], the moves kept are [min(width, len(legal))]
    moves of [legal], and no move dropped has an evaluation for the player
    to move below that of a move kept. *)
Theorem heuristic_prune_keeps_the_lowest (k : nat) (self : R) (player : K)
    (legal : list M) (width : Z) (w : W) (keys : list V) :
  Forall2 (fun m key => Rule.evaluate gt k self player m w = (inr key, w))
    legal keys ->
  0 <= width ->
  exists kept dropped : list (V * M),
    Rule.heuristic_prune gt lt k self player legal width w = (inr (map snd kept), w)
    /\ Permutation (kept ++ dropped) (zip keys legal)
    /\ length kept = Nat.min (Z.to_nat width) (length legal)
    /\ forall x y, x ∈ kept -> y ∈ dropped -> lt (fst y) (fst x) = false.
Proof.
  intros Hkeys Hwidth.
  set (sorted := fold_left (fun acc x => insert_by_key lt x acc) (zip keys legal) []).
  exists (take (Z.to_nat width) sorted), (drop (Z.to_nat width) sorted).
  assert (Permutation sorted (zip keys legal)) as Hperm.
  { subst sorted. rewrite insert_all_perm. by rewrite app_nil_r. }
  split; [|split; [|split]].
  - unfold Rule.heuristic_prune, bind.
    rewrite (map_each_stable _ _ _ _ Hkeys). unfold ret. f_equal. f_equal.
    unfold slice_to, sorted_by_key. fold sorted.
    replace (0 <=? width) with true by (symmetry; by apply Z.leb_le).
    symmetry. apply fmap_take.
  - by rewrite take_drop.
  - rewrite length_take. f_equal.
    rewrite (Permutation_length Hperm), length_zip_with.
    apply Forall2_length in Hkeys. lia.
  - intros x y Hx Hy.
    assert (StronglySorted (ascending lt) sorted) as Hsorted.
    { apply Sorted_StronglySorted.
      - intros a b c. apply ascending_trans.
      - subst sorted. apply insert_all_sorted; [exact lt_asym | constructor]. }
    rewrite <- (take_drop (Z.to_nat width) sorted) in Hsorted.
    by apply (strongly_sorted_app_elem _ _ _ _ _ Hsorted Hx Hy).
Qed.
End HeuristicPrune.

Lemma Qltb_asym (a b : Q) : Qltb a b = true -> Qltb b a = false.
Proof.
  unfold Qltb. intros Hab. apply negb_true_iff in Hab. apply negb_false_iff.
  apply Qle_bool_iff. destruct (Qlt_le_dec b a) as [Hlt|Hle]; [|exact Hle].
  apply Qlt_le_weak in Hlt. apply Qle_bool_iff in Hlt. congruence.
Qed.

Lemma Qltb_not_lt_trans (a b c : Q) :
  Qltb b a = false -> Qltb c b = false -> Qltb c a = false.
Proof.
  unfold Qltb. rewrite !negb_false_iff, !Qle_bool_iff.
  intros Hab Hbc. by apply Qle_trans with b.
Qed.

(** From the root of [ThreeMoves] with [width=2]: the moves worth 0.2 and
    0.6 to the player to move are kept, the move worth 0.9 is dropped. *)
Lemma heuristic_prune_keeps_the_lowest_witness :
  exists kept dropped : list (Q * nat),
    Rule.heuristic_prune (Ops0 := ThreeMoves.ops) Qgtb Qltb 1 tt "A" [1; 2; 3]%nat 2 0%nat
      = (inr (map snd kept), 0%nat)
    /\ Permutation (kept ++ dropped)
         (zip [2 # 10; 6 # 10; 9 # 10]%Q [1; 2; 3]%nat)
    /\ length kept = Nat.min (Z.to_nat 2) (length [1; 2; 3]%nat)
    /\ forall x y, x ∈ kept -> y ∈ dropped -> Qltb (fst y) (fst x) = false.
Proof.
  apply (heuristic_prune_keeps_the_lowest (H0 := ThreeMoves.ops) Qgtb Qltb
           Qltb_asym Qltb_not_lt_trans 1 tt "A" [1; 2; 3]%nat 2 0%nat
           [2 # 10; 6 # 10; 9 # 10]%Q).
  - repeat constructor.
  - lia.
Defined.

Section ExploreBelowRoot.
Context {R W M K V : Type} `{Countable K} `{!Rule.Ops R W M K V}.
Variable gt lt : V -> V -> bool.
Variable evaluate_game : R -> prog W (gmap K V).
Variable get_player : R -> prog W K.

(** X14. [Evaluator.explore] cannot look below the root.  Its recursive
    call leaves out the [game] argument, so at any depth of 1 or more, in
    a position with a legal move and no pruning ([width] negative, as by
    default, or at least the number of moves), it executes the first
    legal move and raises [AttributeError]: no value is returned, and the
    game is left with that move made and not undone. *)
Theorem explore_raises_below_the_root (rng : random_source M) (game : R)
    (depth : nat) (width : Z) (temp : Q) (k : nat) (player : K)
    (m : M) (rest : list M) (w w1 : W) (draws : nat) :
  get_player game w = (inr player, w) ->
  Rule.get_legal_moves game w = (inr (m :: rest), w) ->
  width < 0 \/ Z.of_nat (length (m :: rest)) <= width ->
  Rule.execute_move game m w = (inr tt, w1) ->
  Evaluator.explore gt lt evaluate_game get_player rng game (S depth) width temp k
    (w, draws)
  = (inl AttributeError, (w1, draws)).
Proof.
  intros Hplayer Hlegal Hwidth Hexec.
  unfold Evaluator.explore.
  rewrite (bind_ok _ _ (w, draws) player (w, draws))
    by (by apply on_fst_run).
  rewrite (bind_ok _ _ (w, draws) (m :: rest) (w, draws))
    by (by apply on_fst_run).
  unfold Evaluator.explore_prune.
  replace ((0 <=? width) && (width <? Z.of_nat (length (m :: rest)))) with false.
  2: { symmetry. apply andb_false_iff.
       destruct Hwidth; [left; by apply Z.leb_gt | right; by apply Z.ltb_ge]. }
  rewrite (bind_ok _ _ (w, draws) (m :: rest) (w, draws)) by reflexivity.
  apply on_fst_run.
  cbn [Evaluator.explore_tail map_each]. unfold bind at 1 2 3.
  rewrite Hexec. reflexivity.
Qed.
End ExploreBelowRoot.

Lemma explore_raises_below_the_root_witness :
  Evaluator.explore (H0 := ThreeMoves.ops) Qgtb Qltb (Rule.get_utility (Ops := ThreeMoves.ops))
    (fun _ w => (inr "A", w)) ThreeMoves.low tt 1 (-1) 1 1 (0%nat, 0%nat)
  = (inl AttributeError, (1%nat, 0%nat)).
Proof.
  apply (explore_raises_below_the_root (H0 := ThreeMoves.ops) Qgtb Qltb
           (Rule.get_utility (Ops := ThreeMoves.ops)) (fun _ w => (inr "A", w)) ThreeMoves.low tt 0 (-1) 1 1
           "A" 1%nat [2; 3]%nat 0%nat 1%nat 0%nat).
  - reflexivity.
  - reflexivity.
  - left. lia.
  - reflexivity.
Defined.

(** ** The iterative search computes the value of the game tree *)

Lemma py_index_from_end {A} (before after : list A) (x : A) :
  py_index (before ++ x :: after) (- Z.of_nat (S (length after))) = inr x.
Proof.
  unfold py_index. cbv zeta.
  replace (0 <=? - Z.of_nat (S (length after))) with false
    by (symmetry; apply Z.leb_gt; lia).
  rewrite length_app. cbn [length].
  replace (Z.of_nat (length before + S (length after)) + - Z.of_nat (S (length after)))
    with (Z.of_nat (length before)) by lia.
  replace (Z.of_nat (length before) <? 0) with false
    by (symmetry; apply Z.ltb_ge; lia).
  rewrite Nat2Z.id. by rewrite list_lookup_middle.
Qed.

Lemma py_index_last {A} (l : list A) (x : A) : py_index (l ++ [x]) (-1) = inr x.
Proof. apply (py_index_from_end l [] x). Qed.

Lemma py_index_second_last {A} (l : list A) (x y : A) :
  py_index (l ++ [x; y]) (-2) = inr x.
Proof. apply (py_index_from_end l [y] x). Qed.

Lemma set_last_snoc {A} (l : list A) (x y : A) :
  Game.set_last (l ++ [x]) y = l ++ [y].
Proof.
  unfold Game.set_last. rewrite length_app. cbn [length].
  replace (pred (length l + 1)) with (length l + 0)%nat by lia.
  by rewrite insert_app_r.
Qed.

Lemma pop_last_snoc {A} (l : list A) (x : A) :
  Game.pop_last (l ++ [x]) = inr (x, l).
Proof. unfold Game.pop_last. by rewrite py_index_last, removelast_last. Qed.

Section IterativeSearch.
Context {W M K V : Type} `{Countable K} `{!Game.Ops W M K V}.
Variable gt : V -> V -> bool.
Variables (moves : W -> list M) (child : W -> M -> W) (value : W -> gmap K V).
Variable max_depth : Z.

(** The methods of the game are the functions [moves], [child] and
    [value] of the state: listing the moves and evaluating change
    nothing, a legal move leads to the child position, and [revert]
    leads back from it. *)
Hypothesis legal_moves_spec : forall w, Game.legal_moves w = (inr (moves w), w).
Hypothesis utility_spec : forall w, Game.utility w = (inr (value w), w).
Hypothesis make_move_spec : forall w m,
  m ∈ moves w -> Game.make_move m w = (inr tt, child w m).
Hypothesis revert_spec : forall w m,
  m ∈ moves w -> Game.revert (child w m) = (inr tt, w).

Implicit Types (w p : W) (m : M) (ms : list M) (mt : list (list M))
  (ut : list (list (gmap K V))) (acc pacc : list (gmap K V)) (dep : Z).

Lemma stays_here mt dep w ms :
  dep = max_depth \/ ms = [] ->
  (if dep =? max_depth then ret false
   else
     unexplored <- lift_result (py_index (mt ++ [ms]) (-1)) ;;
     ret (negb (bool_decide (unexplored = [])))) w
  = (inr false, w).
Proof.
  intros Hend. destruct (dep =? max_depth) eqn:Heq; [done|].
  unfold bind, lift_result, ret. rewrite py_index_last.
  destruct Hend as [->| ->]; [|done]. by rewrite Z.eqb_refl in Heq.
Qed.

Lemma one_pass_down mt ut dep w m rest :
  dep <> max_depth -> m ∈ moves w ->
  Game.one_pass gt max_depth
    {| Game.move_tree := mt ++ [m :: rest]; Game.utility_tree := ut;
       Game.depth := dep |} w
  = (inr (Game.Continue
            {| Game.move_tree := (mt ++ [rest]) ++ [moves (child w m)];
               Game.utility_tree := ut ++ [[]];
               Game.depth := dep + 1 |}), child w m).
Proof.
  intros Hdep Hm. unfold Game.one_pass, bind, get_state, lift_result, ret.
  cbn [Game.depth Game.move_tree Game.utility_tree].
  replace (dep =? max_depth) with false by (symmetry; by apply Z.eqb_neq).
  rewrite py_index_last. cbn [negb bool_decide decide_rel].
  rewrite bool_decide_eq_false_2 by done. cbn [negb].
  unfold Game.go_down, bind, lift_result, ret.
  cbn [Game.depth Game.move_tree Game.utility_tree].
  rewrite py_index_last, (make_move_spec w m Hm), legal_moves_spec.
  by rewrite set_last_snoc.
Qed.

Lemma one_pass_up mt ut dep p m ms pacc acc :
  dep <> 0 -> dep = max_depth \/ ms = [] -> m ∈ moves p ->
  Game.one_pass gt max_depth
    {| Game.move_tree := mt ++ [ms]; Game.utility_tree := ut ++ [pacc; acc];
       Game.depth := dep |} (child p m)
  = match dictionary_max gt (Game.player_to_move (child p m))
            (Game.handed_up moves value max_depth dep (child p m) acc) with
    | inr best =>
        (inr (Game.Continue
                {| Game.move_tree := mt;
                   Game.utility_tree := ut ++ [pacc ++ [best]];
                   Game.depth := dep - 1 |}), p)
    | inl e => (inl e, p)
    end.
Proof.
  intros Hdep Hend Hm. unfold Game.one_pass.
  rewrite (bind_ok _ _ (child p m) (child p m) (child p m)) by reflexivity.
  cbn [Game.depth Game.move_tree Game.utility_tree].
  rewrite (bind_ok _ _ (child p m) false (child p m)) by (by apply stays_here).
  unfold Game.go_up, bind, lift_result, ret.
  cbn [Game.depth Game.move_tree Game.utility_tree].
  rewrite legal_moves_spec. unfold Game.handed_up.
  replace (negb (dep =? 0)) with true
    by (symmetry; by apply negb_true_iff, Z.eqb_neq).
  replace (ut ++ [pacc; acc]) with ((ut ++ [pacc]) ++ [acc])
    by (by rewrite <- app_assoc).
  destruct (bool_decide (moves (child p m) = []) || (dep =? max_depth)).
  - rewrite py_index_last, utility_spec, set_last_snoc, (revert_spec p m Hm).
    rewrite <- app_assoc. cbn [app].
    rewrite py_index_second_last.
    replace (ut ++ [pacc; acc ++ [value (child p m)]])
      with ((ut ++ [pacc]) ++ [acc ++ [value (child p m)]])
      by (by rewrite <- app_assoc).
    rewrite pop_last_snoc. cbn [fst snd].
    destruct (dictionary_max gt _ _) as [e|best]; [done|].
    by rewrite pop_last_snoc, set_last_snoc.
  - rewrite (revert_spec p m Hm).
    rewrite <- app_assoc. cbn [app]. rewrite py_index_second_last.
    replace (ut ++ [pacc; acc]) with ((ut ++ [pacc]) ++ [acc])
      by (by rewrite <- app_assoc).
    rewrite pop_last_snoc. cbn [fst snd].
    destruct (dictionary_max gt _ _) as [e|best]; [done|].
    by rewrite pop_last_snoc, set_last_snoc.
Qed.

Lemma one_pass_root mt ut w ms acc :
  0 = max_depth \/ ms = [] ->
  Game.one_pass gt max_depth
    {| Game.move_tree := mt ++ [ms]; Game.utility_tree := ut ++ [acc];
       Game.depth := 0 |} w
  = (match dictionary_max gt (Game.player_to_move w) (Game.handed_up moves value max_depth 0 w acc) with
     | inr best => inr (Game.Break best)
     | inl e => inl e
     end, w).
Proof.
  intros Hend. unfold Game.one_pass.
  rewrite (bind_ok _ _ w w w) by reflexivity.
  cbn [Game.depth Game.move_tree Game.utility_tree].
  rewrite (bind_ok _ _ w false w) by (by apply stays_here).
  unfold Game.go_up, bind, lift_result, ret.
  cbn [Game.depth Game.move_tree Game.utility_tree].
  rewrite legal_moves_spec. unfold Game.handed_up.
  change (negb (0 =? 0)) with false. cbv iota.
  destruct (bool_decide (moves w = []) || (0 =? max_depth)).
  - rewrite py_index_last, utility_spec, set_last_snoc, py_index_last.
    by destruct (dictionary_max gt _ _).
  - rewrite py_index_last. by destruct (dictionary_max gt _ _).
Qed.

Lemma loop_pass fuel (f : Game.frame) w :
  Game.loop gt (S fuel) max_depth f w
  = match Game.one_pass gt max_depth f w with
    | (inr (Game.Continue f'), w') => Game.loop gt fuel max_depth f' w'
    | (inr (Game.Break best), w') => (inr best, w')
    | (inl e, w') => (inl e, w')
    end.
Proof.
  cbn [Game.loop]. unfold bind.
  by destruct (Game.one_pass gt max_depth f w) as [[e|[f'|best]] w'].
Qed.

(** The search of the remaining children of a position, given that of
    each child. *)
Lemma children_searched (levels : nat) :
  (forall p m mt ut pacc dep fuel,
     m ∈ moves p -> dep = max_depth - Z.of_nat levels -> 1 <= dep ->
     match Game.tree_value gt moves child value Game.player_to_move levels (child p m) with
     | inr v =>
         Game.loop gt (Game.passes moves child levels (child p m) + fuel) max_depth
           {| Game.move_tree := mt ++ [moves (child p m)];
              Game.utility_tree := ut ++ [pacc; []];
              Game.depth := dep |} (child p m)
         = Game.loop gt fuel max_depth
             {| Game.move_tree := mt; Game.utility_tree := ut ++ [pacc ++ [v]];
                Game.depth := dep - 1 |} p
     | inl e =>
         fst (Game.loop gt (Game.passes moves child levels (child p m) + fuel) max_depth
                {| Game.move_tree := mt ++ [moves (child p m)];
                   Game.utility_tree := ut ++ [pacc; []];
                   Game.depth := dep |} (child p m)) = inl e
     end) ->
  forall ms w mt ut acc dep fuel,
    (forall m, m ∈ ms -> m ∈ moves w) ->
    dep = max_depth - Z.of_nat (S levels) -> 0 <= dep ->
    match Game.all_results
            (map (fun m => Game.tree_value gt moves child value Game.player_to_move
                             levels (child w m)) ms) with
    | inr vs =>
        Game.loop gt
          (list_sum (map (fun m => S (Game.passes moves child levels (child w m))) ms)
           + fuel) max_depth
          {| Game.move_tree := mt ++ [ms]; Game.utility_tree := ut ++ [acc];
             Game.depth := dep |} w
        = Game.loop gt fuel max_depth
            {| Game.move_tree := mt ++ [[]]; Game.utility_tree := ut ++ [acc ++ vs];
               Game.depth := dep |} w
    | inl e =>
        fst (Game.loop gt
               (list_sum (map (fun m => S (Game.passes moves child levels (child w m))) ms)
                + fuel) max_depth
               {| Game.move_tree := mt ++ [ms]; Game.utility_tree := ut ++ [acc];
                  Game.depth := dep |} w) = inl e
    end.
Proof.
  intros Hsub. induction ms as [|m ms IH]; intros w mt ut acc dep fuel Hms Hdep Hpos.
  - cbn [map Game.all_results list_sum Nat.add]. by rewrite app_nil_r.
  - cbn [map Game.all_results].
    assert (forall x l, list_sum (x :: l) = (x + list_sum l)%nat) as ->
      by reflexivity.
    set (later := list_sum (map (fun m0 => S (Game.passes moves child levels
                                                (child w m0))) ms)) in *.
    replace (S (Game.passes moves child levels (child w m)) + later + fuel)%nat
      with (S (Game.passes moves child levels (child w m) + (later + fuel)))%nat
      by lia.
    rewrite loop_pass, one_pass_down; [|lia|apply Hms; left].
    specialize (Hsub w m (mt ++ [ms]) ut acc (dep + 1) (later + fuel)%nat).
    replace ((ut ++ [acc]) ++ [[]]) with (ut ++ [acc; []])
      by (by rewrite <- app_assoc).
    destruct (Game.tree_value gt moves child value Game.player_to_move levels (child w m))
      as [e|v].
    + apply Hsub; [apply Hms; left | lia | lia].
    + rewrite Hsub; [|apply Hms; left | lia | lia].
      replace (dep + 1 - 1) with dep by lia. subst later.
      specialize (IH w mt ut (acc ++ [v]) dep fuel).
      destruct (Game.all_results _) as [e|vs].
      * apply IH; [|done|done]. intros m' Hm'. apply Hms. by right.
      * rewrite IH; [|intros m' Hm'; apply Hms; by right|done|done].
        by rewrite <- app_assoc.
Qed.

Lemma handed_up_end dep w acc :
  dep = max_depth \/ moves w = [] ->
  Game.handed_up moves value max_depth dep w acc = acc ++ [value w].
Proof.
  unfold Game.handed_up. intros [->|Hnil].
  - by rewrite Z.eqb_refl, orb_true_r.
  - by rewrite bool_decide_eq_true_2.
Qed.

Lemma handed_up_inner dep w acc :
  dep <> max_depth -> moves w <> [] ->
  Game.handed_up moves value max_depth dep w acc = acc.
Proof.
  unfold Game.handed_up. intros Hdep Hmoves.
  rewrite bool_decide_eq_false_2 by done.
  by replace (dep =? max_depth) with false by (symmetry; by apply Z.eqb_neq).
Qed.

Lemma tree_value_end levels w :
  levels = O \/ moves w = [] ->
  Game.tree_value gt moves child value Game.player_to_move levels w
  = dictionary_max gt (Game.player_to_move w) [value w]
  /\ Game.passes moves child levels w = 1%nat.
Proof.
  intros [->|Hnil]; [done|]. destruct levels; [done|].
  cbn [Game.tree_value Game.passes]. by rewrite Hnil.
Qed.

Lemma tree_value_inner levels w :
  moves w <> [] ->
  Game.tree_value gt moves child value Game.player_to_move (S levels) w
  = match Game.all_results
            (map (fun m => Game.tree_value gt moves child value Game.player_to_move
                             levels (child w m)) (moves w)) with
    | inl e => inl e
    | inr utilities => dictionary_max gt (Game.player_to_move w) utilities
    end
  /\ Game.passes moves child (S levels) w
     = S (list_sum (map (fun m => S (Game.passes moves child levels (child w m)))
                      (moves w))).
Proof.
  intros Hmoves. cbn [Game.tree_value Game.passes].
  by destruct (moves w).
Qed.

(** The search of one position below the root: it ends with the value of
    the position appended to the utilities of the parent, in the parent
    position. *)
Lemma subtree_searched (levels : nat) : forall p m mt ut pacc dep fuel,
  m ∈ moves p -> dep = max_depth - Z.of_nat levels -> 1 <= dep ->
  match Game.tree_value gt moves child value Game.player_to_move levels (child p m) with
  | inr v =>
      Game.loop gt (Game.passes moves child levels (child p m) + fuel) max_depth
        {| Game.move_tree := mt ++ [moves (child p m)];
           Game.utility_tree := ut ++ [pacc; []];
           Game.depth := dep |} (child p m)
      = Game.loop gt fuel max_depth
          {| Game.move_tree := mt; Game.utility_tree := ut ++ [pacc ++ [v]];
             Game.depth := dep - 1 |} p
  | inl e =>
      fst (Game.loop gt (Game.passes moves child levels (child p m) + fuel) max_depth
             {| Game.move_tree := mt ++ [moves (child p m)];
                Game.utility_tree := ut ++ [pacc; []];
                Game.depth := dep |} (child p m)) = inl e
  end.
Proof.
  induction levels as [|levels IH]; intros p m mt ut pacc dep fuel Hm Hdep Hnz.
  - destruct (tree_value_end 0 (child p m)) as [-> ->]; [by left|].
    cbn [Nat.add]. rewrite loop_pass, one_pass_up; [|lia|left; lia|done].
    rewrite handed_up_end by (left; lia). cbn [app].
    by destruct (dictionary_max gt _ _).
  - destruct (decide (moves (child p m) = [])) as [Hnil|Hmoves].
    + destruct (tree_value_end (S levels) (child p m)) as [-> ->]; [by right|].
      cbn [Nat.add]. rewrite loop_pass, one_pass_up; [|lia|by right|done].
      rewrite handed_up_end by (by right). cbn [app].
      by destruct (dictionary_max gt _ _).
    + destruct (tree_value_inner levels (child p m) Hmoves) as [-> ->].
      pose proof (children_searched levels IH (moves (child p m)) (child p m)
                    mt (ut ++ [pacc]) [] dep (S fuel)) as Hchildren.
      replace ((ut ++ [pacc]) ++ [[]]) with (ut ++ [pacc; []]) in Hchildren
        by (by rewrite <- app_assoc).
      replace (S (list_sum (map (fun m0 => S (Game.passes moves child levels
                                                 (child (child p m) m0)))
                              (moves (child p m)))) + fuel)%nat
        with (list_sum (map (fun m0 => S (Game.passes moves child levels
                                            (child (child p m) m0)))
                          (moves (child p m))) + S fuel)%nat by lia.
      destruct (Game.all_results _) as [e|vs].
      * apply Hchildren; [done|lia|lia].
      * rewrite Hchildren; [|done|lia|lia]. cbn [app].
        replace ((ut ++ [pacc]) ++ [vs]) with (ut ++ [pacc; vs])
          by (by rewrite <- app_assoc).
        rewrite loop_pass, one_pass_up; [|lia|by right|done].
        rewrite handed_up_inner; [|lia|done].
        by destruct (dictionary_max gt _ _).
Qed.

(** X15. The iterative search computes the value of the game tree.  For a
    game whose methods are functions of the state, with [revert] leading
    back from the position a legal move leads to, and [max_depth >= 0]:
    once the loop is given the passes the tree needs, [n_max] returns, or
    raises, what the docstring describes: end nodes, found by depth or by
    the lack of legal moves, have the value of [utility], and a position
    has the value of the child that [dictionary_max] selects for its
    player to move.  When it returns, the game state is the one it was
    given. *)
Theorem n_max_computes_the_tree_value (w : W) (fuel : nat) :
  0 <= max_depth ->
  let levels := Z.to_nat max_depth in
  (Game.passes moves child levels w <= fuel)%nat ->
  fst (Game.n_max gt fuel max_depth w)
  = Game.tree_value gt moves child value Game.player_to_move levels w
  /\ forall v,
       Game.tree_value gt moves child value Game.player_to_move levels w = inr v ->
       Game.n_max gt fuel max_depth w = (inr v, w).
Proof.
  intros Hdepth levels Hfuel.
  assert (Game.n_max gt fuel max_depth w
          = Game.loop gt fuel max_depth
              {| Game.move_tree := [] ++ [moves w]; Game.utility_tree := [] ++ [[]];
                 Game.depth := 0 |} w) as ->.
  { unfold Game.n_max, bind. by rewrite legal_moves_spec. }
  replace fuel with (Game.passes moves child levels w
                     + (fuel - Game.passes moves child levels w))%nat by lia.
  generalize (fuel - Game.passes moves child levels w)%nat as spare. intros spare.
  destruct (decide (levels = O \/ moves w = [])) as [Hend|Hinner].
  - destruct (tree_value_end levels w Hend) as [-> ->].
    cbn [Nat.add]. rewrite loop_pass, one_pass_root by (destruct Hend; [left; lia | by right]).
    rewrite handed_up_end by (destruct Hend; [left; lia | by right]). cbn [app].
    destruct (dictionary_max gt _ _) as [e|best]; (split; [done|]);
      intros v Hv; [discriminate | by injection Hv as ->].
  - destruct levels as [|levels'] eqn:Hlevels; [by destruct Hinner; left|].
    assert (moves w <> []) as Hmoves by (intros Hnil; apply Hinner; by right).
    destruct (tree_value_inner levels' w Hmoves) as [-> ->].
    pose proof (children_searched levels' (subtree_searched levels')
                  (moves w) w [] [] [] 0 (S spare)) as Hchildren.
    replace (S (list_sum (map (fun m => S (Game.passes moves child levels' (child w m)))
                            (moves w))) + spare)%nat
      with (list_sum (map (fun m => S (Game.passes moves child levels' (child w m)))
                        (moves w)) + S spare)%nat by lia.
    destruct (Game.all_results _) as [e|vs].
    + split; [|discriminate]. apply Hchildren; [done|lia|lia].
    + rewrite Hchildren; [|done|lia|lia]. cbn [app].
      rewrite loop_pass.
      pose proof (one_pass_root [] [] w [] vs (or_intror eq_refl)) as Hroot.
      cbn [app] in Hroot. rewrite Hroot.
      rewrite handed_up_inner; [|lia|done].
      destruct (dictionary_max gt (Game.player_to_move w) vs) as [e|best];
        cbn [fst]; (split; [reflexivity|]);
        intros v Hv; [discriminate | by injection Hv as ->].
Qed.

(** X16. At an end node the iterative search still goes through
    [dictionary_max]: called on a position without legal moves, or with
    [max_depth = 0], [n_max] returns the position's utility when it has an
    entry for the player to move, raises [KeyError] when it has none, and
    leaves the game state as it was.  One pass of the loop is enough. *)
Theorem n_max_at_an_end_node (w : W) (fuel : nat) :
  max_depth = 0 \/ moves w = [] ->
  Game.n_max gt (S fuel) max_depth w
  = (match value w !! Game.player_to_move w with
     | Some _ => inr (value w)
     | None => inl KeyError
     end, w).
Proof.
  intros Hend.
  unfold Game.n_max. rewrite (bind_ok _ _ w (moves w) w) by apply legal_moves_spec.
  rewrite loop_pass.
  pose proof (one_pass_root [] [] w (moves w) []) as Hroot.
  cbn [app] in Hroot. rewrite Hroot by (destruct Hend; [left; lia | by right]).
  rewrite handed_up_end by (destruct Hend; [left; lia | by right]).
  cbn [app dictionary_max dictionary_max_loop]. unfold getitem.
  destruct (value w !! Game.player_to_move w) as [x|]; [|done].
  by destruct (gt x x).
Qed.
End IterativeSearch.

Lemma n_max_computes_the_tree_value_witness :
  Game.n_max (Ops0 := TwoPlies.ops) Qgtb 25 2 []
  = (inr (ThreeMoves.utility_of 1), []).
Proof.
  refine (proj2 (n_max_computes_the_tree_value (H0 := TwoPlies.ops) Qgtb
                   TwoPlies.moves (fun w m => m :: w) TwoPlies.value 2
                   _ _ _ _ [] 25 _ _) (ThreeMoves.utility_of 1) _).
  - reflexivity.
  - reflexivity.
  - reflexivity.
  - reflexivity.
  - lia.
  - vm_compute. lia.
  - vm_compute. reflexivity.
Defined.

Lemma n_max_at_an_end_node_witness :
  Game.n_max (Ops0 := TwoPlies.ops) Qgtb 1 5 [3; 1]%nat
  = (inr (ThreeMoves.utility_of 3), [3; 1]%nat).
Proof.
  refine (n_max_at_an_end_node (H0 := TwoPlies.ops) Qgtb
            TwoPlies.moves TwoPlies.value 5 _ _ [3; 1]%nat 0 _).
  - reflexivity.
  - reflexivity.
  - by right.
Defined.

(** ** Captures: the registry after a round trip, and who attacks whom *)

Section CaptureRoundTrip.
Context {P F Sh : Type} (pol : policies P F Sh).
Implicit Types (w : world P F Sh) (r x : rule P F Sh) (m : move) (caps : list pid).

Lemma filter_keeps_all {A} (Q : A -> Prop) `{!forall a, Decision (Q a)} (l : list A) :
  (forall b, b ∈ l -> Q b) -> filter Q l = l.
Proof.
  induction l as [|y l IH]; intros Hall; [reflexivity|].
  rewrite filter_cons_True by (apply Hall; left).
  f_equal. apply IH. intros b Hb. apply Hall. by right.
Qed.

Lemma for_each_remove_rules caps : forall w,
  for_each caps GameState.remove_rules w
  = (inr tt, with_top_rules (filter (fun q => q ∉ caps)) w).
Proof.
  induction caps as [|c caps IH]; intros w.
  - cbn [for_each]. unfold ret. f_equal. destruct w as [ps top lg].
    unfold with_top_rules. cbn [pieces top_rules log]. f_equal.
    symmetry. apply filter_keeps_all. intros q _. apply not_elem_of_nil.
  - cbn [for_each]. unfold bind. unfold GameState.remove_rules at 1, modify.
    rewrite IH. f_equal. unfold with_top_rules. cbn [pieces top_rules log]. f_equal.
    rewrite list_filter_filter. apply list_filter_iff. intros q.
    rewrite not_elem_of_cons. tauto.
Qed.

Lemma for_each_add_rules caps : forall w,
  for_each caps GameState.add_rules w
  = (inr tt, with_top_rules (fun active => active ++ caps) w).
Proof.
  induction caps as [|c caps IH]; intros w.
  - cbn [for_each]. unfold ret. f_equal. destruct w as [ps top lg].
    unfold with_top_rules. cbn [pieces top_rules log]. by rewrite app_nil_r.
  - cbn [for_each]. unfold bind. unfold GameState.add_rules at 1, modify.
    rewrite IH. f_equal. unfold with_top_rules. cbn [pieces top_rules log].
    by rewrite <- app_assoc.
Qed.

Lemma rule_at_ext w w' self : pieces w = pieces w' -> rule_at w self = rule_at w' self.
Proof. unfold rule_at. by intros ->. Qed.

Lemma coordinate_class_set_coords cs r :
  coordinate_class (set_coords cs r) = coordinate_class r.
Proof. by destruct r. Qed.

(** Moving a piece changes the class of no rule object. *)
Lemma rule_at_after_move w w' i cs self r :
  pieces w' = alter (set_coords cs) i (pieces w) ->
  rule_at w self = Some r ->
  exists r', rule_at w' self = Some r'
             /\ coordinate_class r' = coordinate_class r.
Proof.
  intros Hpieces Hr. destruct self as [j d].
  destruct (decide (j = i)) as [->|Hne].
  - rewrite (rule_at_ext w' (with_pieces (alter (set_coords cs) i) w)) by done.
    rewrite rule_at_moved, Hr. eexists. split; [reflexivity|].
    apply coordinate_class_set_coords.
  - exists r. split; [|done]. unfold rule_at in *. cbn [fst snd] in *.
    by rewrite Hpieces, lookup_alter_ne.
Qed.

Lemma alter_set_coords_twice (ps : gmap pid (rule P F Sh)) (i : pid) (cs cs' : coords) :
  alter (set_coords cs) i (alter (set_coords cs') i ps) = alter (set_coords cs) i ps.
Proof.
  apply map_eq. intros j. destruct (decide (j = i)) as [->|Hne].
  - rewrite !lookup_alter_eq. destruct (ps !! i); simpl; [|done].
    by rewrite set_coords_twice.
  - by rewrite !lookup_alter_ne.
Qed.

Lemma alter_set_coords_same (ps : gmap pid (rule P F Sh)) (i : pid) (cs : coords) :
  (get_coords <$> ps !! i) = Some cs -> alter (set_coords cs) i ps = ps.
Proof.
  intros Hcs. apply map_eq. intros j. destruct (decide (j = i)) as [->|Hne].
  - rewrite lookup_alter_eq. destruct (ps !! i) as [top|]; simpl in *; [|done].
    injection Hcs as <-. by rewrite set_coords_get_coords.
  - by rewrite lookup_alter_ne.
Qed.

Lemma filter_put_back (active caps : list pid) :
  NoDup active -> NoDup caps -> (forall q, q ∈ caps -> q ∈ active) ->
  Permutation (filter (fun q => q ∉ caps) active ++ caps) active.
Proof.
  intros Hactive Hcaps Hsub.
  rewrite <- (filter_app_complement (fun q => q ∈ caps) active) at 2.
  rewrite Permutation_app_comm. apply Permutation_app; [|done].
  apply NoDup_Permutation; [done | by apply NoDup_filter |].
  intros q. rewrite list_elem_of_filter. split; [|tauto].
  intros Hq. split; [done | by apply Hsub].
Qed.

(** X17. A capture followed by its undo keeps the active rules.  For a
    capture rule and a move [(sub_rule, (new, old), *captured)] whose
    [sub_rule] is a coordinate rule, [execute_move] then [undo_move]
    succeed; the moved piece ends on [old], so the objects are unchanged
    when [old] was its coordinate; a rule is active afterwards exactly
    when it was active before or is one of the captured pieces; and when
    the captured pieces were active and [old] was the coordinate,
    [get_top_rules] returns for every list of filters the rules it
    returned before.  Nothing is said of the order in which the registry
    lists them. *)
Theorem capture_round_trip_keeps_the_active_rules w (self sub_rule : rref)
    r sub (new old : coords) caps :
  let m := Via sub_rule (Step new old) caps in
  rule_at w self = Some r -> coordinate_class r = false ->
  rule_at w sub_rule = Some sub -> coordinate_class sub = true ->
  exists w2,
    (Piece.execute_move m self ;;; Piece.undo_move m self) w = (inr tt, w2)
    /\ pieces w2 = alter (set_coords old) (fst sub_rule) (pieces w)
    /\ (forall q, q ∈ top_rules w2 <-> q ∈ top_rules w \/ q ∈ caps)
    /\ ((get_coords <$> pieces w !! fst sub_rule) = Some old -> pieces w2 = pieces w)
    /\ ((get_coords <$> pieces w !! fst sub_rule) = Some old ->
        (forall q, q ∈ caps -> q ∈ top_rules w) ->
        forall filters q,
          q ∈ GameState.get_top_rules pol filters w2
          <-> q ∈ GameState.get_top_rules pol filters w).
Proof.
  intros m Hself Hclass Hsub Hsubclass.
  (* execute *)
  set (w0 := with_top_rules (filter (fun q => q ∉ caps)) w).
  assert (rule_at w0 sub_rule = Some sub) as Hsub0
    by (by rewrite (rule_at_ext w0 w)).
  destruct (coordinate_execute_step w0 sub_rule sub new old Hsub0 Hsubclass)
    as [lg1 Hstep1].
  set (w1 := {| pieces := alter (set_coords new) (fst sub_rule) (pieces w);
                top_rules := filter (fun q => q ∉ caps) (top_rules w);
                log := lg1 ++ [Changed self m false] |}).
  assert (Piece.execute_move m self w = (inr tt, w1)) as Hexec.
  { destruct self as [i d]. unfold m. cbn [Piece.execute_move]. rewrite Hself.
    transitivity (CaptureRule.execute_move (i, d) m caps
                    (Piece.execute_move (Step new old) sub_rule) w).
    { by destruct r. }
    unfold CaptureRule.execute_move, bind.
    rewrite for_each_remove_rules. fold w0. rewrite Hstep1. reflexivity. }
  (* undo *)
  destruct (rule_at_after_move w w1 (fst sub_rule) new self r eq_refl Hself)
    as (r1 & Hself1 & Hclass1).
  destruct (rule_at_after_move w w1 (fst sub_rule) new sub_rule sub eq_refl Hsub)
    as (sub1 & Hsub1 & Hsubclass1).
  rewrite Hclass in Hclass1. rewrite Hsubclass in Hsubclass1.
  destruct (coordinate_undo_step w1 sub_rule sub1 new old Hsub1 Hsubclass1)
    as [lg2 Hstep2].
  assert (forall q, q ∈ filter (fun q => q ∉ caps) (top_rules w) ++ caps
                    <-> q ∈ top_rules w \/ q ∈ caps) as Hactive.
  { intros q. rewrite elem_of_app, list_elem_of_filter.
    destruct (decide (q ∈ caps)); tauto. }
  eexists. split; [|split; [|split; [|split]]].
  - unfold bind at 1. rewrite Hexec.
    destruct self as [i d]. unfold m. cbn [Piece.undo_move]. rewrite Hself1.
    transitivity (CaptureRule.undo_move (i, d) m caps
                    (Piece.undo_move (Step new old) sub_rule) w1).
    { by destruct r1. }
    unfold CaptureRule.undo_move, bind.
    rewrite Hstep2, for_each_add_rules. reflexivity.
  - cbn [pieces with_top_rules changed modify]. subst w1. cbn [pieces].
    apply alter_set_coords_twice.
  - exact Hactive.
  - cbn [pieces with_top_rules]. subst w1. cbn [pieces].
    intros Hold. rewrite alter_set_coords_twice. by apply alter_set_coords_same.
  - intros Hold Hcaps filters q. unfold GameState.get_top_rules, GameState.matches.
    rewrite !list_elem_of_filter.
    cbn [pieces top_rules with_top_rules]. subst w1. cbn [pieces top_rules].
    rewrite alter_set_coords_twice, (alter_set_coords_same _ _ _ Hold), Hactive.
    specialize (Hcaps q). tauto.
Qed.
End CaptureRoundTrip.

Lemma capture_round_trip_keeps_the_active_rules_witness :
  let m := Via (0, 1)%nat (Step [1; 0] [0; 0]) [1%nat] in
  exists w2,
    (Piece.execute_move m (0, 0)%nat ;;; Piece.undo_move m (0, 0)%nat)
      Board.capture_position = (inr tt, w2)
    /\ pieces w2 = pieces Board.capture_position
    /\ (forall q, q ∈ top_rules w2 <-> q ∈ top_rules Board.capture_position)
    /\ forall q, q ∈ GameState.get_top_rules (Board.board_policies 3) [tt] w2
                 <-> q ∈ [0; 1]%nat.
Proof.
  intros m.
  destruct (capture_round_trip_keeps_the_active_rules (Board.board_policies 3)
              Board.capture_position (0, 0)%nat (0, 1)%nat
              (SimpleCapture (Some "A") [tt]
                 (PatternRule (Some "A") Board.OneRight (Tile (Some "A") [0; 0])))
              (PatternRule (Some "A") Board.OneRight (Tile (Some "A") [0; 0]))
              [1; 0] [0; 0] [1%nat])
    as (w2 & Hrun & Hpieces & Htop & Hsame & Hlisted); try reflexivity.
  exists w2. split; [exact Hrun|]. split; [by apply Hsame|]. split.
  - intros q. rewrite Htop. split; [|by left].
    intros [Hq|Hq]; [exact Hq|].
    apply list_elem_of_singleton in Hq as ->. right. left.
  - intros q. apply Hlisted; [reflexivity|].
    intros q' Hq'. apply list_elem_of_singleton in Hq' as ->. right. left.
Defined.

Section AttackFacts.
Context {P F Sh : Type} (pol : policies P F Sh).
Implicit Types (w : world P F Sh) (r sub : rule P F Sh) (m : move)
  (self piece : rref).

(** A chain of coordinate rules offers pairs of coordinates only. *)
Lemma coordinate_chain_moves_are_steps fuel i w sub : forall d legal,
  Forall (fun x => coordinate_class x = true) (get_piece sub) ->
  Piece.generate_legal_moves pol fuel i d sub w = inr legal ->
  Forall (fun m => exists new old, m = Step new old) legal.
Proof.
  induction sub as [p cs|p sh sub IH|p radar sub IH|p radar sub IH];
    intros d legal Hchain Hrun.
  - injection Hrun as <-. constructor.
  - cbn [Piece.generate_legal_moves] in Hrun.
    destruct (Piece.generate_legal_moves pol fuel i (S d) sub w) as [e|sub_moves] eqn:Hsub;
      [discriminate|].
    apply IH in Hsub; [|by inversion Hchain].
    destruct (expand_invariant pol sh (PatternRule p sh sub) w sub_moves fuel _ _ _ _
                (invariant_start pol sh (PatternRule p sh sub) w sub_moves) Hrun)
      as (checked & _ & _ & (added & -> & _ & Hadded) & _).
    apply Forall_app. split; [exact Hsub|].
    apply Forall_forall. intros m Hm.
    destruct (Hadded m Hm) as (_ & c & -> & _). by eexists _, _.
  - inversion Hchain as [|? ? Hclass]. discriminate.
  - inversion Hchain as [|? ? Hclass]. discriminate.
Qed.

(** X18. A [NoCapture] rule over coordinate rules offers the moves of its
    sub-rule as they are, pairs of coordinates; it can neither execute
    nor undo any of them, since [CaptureRule.execute_move] takes the
    first component of a move for a rule: both raise [AttributeError] and
    change nothing.  And it attacks no piece. *)
Theorem NoCapture_offers_moves_it_cannot_execute w (fuel : nat) self
    (p : option P) (radar : list F) sub (legal : list move) piece :
  rule_at w self = Some (NoCapture p radar sub) ->
  Forall (fun x => coordinate_class x = true) (get_piece sub) ->
  Piece.get_legal_moves pol fuel self w = (inr legal, w) ->
  Piece.generate_legal_moves pol fuel (fst self) (S (snd self)) sub w = inr legal
  /\ (forall m, m ∈ legal ->
        Piece.execute_move m self w = (inl AttributeError, w)
        /\ Piece.undo_move m self w = (inl AttributeError, w))
  /\ Attack.does_attack_piece pol fuel self piece w = (inr false, w).
Proof.
  intros Hself Hchain Hrun.
  assert (Piece.generate_legal_moves pol fuel (fst self) (S (snd self)) sub w
          = inr legal) as Hsub.
  { unfold Piece.get_legal_moves in Hrun. rewrite Hself in Hrun.
    cbn [Piece.generate_legal_moves] in Hrun.
    destruct (Piece.generate_legal_moves pol fuel (fst self) (S (snd self)) sub w);
      [discriminate|].
    by injection Hrun as <-. }
  pose proof (coordinate_chain_moves_are_steps _ _ _ _ _ _ Hchain Hsub) as Hsteps.
  rewrite Forall_forall in Hsteps.
  split; [exact Hsub|]. split.
  - intros m Hm. destruct (Hsteps m Hm) as (new & old & ->).
    destruct self as [i d]. cbn [Piece.execute_move Piece.undo_move].
    by rewrite Hself.
  - unfold Attack.does_attack_piece. rewrite Hself. unfold bind. rewrite Hrun.
    unfold ret. f_equal. f_equal.
    apply not_true_is_false. intros Hex. apply existsb_exists in Hex as (m & Hm & Hcap).
    apply list_elem_of_In in Hm. destruct (Hsteps m Hm) as (new & old & ->).
    unfold Attack.is_captured in Hcap. apply bool_decide_eq_true in Hcap as [_ Hin].
    by apply elem_of_nil in Hin.
Qed.

(** X19. Whom a [SimpleCapture] rule over coordinate rules attacks: the
    top rule [piece] exactly when [piece] is active, matches the radar of
    the attacker, and stands on the destination of a move of the
    attacker's sub-rule.  Neither the player of [piece] nor whether
    [piece] is the attacker itself is looked at; a rule object that is
    not the top rule of its piece is never attacked. *)
Theorem SimpleCapture_attacks_what_stands_on_a_destination w (fuel : nat) self
    (p : option P) (radar : list F) sub (sub_moves : list move) piece :
  rule_at w self = Some (SimpleCapture p radar sub) ->
  Forall (fun x => coordinate_class x = true) (get_piece sub) ->
  Piece.generate_legal_moves pol fuel (fst self) (S (snd self)) sub w = inr sub_moves ->
  exists attacks,
    Attack.does_attack_piece pol fuel self piece w = (inr attacks, w)
    /\ (attacks = true <->
        snd piece = 0%nat
        /\ (fst piece ∈ top_rules w)
        /\ GameState.matches pol w radar (fst piece) = true
        /\ exists new old,
             (Step new old ∈ sub_moves)
             /\ (get_coords <$> pieces w !! fst piece) = Some new).
Proof.
  intros Hself Hchain Hsub.
  pose proof (coordinate_chain_moves_are_steps _ _ _ _ _ _ Hchain Hsub) as Hsteps.
  rewrite Forall_forall in Hsteps.
  eexists. split.
  - unfold Attack.does_attack_piece. rewrite Hself. unfold bind, Piece.get_legal_moves.
    rewrite Hself. cbn [Piece.generate_legal_moves]. rewrite Hsub. reflexivity.
  - rewrite existsb_exists. split.
    + intros (m & Hm & Hcap). apply list_elem_of_In in Hm.
      unfold SimpleCapture.generate_legal_moves in Hm.
      apply list_elem_of_fmap in Hm as (sub_move & -> & Hin).
      destruct (Hsteps sub_move Hin) as (new & old & ->).
      unfold Attack.is_captured in Hcap.
      apply bool_decide_eq_true in Hcap as [Htop Hcaptured].
      cbn [SimpleCapture.capture_move Attack.pieces_to_capture] in Hcaptured.
      unfold SimpleCapture.to_capture, GameState.get_top_rules in Hcaptured.
      apply list_elem_of_filter in Hcaptured as [Hcoords Hcaptured].
      apply list_elem_of_filter in Hcaptured as [Hmatch Hactive].
      repeat split; try done. by exists new, old.
    + intros (Htop & Hactive & Hmatch & new & old & Hin & Hcoords).
      exists (SimpleCapture.capture_move pol (fst self, S (snd self)) radar w
                (Step new old)).
      split.
      * apply list_elem_of_In. unfold SimpleCapture.generate_legal_moves.
        apply list_elem_of_fmap. by exists (Step new old).
      * unfold Attack.is_captured. apply bool_decide_eq_true. split; [done|].
        cbn [SimpleCapture.capture_move Attack.pieces_to_capture].
        unfold SimpleCapture.to_capture, GameState.get_top_rules.
        apply list_elem_of_filter. split; [done|].
        apply list_elem_of_filter. by split.
Qed.


End AttackFacts.

Lemma NoCapture_offers_moves_it_cannot_execute_witness :
  let m := Step [1; 0] [0; 0] in
  Piece.execute_move m (2, 0)%nat Neighbours.position
    = (inl AttributeError, Neighbours.position)
  /\ Piece.undo_move m (2, 0)%nat Neighbours.position
     = (inl AttributeError, Neighbours.position).
Proof.
  intros m.
  destruct (NoCapture_offers_moves_it_cannot_execute (Board.board_policies 0)
              Neighbours.position 5 (2, 0)%nat (Some "B") [tt]
              (PatternRule (Some "B") Board.OneRight (Tile (Some "B") [0; 0]))
              [m] (0, 0)%nat) as (_ & Hmoves & _).
  - reflexivity.
  - repeat constructor.
  - reflexivity.
  - apply Hmoves. left.
Defined.

(** The capturing piece on (0,0) attacks the piece of its own player on
    (1,0). *)
Lemma SimpleCapture_attacks_what_stands_on_a_destination_witness :
  Attack.does_attack_piece (Board.board_policies 0) 5 (0, 0)%nat (1, 0)%nat
    Neighbours.position = (inr true, Neighbours.position).
Proof.
  destruct (SimpleCapture_attacks_what_stands_on_a_destination
              (Board.board_policies 0) Neighbours.position 5 (0, 0)%nat (Some "A") [tt]
              (PatternRule (Some "A") Board.OneRight (Tile (Some "A") [0; 0]))
              [Step [1; 0] [0; 0]] (1, 0)%nat) as (attacks & Hrun & Hiff).
  - reflexivity.
  - repeat constructor.
  - reflexivity.
  - replace attacks with true in Hrun; [exact Hrun|].
    symmetry. apply Hiff. split; [reflexivity|]. split.
    + apply (bool_decide_unpack _). vm_compute. exact I.
    + split; [reflexivity|]. exists [1; 0], [0; 0]. split; [left | reflexivity].
Defined.


(** ** The chain of a piece *)

Section LinkedRules.
Context {A : Type}.
Implicit Types (r x : Linked.t A) (subs : list (Linked.t A)).

(** Induction over linked rules, the sub-rules of a sum included. *)
Lemma linked_induction (Q : Linked.t A -> Prop) :
  (forall name, Q (Linked.a_Rule name None)) ->
  (forall name sub, Q sub -> Q (Linked.a_Rule name (Some sub))) ->
  (forall name subs, Forall Q subs -> Q (Linked.a_RuleSum name subs)) ->
  forall r, Q r.
Proof.
  intros Hnone Hsome Hsum.
  fix IH 1. intros [name [sub|]|name subs].
  - apply Hsome, IH.
  - apply Hnone.
  - apply Hsum. induction subs as [|sub subs IHsubs]; constructor; [apply IH | exact IHsubs].
Qed.

(** [RuleSum.get_bottom_rule] as the source has it: the bottom rule of
    the last sub-rule, or the sum itself when it has none. *)
Lemma get_bottom_rule_of_sum (name : A) subs :
  Linked.get_bottom_rule (Linked.a_RuleSum name subs)
  = match last subs with
    | Some sub => Linked.get_bottom_rule sub
    | None => Linked.a_RuleSum name subs
    end.
Proof.
  cbn [Linked.get_bottom_rule].
  change (map Linked.get_bottom_rule subs) with (Linked.get_bottom_rule <$> subs).
  rewrite fmap_last. by destruct (last subs).
Qed.

Lemma last_of_sub_pieces subs :
  Forall (fun sub => last (Linked.get_piece sub) = Some (Linked.get_bottom_rule sub)) subs ->
  last (concat (map Linked.get_piece subs)) = last (map Linked.get_bottom_rule subs).
Proof.
  induction 1 as [|sub subs Hsub _ IH]; [reflexivity|].
  cbn [map concat]. rewrite last_app, last_cons, IH, Hsub. reflexivity.
Qed.

Lemma get_piece_last r :
  last (Linked.get_piece r) = Some (Linked.get_bottom_rule r).
Proof.
  induction r as [name|name sub IH|name subs IH] using linked_induction.
  - reflexivity.
  - cbn [Linked.get_piece Linked.get_bottom_rule app]. by rewrite last_cons, IH.
  - cbn [Linked.get_piece Linked.get_bottom_rule app].
    rewrite last_cons, (last_of_sub_pieces _ IH).
    by destruct (last (map Linked.get_bottom_rule subs)).
Qed.

Lemma get_piece_head r : head (Linked.get_piece r) = Some r.
Proof. by destruct r as [name [sub|]|name subs]. Qed.

Lemma get_piece_of_bottom_rule r :
  Linked.get_piece (Linked.get_bottom_rule r) = [Linked.get_bottom_rule r].
Proof.
  induction r as [name|name sub IH|name subs IH] using linked_induction.
  - reflexivity.
  - exact IH.
  - rewrite get_bottom_rule_of_sum. destruct (last subs) as [sub|] eqn:Hlast.
    + rewrite Forall_forall in IH. apply IH.
      apply last_Some in Hlast as [subs' ->]. apply elem_of_app. right. left.
    + apply last_None in Hlast as ->. reflexivity.
Qed.

Lemma elem_of_sub_pieces x subs :
  x ∈ concat (map Linked.get_piece subs) ->
  exists sub, x ∈ Linked.get_piece sub /\ sub ∈ subs.
Proof.
  induction subs as [|sub subs IH]; cbn [map concat]; intros Hx.
  - by apply elem_of_nil in Hx.
  - apply elem_of_app in Hx as [Hx|Hx].
    + exists sub. split; [exact Hx | left].
    + destruct (IH Hx) as (sub' & Hx' & Hsub'). exists sub'. split; [exact Hx' | by right].
Qed.

Lemma get_piece_segment r x :
  x ∈ Linked.get_piece r ->
  exists before after, Linked.get_piece r = before ++ Linked.get_piece x ++ after.
Proof.
  revert x.
  induction r as [name|name sub IH|name subs IH] using linked_induction; intros x Hx.
  - apply list_elem_of_singleton in Hx as ->. exists [], []. by rewrite app_nil_r.
  - cbn [Linked.get_piece app] in Hx. apply elem_of_cons in Hx as [->|Hx].
    + exists [], []. by rewrite app_nil_r.
    + destruct (IH x Hx) as (before & after & Heq).
      exists (Linked.a_Rule name (Some sub) :: before), after.
      cbn [Linked.get_piece app]. by rewrite Heq.
  - cbn [Linked.get_piece app] in Hx. apply elem_of_cons in Hx as [->|Hx].
    + exists [], []. by rewrite app_nil_r.
    + apply elem_of_sub_pieces in Hx as (sub & Hx & Hsub).
      rewrite Forall_forall in IH.
      destruct (IH sub Hsub x Hx) as (before & after & Heq).
      apply list_elem_of_split in Hsub as (subs1 & subs2 & ->).
      exists (Linked.a_RuleSum name (subs1 ++ sub :: subs2)
                :: concat (map Linked.get_piece subs1) ++ before),
             (after ++ concat (map Linked.get_piece subs2)).
      cbn [Linked.get_piece app]. rewrite map_app, concat_app. cbn [map concat].
      rewrite Heq, <- !app_assoc. reflexivity.
Qed.

Lemma get_piece_of_chain r :
  Linked.is_chain r = true ->
  forall d x, Linked.get_piece r !! d = Some x ->
    drop d (Linked.get_piece r) = Linked.get_piece x
    /\ Linked.get_bottom_rule x = Linked.get_bottom_rule r.
Proof.
  induction r as [name|name sub IH|name subs IH] using linked_induction;
    intros Hchain d x Hx.
  - destruct d as [|d]; [|by destruct d]. by injection Hx as <-.
  - destruct d as [|d]; [by injection Hx as <-|].
    cbn [Linked.get_piece app] in Hx |- *. by apply IH.
  - discriminate.
Qed.
End LinkedRules.

(** The chain of a piece of the board is a linked list of rules with one
    sub-rule each. *)
Lemma of_rule_is_chain {P F Sh : Type} (r : rule P F Sh) :
  Linked.is_chain (Linked.of_rule r) = true
  /\ Linked.get_piece (Linked.of_rule r) = map Linked.of_rule (get_piece r)
  /\ Linked.get_bottom_rule (Linked.of_rule r) = Linked.of_rule (get_bottom_rule r).
Proof.
  induction r as [p cs|p sh sub IH|p radar sub IH|p radar sub IH];
    [done|..]; destruct IH as (Hchain & Hpiece & Hbottom);
    cbn [Linked.of_rule Linked.is_chain Linked.get_piece Linked.get_bottom_rule
         get_piece get_bottom_rule map app];
    by rewrite Hpiece.
Qed.

(** Below a [RuleSum] the bottom rule is not common to the rules of
    [get_piece()], and the list from a rule on is not that rule's own. *)
Lemma rule_sum_bottom_rule_is_of_the_last_sub_rule :
  Linked.get_piece Linked.game_over_sum !! 2%nat
    = Some (Linked.a_Rule "rook" (Some (Linked.a_Rule "tile" None)))
  /\ Linked.get_bottom_rule (Linked.a_Rule "rook" (Some (Linked.a_Rule "tile" None)))
     = Linked.a_Rule "tile" None
  /\ Linked.get_bottom_rule Linked.game_over_sum = Linked.a_Rule "king" None
  /\ drop 2 (Linked.get_piece Linked.game_over_sum)
     <> Linked.get_piece (Linked.a_Rule "rook" (Some (Linked.a_Rule "tile" None))).
Proof. by repeat split. Qed.

(** X21. [get_bottom_rule()] is the last element of [get_piece()], as the
    docstring says, for rules linked in any way by [sub_rule], the
    sub-rules of a [RuleSum] included, whose methods are reached by
    dispatch; [get_piece()] starts with the rule itself; the bottom rule
    has no rule below it; and the [get_piece()] of every rule listed is a
    segment of the list.  Where no [RuleSum] is on the way, the list from
    a rule on is that rule's own [get_piece()], and its bottom rule is the
    bottom rule of the whole. *)
Theorem get_bottom_rule_is_last_of_get_piece {A : Type} (r : Linked.t A) :
  last (Linked.get_piece r) = Some (Linked.get_bottom_rule r)
  /\ head (Linked.get_piece r) = Some r
  /\ Linked.get_piece (Linked.get_bottom_rule r) = [Linked.get_bottom_rule r]
  /\ (forall x, x ∈ Linked.get_piece r ->
        exists before after,
          Linked.get_piece r = before ++ Linked.get_piece x ++ after)
  /\ (Linked.is_chain r = true ->
      forall d x, Linked.get_piece r !! d = Some x ->
        drop d (Linked.get_piece r) = Linked.get_piece x
        /\ Linked.get_bottom_rule x = Linked.get_bottom_rule r).
Proof.
  split; [apply get_piece_last|].
  split; [apply get_piece_head|].
  split; [apply get_piece_of_bottom_rule|].
  split; [intros x; apply get_piece_segment | apply get_piece_of_chain].
Qed.

Lemma get_bottom_rule_is_last_of_get_piece_witness :
  Linked.get_piece Linked.game_over_sum !! 4%nat
    = Some (Linked.get_bottom_rule Linked.game_over_sum)
  /\ Linked.get_bottom_rule Linked.game_over_sum = Linked.a_Rule "king" None
  /\ length (Linked.get_piece Linked.game_over_sum) = 5%nat
  /\ drop 1 (Linked.get_piece (Linked.a_Rule "rook" (Some (Linked.a_Rule "tile" None))))
     = Linked.get_piece (Linked.a_Rule "tile" None).
Proof.
  destruct (get_bottom_rule_is_last_of_get_piece Linked.game_over_sum)
    as (Hlast & _).
  destruct (get_bottom_rule_is_last_of_get_piece
              (Linked.a_Rule "rook" (Some (Linked.a_Rule "tile" None))))
    as (_ & _ & _ & _ & Hchain).
  split; [|split; [reflexivity|split; [reflexivity|]]].
  - rewrite <- Hlast. reflexivity.
  - by apply (Hchain eq_refl 1%nat).
Defined.

Section ExploreWidthZero.
Context {R W M K V : Type} `{Countable K} `{!Rule.Ops R W M K V}.
Variable gt lt : V -> V -> bool.
Variable evaluate_game : R -> prog W (gmap K V).
Variable get_player : R -> prog W K.

(** X22. For [Evaluator.explore] a width of 0 does mean "no branch",
    unlike for [Rule.max_n]: [0 <= width < len(legal)] holds, and with
    [temp >= 1] (the default: [random()] is below 1) the moves are
    replaced by [sample(legal, 0)], the empty list.  Whatever the depth,
    [explore] then returns the evaluation of the position it was called
    on, after two draws from the generator, without executing a move. *)
Theorem explore_width_zero_evaluates_the_root (rng : random_source M) (game : R)
    (depth : nat) (temp : Q) (k : nat) (player : K) (m : M) (rest : list M)
    (w : W) (draws : nat) :
  unit_interval rng ->
  (1 <= temp)%Q ->
  get_player game w = (inr player, w) ->
  Rule.get_legal_moves game w = (inr (m :: rest), w) ->
  sample rng (S draws) (m :: rest) 0 = inr [] ->
  Evaluator.explore gt lt evaluate_game get_player rng game depth 0 temp k (w, draws)
  = (fst (evaluate_game game w), (snd (evaluate_game game w), S (S draws))).
Proof.
  intros Hrng Htemp Hplayer Hlegal Hsample.
  unfold Evaluator.explore.
  rewrite (bind_ok _ _ (w, draws) player (w, draws)) by (by apply on_fst_run).
  rewrite (bind_ok _ _ (w, draws) (m :: rest) (w, draws)) by (by apply on_fst_run).
  assert (Evaluator.explore_prune gt lt evaluate_game get_player rng 0 temp k game
            player (m :: rest) (w, draws) = (inr [], (w, S (S draws)))) as Hprune.
  { unfold Evaluator.explore_prune.
    replace ((0 <=? 0) && (0 <? Z.of_nat (length (m :: rest)))) with true
      by (symmetry; apply andb_true_iff; split;
          [reflexivity | apply Z.ltb_lt; simpl; lia]).
    rewrite (bind_ok _ _ (w, draws) draws (w, S draws)) by reflexivity.
    replace (Qltb temp (random rng draws)) with false.
    2: { symmetry. unfold Qltb. apply negb_false_iff, Qle_bool_iff.
         destruct (Hrng draws) as [_ Hlt].
         apply Qle_trans with 1%Q; [by apply Qlt_le_weak | exact Htemp]. }
    rewrite (bind_ok _ _ (w, S draws) (m :: rest) (w, S draws))
      by (by apply on_fst_run).
    rewrite (bind_ok _ _ (w, S draws) (S draws) (w, S (S draws))) by reflexivity.
    unfold lift_result. by rewrite Hsample. }
  rewrite (bind_ok _ _ _ _ _ Hprune).
  unfold on_fst. cbn [fst snd].
  assert (Evaluator.explore_tail gt evaluate_game game depth player [] w
          = evaluate_game game w) as -> by (by destruct depth).
  by destruct (evaluate_game game w).
Qed.
End ExploreWidthZero.

Lemma first_elements_range {M} : unit_interval (first_elements (M := M)).
Proof. intros n. split; [apply Qle_refl | reflexivity]. Qed.

Lemma explore_width_zero_evaluates_the_root_witness :
  Evaluator.explore (H0 := ThreeMoves.ops) Qgtb Qltb
    (Rule.get_utility (Ops := ThreeMoves.ops)) (fun _ w => (inr "A", w))
    first_elements tt 3 0 1 1 (0%nat, 0%nat)
  = (inr (ThreeMoves.utility_of 0), (0%nat, 2%nat)).
Proof.
  apply (explore_width_zero_evaluates_the_root (H0 := ThreeMoves.ops) Qgtb Qltb
           (Rule.get_utility (Ops := ThreeMoves.ops)) (fun _ w => (inr "A", w))
           first_elements tt 3 1 1 "A" 1%nat [2; 3]%nat 0%nat 0%nat).
  - apply first_elements_range.
  - apply Qle_refl.
  - reflexivity.
  - reflexivity.
  - reflexivity.
Defined.

(** ** The ring of players *)

Lemma append_players (n : Z) (k : nat) :
  fold_left (append_player n) (map Z.of_nat (seq 0 k))
    (inr ([SimplePlayer.init None (n + 1)], [0%nat]))
  = inr (SimplePlayer.init None (n + 1)
           :: ((fun j => SimplePlayer.init (Some j) (n - Z.of_nat j)) <$> seq 0 k),
         seq 0 (S k)).
Proof.
  induction k as [|k IH]; [reflexivity|].
  rewrite seq_S, map_app, fold_left_app, IH. cbn [map fold_left].
  change (0 + k)%nat with k.
  unfold append_player.
  destruct (py_index_in_range (seq 0 (S k)) (Z.of_nat k)) as (x & Hx & ->).
  { rewrite length_seq. lia. }
  rewrite Nat2Z.id in Hx. apply lookup_seq in Hx as [-> _].
  f_equal. f_equal.
  - rewrite fmap_app. reflexivity.
  - cbn [length]. rewrite length_fmap, length_seq.
    by rewrite (seq_S (S k) 0).
Qed.

(** X23. [simple_players_from_integer(n)] creates [n + 1] players, not
    [n].  The list returned holds them with the tags 1, 2, ..., n + 1 in
    this order, all distinct objects with the status [PlayOn], and they
    form a ring: [turn()] of each player is the next player of the list,
    and [turn()] of the last one is the first. *)
Theorem simple_players_from_integer_ring (n : nat) :
  exists heap players,
    simple_players_from_integer (Z.of_nat n) = inr (heap, players)
    /\ length players = S n
    /\ NoDup players
    /\ forall i, (i <= n)%nat ->
         exists self player,
           players !! i = Some self
           /\ heap !! self = Some player
           /\ SimplePlayer.tag player = Z.of_nat i + 1
           /\ SimplePlayer.status player = PlayOn
           /\ SimplePlayer.turn heap self = players !! ((i + 1) mod S n)%nat.
Proof.
  unfold simple_players_from_integer, py_range.
  rewrite Nat2Z.id, append_players.
  set (created := SimplePlayer.init None (Z.of_nat n + 1)
                    :: ((fun j => SimplePlayer.init (Some j) (Z.of_nat n - Z.of_nat j))
                          <$> seq 0 n)).
  assert (py_index (seq 0 (S n)) 0 = inr 0%nat) as -> by reflexivity.
  assert (py_index (seq 0 (S n)) (-1) = inr n) as ->.
  { rewrite seq_S. apply py_index_last. }
  eexists _, _. split; [reflexivity|].
  split; [by rewrite length_reverse, length_seq|].
  split; [rewrite reverse_Permutation; apply NoDup_seq|].
  intros i Hi.
  assert (forall j, (j <= n)%nat -> reverse (seq 0 (S n)) !! j = Some (n - j)%nat)
    as Hlist.
  { intros j Hj. rewrite reverse_lookup by (rewrite length_seq; lia).
    rewrite length_seq, lookup_seq_lt by lia. f_equal; lia. }
  destruct (decide (i = n)) as [->|Hlast].
  - (* the last player of the list is the first one created *)
    exists 0%nat, (SimplePlayer.set_next (Some n) (SimplePlayer.init None (Z.of_nat n + 1))).
    rewrite Hlist by lia. replace (n - n)%nat with 0%nat by lia.
    split; [done|]. split; [done|]. split; [cbn; lia|]. split; [done|].
    unfold SimplePlayer.turn. cbn [alter list_alter lookup list_lookup created SimplePlayer.next
                                     SimplePlayer.set_next].
    replace ((n + 1) mod S n)%nat with 0%nat
      by (replace (n + 1)%nat with (S n) by lia; by rewrite Nat.Div0.mod_same).
    rewrite Hlist by lia. do 2 f_equal. lia.
  - (* the others were created with their successor *)
    assert (exists j, (n - i)%nat = S j /\ (j < n)%nat /\ (n - S i)%nat = j)
      as (j & Hj & Hjn & Hnext) by (exists (n - i - 1)%nat; lia).
    exists (n - i)%nat, (SimplePlayer.init (Some j) (Z.of_nat n - Z.of_nat j)).
    rewrite Hlist by lia.
    assert (alter (SimplePlayer.set_next (Some n)) 0%nat created !! (n - i)%nat
            = Some (SimplePlayer.init (Some j) (Z.of_nat n - Z.of_nat j))) as Hobj.
    { rewrite Hj. subst created.
      change (((fun j => SimplePlayer.init (Some j) (Z.of_nat n - Z.of_nat j))
                 <$> seq 0 n) !! j
              = Some (SimplePlayer.init (Some j) (Z.of_nat n - Z.of_nat j))).
      by rewrite list_lookup_fmap, lookup_seq_lt by lia. }
    split; [done|]. split; [exact Hobj|]. split; [cbn; lia|]. split; [done|].
    unfold SimplePlayer.turn. rewrite Hobj. cbn [SimplePlayer.next SimplePlayer.init].
    rewrite Nat.mod_small by lia. rewrite Hlist by lia. f_equal. lia.
Qed.

(** ** Moves and their anti-moves *)

Lemma move_induction (Q : Move.t -> Prop) :
  (forall components, Forall Q components -> Q (Move.CombinationMove components)) ->
  Q Move.Pass ->
  (forall player new_status, Q (Move.PlayerStatusChange player new_status)) ->
  (forall new_player, Q (Move.GameStatePlayerChange new_player)) ->
  forall m, Q m.
Proof.
  intros Hcombination Hpass Hstatus Hplayer.
  fix IH 1. intros [components| |player new_status|new_player].
  - apply Hcombination. induction components as [|c components IHc].
    + constructor.
    + constructor; [apply IH | exact IHc].
  - exact Hpass.
  - apply Hstatus.
  - apply Hplayer.
Qed.

(** What a move does not assign it leaves alone. *)
Lemma execute_move_elsewhere (m : Move.t) : forall s,
  (forall q, Move.sets_status q m = false ->
     Move.status_of (Move.execute_move m s) q = Move.status_of s q)
  /\ (Move.sets_player_to_move m = false ->
      Move.player_to_move (Move.execute_move m s) = Move.player_to_move s).
Proof.
  induction m as [components IH| |player new_status|new_player] using move_induction;
    intros s.
  - cbn [Move.execute_move Move.sets_status Move.sets_player_to_move].
    revert s. induction IH as [|c components Hc _ IHcs]; intros s; [done|].
    cbn [fold_left existsb]. destruct (IHcs (Move.execute_move c s)) as [Hs Hp].
    destruct (Hc s) as [Hcs Hcp]. split.
    + intros q Hq. apply orb_false_iff in Hq as [Hq1 Hq2].
      by rewrite Hs, Hcs.
    + intros Hq. apply orb_false_iff in Hq as [Hq1 Hq2]. by rewrite Hp, Hcp.
  - done.
  - split; [|done]. cbn. intros q Hq. apply bool_decide_eq_false in Hq.
    by destruct (decide (q = player)).
  - split; [done|]. discriminate.
Qed.

(** An anti-move puts back, wherever the move assigns, what was there when
    the anti-move was made. *)
Lemma execute_anti_move (m : Move.t) : forall s s',
  (forall q,
     Move.status_of (Move.execute_move (Move.anti_move s m) s') q
     = if Move.sets_status q m then Move.status_of s q else Move.status_of s' q)
  /\ Move.player_to_move (Move.execute_move (Move.anti_move s m) s')
     = if Move.sets_player_to_move m then Move.player_to_move s
       else Move.player_to_move s'.
Proof.
  induction m as [components IH| |player new_status|new_player] using move_induction;
    intros s s'.
  - cbn [Move.anti_move Move.execute_move Move.sets_status Move.sets_player_to_move].
    revert s'. induction IH as [|c components Hc _ IHcs]; intros s'; [done|].
    cbn [map fold_left existsb].
    destruct (IHcs (Move.execute_move (Move.anti_move s c) s')) as [Hs Hp].
    destruct (Hc s s') as [Hcs Hcp]. split.
    + intros q. rewrite Hs, Hcs.
      by destruct (Move.sets_status q c), (existsb (Move.sets_status q) components).
    + rewrite Hp, Hcp.
      by destruct (Move.sets_player_to_move c),
           (existsb Move.sets_player_to_move components).
  - done.
  - split; [|done]. cbn. intros q.
    destruct (decide (q = player)) as [->|Hne].
    + by rewrite bool_decide_eq_true_2.
    + by rewrite bool_decide_eq_false_2.
  - done.
Qed.

(** X24. An anti-move made before the move is executed undoes it: after
    [anti = move.anti_move()], [move.execute_move()] and
    [anti.execute_move()], every player has the status, and the game state
    the player to move, they had before, for combinations too, whose
    anti-move keeps the order of the components.  An anti-move made after
    the move was executed undoes nothing: executing it changes no status
    and not the player to move. *)
Theorem anti_move_made_before_undoes (m : Move.t) (s : Move.state) :
  let after := Move.execute_move m s in
  let restored := Move.execute_move (Move.anti_move s m) after in
  let too_late := Move.execute_move (Move.anti_move after m) after in
  (forall q, Move.status_of restored q = Move.status_of s q)
  /\ Move.player_to_move restored = Move.player_to_move s
  /\ (forall q, Move.status_of too_late q = Move.status_of after q)
  /\ Move.player_to_move too_late = Move.player_to_move after.
Proof.
  intros after restored too_late.
  destruct (execute_anti_move m s after) as [Hs Hp].
  destruct (execute_anti_move m after after) as [Hs' Hp'].
  destruct (execute_move_elsewhere m s) as [Hes Hep].
  split; [|split; [|split]].
  - intros q. subst restored. rewrite Hs.
    destruct (Move.sets_status q m) eqn:Hq; [done | by apply Hes].
  - subst restored. rewrite Hp.
    destruct (Move.sets_player_to_move m) eqn:Hq; [done | by apply Hep].
  - intros q. subst too_late. rewrite Hs'. by destruct (Move.sets_status q m).
  - subst too_late. rewrite Hp'. by destruct (Move.sets_player_to_move m).
Qed.

(** ** [Game.undo_move] undoes the sub-moves in the order they were made *)

Lemma for_each_on_snd {T S A} (xs : list A) (f : A -> prog S unit) (t : T) :
  forall s, for_each xs (fun a => on_snd (f a)) (t, s)
            = on_snd (for_each xs f) (t, s).
Proof.
  induction xs as [|a xs IH]; intros s; [reflexivity|].
  cbn [for_each]. unfold bind, on_snd at 1 3. cbn [fst snd].
  destruct (f a s) as [[e|[]] s']; [reflexivity|].
  rewrite IH. reflexivity.
Qed.

Section RuleGameFacts.
Context {P F Sh : Type} `{Countable P} {V : Type} (pol : policies P F Sh).
Variable fuel : nat.
Variable utility : rref -> prog (world P F Sh) (gmap (option P) V).
Implicit Types (w : world P F Sh) (x : rule P F Sh) (self : rref)
  (steps : list (coords * coords)).

(** A sequence of pairs of coordinates executed on a coordinate rule
    leaves the piece where the last pair says; undone in the same order,
    it leaves the piece on the old coordinate of the last pair. *)
Lemma coordinate_steps_in_order (undo : bool) steps : forall w self x,
  rule_at w self = Some x -> coordinate_class x = true ->
  exists w',
    for_each (map (fun step => (self, Step (fst step) (snd step))) steps)
      (fun step => if undo then Piece.undo_move (snd step) (fst step)
                   else Piece.execute_move (snd step) (fst step)) w
    = (inr tt, w')
    /\ top_rules w' = top_rules w
    /\ pieces w' = match last steps with
                   | Some step =>
                       alter (set_coords (if undo then snd step else fst step))
                         (fst self) (pieces w)
                   | None => pieces w
                   end.
Proof.
  induction steps as [|[new old] steps IH]; intros w self x Hx Hclass.
  - exists w. by repeat split.
  - cbn [map for_each fst snd]. unfold bind.
    assert (exists lg,
      (if undo then Piece.undo_move (Step new old) self
       else Piece.execute_move (Step new old) self) w
      = (inr tt, {| pieces := alter (set_coords (if undo then old else new))
                                (fst self) (pieces w);
                    top_rules := top_rules w; log := lg |})) as [lg ->].
    { destruct undo;
        [apply (coordinate_undo_step w self x new old Hx Hclass)
        |apply (coordinate_execute_step w self x new old Hx Hclass)]. }
    set (w1 := {| pieces := alter (set_coords (if undo then old else new))
                              (fst self) (pieces w);
                  top_rules := top_rules w; log := lg |}).
    destruct (rule_at_after_move w w1 (fst self) (if undo then old else new)
                self x eq_refl Hx) as (x1 & Hx1 & Hclass1).
    rewrite Hclass in Hclass1.
    destruct (IH w1 self x1 Hx1 Hclass1) as (w' & -> & Htop & Hpieces).
    exists w'. split; [done|]. split; [done|].
    rewrite Hpieces. destruct steps as [|step steps]; [done|].
    rewrite last_cons_cons.
    destruct (last (step :: steps)) eqn:Hlast; [|by apply last_None in Hlast].
    subst w1. cbn [pieces]. apply alter_set_coords_twice.
Qed.

(** X25. [Game.undo_move] undoes the sub-moves of a move in the order in
    which [Game.execute_move] made them, not in the reverse order.  For a
    move whose sub-moves take one coordinate piece along a path,
    [execute_move] makes [move[0]] the sub-rule and leaves the piece at
    the end of the path; [undo_move] then makes [move[1]] the sub-rule
    and leaves the piece on the old coordinate of the last step, which is
    the start of the path only when the path has a single step. *)
Theorem Game_undo_move_keeps_the_order (st : RuleGame.t rref) w self x steps
    (new old : coords) (new_rule old_rule : option rref) :
  rule_at w self = Some x -> coordinate_class x = true ->
  last steps = Some (new, old) ->
  let move :=
    (new_rule, old_rule, map (fun step => (self, Step (fst step) (snd step))) steps) in
  exists w1 w2,
    RuleGame.execute_move (H0 := Piece.ops pol fuel utility) move (st, w)
      = (inr tt, ({| RuleGame.sub_rule := new_rule |}, w1))
    /\ (get_coords <$> pieces w1 !! fst self) = Some new
    /\ RuleGame.undo_move (H0 := Piece.ops pol fuel utility) move
         ({| RuleGame.sub_rule := new_rule |}, w1)
       = (inr tt, ({| RuleGame.sub_rule := old_rule |}, w2))
    /\ (get_coords <$> pieces w2 !! fst self) = Some old
    /\ top_rules w2 = top_rules w.
Proof.
  intros Hx Hclass Hlast move.
  destruct (coordinate_steps_in_order false steps w self x Hx Hclass)
    as (w1 & Hexec & Htop1 & Hpieces1).
  rewrite Hlast in Hpieces1. cbn [fst snd] in Hpieces1.
  destruct (rule_at_after_move w w1 (fst self) new self x Hpieces1 Hx)
    as (x1 & Hx1 & Hclass1).
  rewrite Hclass in Hclass1.
  destruct (coordinate_steps_in_order true steps w1 self x1 Hx1 Hclass1)
    as (w2 & Hundo & Htop2 & Hpieces2).
  rewrite Hlast in Hpieces2. cbn [fst snd] in Hpieces2.
  destruct (rule_at_pieces w (fst self) (snd self) x) as [top Htop];
    [by destruct self|].
  exists w1, w2. split; [|split; [|split; [|split]]].
  - unfold RuleGame.execute_move, bind, RuleGame.set_sub_rule, modify.
    cbn [fst snd move]. rewrite for_each_on_snd. unfold on_snd. cbn [fst snd].
    cbn [Rule.execute_move Piece.ops]. by rewrite Hexec.
  - rewrite Hpieces1, lookup_alter_eq, Htop. cbn. by rewrite get_coords_set_coords.
  - unfold RuleGame.undo_move, bind, RuleGame.set_sub_rule, modify.
    cbn [fst snd move]. rewrite for_each_on_snd. unfold on_snd. cbn [fst snd].
    cbn [Rule.undo_move Piece.ops]. by rewrite Hundo.
  - rewrite Hpieces2, Hpieces1, alter_set_coords_twice, lookup_alter_eq, Htop. cbn.
    by rewrite get_coords_set_coords.
  - by rewrite Htop2, Htop1.
Qed.
End RuleGameFacts.

(** The piece of [Board.lone_piece] taken from (4,4) to (5,4) and on to
    (6,4) is left on (5,4) by the undo. *)
Lemma Game_undo_move_keeps_the_order_witness :
  let move := (Some (0, 0)%nat, None,
               [((0, 0)%nat, Step [5; 4] [4; 4]); ((0, 0)%nat, Step [6; 4] [5; 4])]) in
  exists w1 w2,
    RuleGame.execute_move (H0 := Board.piece_ops 9) move
      ({| RuleGame.sub_rule := None |}, Board.lone_piece true)
      = (inr tt, ({| RuleGame.sub_rule := Some (0, 0)%nat |}, w1))
    /\ (get_coords <$> pieces w1 !! 0%nat) = Some [6; 4]
    /\ RuleGame.undo_move (H0 := Board.piece_ops 9) move
         ({| RuleGame.sub_rule := Some (0, 0)%nat |}, w1)
       = (inr tt, ({| RuleGame.sub_rule := None |}, w2))
    /\ (get_coords <$> pieces w2 !! 0%nat) = Some [5; 4]
    /\ top_rules w2 = top_rules (Board.lone_piece true).
Proof.
  intros move.
  apply (Game_undo_move_keeps_the_order (Board.board_policies 0) 9 Board.no_utility
           {| RuleGame.sub_rule := None |} (Board.lone_piece true) (0, 0)%nat
           (PatternRule (Some "A") Board.AxisStep (Tile (Some "A") [4; 4]))
           [([5; 4], [4; 4]); ([6; 4], [5; 4])] [6; 4] [5; 4]
           (Some (0, 0)%nat) None); reflexivity.
Defined.

(** ** The two searches *)

Section NeverEnding.
Context {W M K V : Type} `{Countable K} `{!Game.Ops W M K V}.
Variable gt : V -> V -> bool.
Variables (moves : W -> list M) (child : W -> M -> W).
Variable max_depth : Z.
Hypothesis legal_moves_spec : forall w, Game.legal_moves w = (inr (moves w), w).
Hypothesis make_move_spec : forall w m,
  m ∈ moves w -> Game.make_move m w = (inr tt, child w m).
Hypothesis always_a_move : forall w, moves w <> [].
Hypothesis negative : max_depth < 0.

Lemma loop_goes_down fuel : forall mt ut dep w,
  0 <= dep ->
  fst (Game.loop gt fuel max_depth
         {| Game.move_tree := mt ++ [moves w]; Game.utility_tree := ut;
            Game.depth := dep |} w) = inl OutOfFuel.
Proof.
  induction fuel as [|fuel IH]; intros mt ut dep w Hdep; [reflexivity|].
  destruct (moves w) as [|m rest] eqn:Hmoves; [by apply always_a_move in Hmoves|].
  rewrite loop_pass.
  rewrite (one_pass_down gt moves child max_depth legal_moves_spec make_move_spec)
    by (first [lia | rewrite Hmoves; left]).
  apply IH. lia.
Qed.

(** X26. A negative [max_depth] is never reached: [depth != max_depth]
    stays true, and in a game in which every position has a legal move
    the loop of [n_max] goes down for ever.  Whatever the number of passes
    it is allowed, it has not returned. *)
Theorem n_max_negative_depth_never_returns (w : W) (fuel : nat) :
  fst (Game.n_max gt fuel max_depth w) = inl OutOfFuel.
Proof.
  unfold Game.n_max.
  rewrite (bind_ok _ _ w (moves w) w) by apply legal_moves_spec.
  apply (loop_goes_down fuel [] [[]] 0 w). lia.
Qed.
End NeverEnding.

Lemma n_max_negative_depth_never_returns_witness :
  fst (Game.n_max (Ops0 := Forever.ops) Qgtb 1000 (-1) 0%nat) = inl OutOfFuel.
Proof.
  apply (n_max_negative_depth_never_returns (H0 := Forever.ops) Qgtb
           (fun _ => [tt]) (fun w _ => S w) (-1)).
  - reflexivity.
  - reflexivity.
  - discriminate.
  - lia.
Defined.

Lemma bind_fails {S A B} (c : prog S A) (k : A -> prog S B) s e :
  fst (c s) = inl e -> fst (bind c k s) = inl e.
Proof.
  unfold bind. destruct (c s) as [[e'|a] s']; cbn [fst]; intros He;
    [by injection He as -> | discriminate].
Qed.

Section RecursiveSearch.
Context {R W M K V : Type} `{Countable K} `{!Rule.Ops R W M K V}.
Variable gt : V -> V -> bool.
Variable self : R.
Variables (moves : W -> list M) (child : W -> M -> W) (value : W -> gmap K V)
  (player : W -> K).

(** The rule presents a game whose methods are functions of the state,
    and every evaluation has an entry for the player to move. *)
Hypothesis get_legal_moves_spec : forall w,
  Rule.get_legal_moves self w = (inr (moves w), w).
Hypothesis get_utility_spec : forall w, Rule.get_utility self w = (inr (value w), w).
Hypothesis execute_move_spec : forall w m,
  m ∈ moves w -> Rule.execute_move self m w = (inr tt, child w m).
Hypothesis undo_move_spec : forall w m,
  m ∈ moves w -> Rule.undo_move self m (child w m) = (inr tt, w).
Hypothesis player_spec : forall w, Rule.max_n_player self w = (inr (player w), w).
Hypothesis value_has_player : forall w, is_Some (value w !! player w).

Lemma tree_value_of_end_node levels w :
  levels = O \/ moves w = [] ->
  Game.tree_value gt moves child value player levels w = inr (value w).
Proof.
  intros Hend.
  assert (Game.tree_value gt moves child value player levels w
          = dictionary_max gt (player w) [value w]) as ->.
  { destruct Hend as [->|Hnil]; [done|]. destruct levels; [done|].
    cbn [Game.tree_value]. by rewrite Hnil. }
  cbn [dictionary_max dictionary_max_loop]. unfold getitem.
  destruct (value_has_player w) as [x ->]. by destruct (gt x x).
Qed.

Lemma children_values levels (ms : list M) w :
  (forall w',
     fst (Rule.max_n_plain gt levels self w')
     = Game.tree_value gt moves child value player levels w'
     /\ forall v, Game.tree_value gt moves child value player levels w' = inr v ->
                  Rule.max_n_plain gt levels self w' = (inr v, w')) ->
  (forall m, m ∈ ms -> m ∈ moves w) ->
  match Game.all_results
          (map (fun m => Game.tree_value gt moves child value player levels (child w m))
             ms) with
  | inr us =>
      map_each ms (fun move =>
        Rule.execute_move self move ;;;
        u <- Rule.max_n_plain gt levels self ;;
        Rule.undo_move self move ;;;
        ret u) w = (inr us, w)
  | inl e =>
      fst (map_each ms (fun move =>
             Rule.execute_move self move ;;;
             u <- Rule.max_n_plain gt levels self ;;
             Rule.undo_move self move ;;;
             ret u) w) = inl e
  end.
Proof.
  intros IH. induction ms as [|m ms IHms]; intros Hms; [reflexivity|].
  cbn [map Game.all_results map_each].
  assert (m ∈ moves w) as Hm by (apply Hms; left).
  destruct (IH (child w m)) as [Hfst Hrun].
  specialize (IHms (fun m' Hm' => Hms m' (list_elem_of_further _ _ _ Hm'))).
  destruct (Game.tree_value gt moves child value player levels (child w m)) as [e|v].
  - apply bind_fails.
    rewrite (bind_ok _ _ w tt (child w m)) by (by apply execute_move_spec).
    by apply bind_fails.
  - rewrite (bind_ok _ _ w v w).
    2: { rewrite (bind_ok _ _ w tt (child w m)) by (by apply execute_move_spec).
         rewrite (bind_ok _ _ (child w m) v (child w m)) by (by apply Hrun).
         by rewrite (bind_ok _ _ (child w m) tt w) by (by apply undo_move_spec). }
    destruct (Game.all_results _) as [e|us].
    + by apply bind_fails.
    + by rewrite (bind_ok _ _ w us w).
Qed.

(** X27. The recursive search of rule.py computes the same value.  For a
    rule whose methods are functions of the state, with [undo_move]
    leading back from the position a legal move leads to, and whose
    evaluations all have an entry for the player to move, [Rule.max_n]
    without width returns, or raises, at every depth what the docstring
    of the iterative [n_max] describes, and so what [n_max] computes for
    the same game; when it returns, the state is the one it started
    from. *)
Theorem max_n_computes_the_tree_value (levels : nat) (w : W) :
  fst (Rule.max_n_plain gt levels self w)
  = Game.tree_value gt moves child value player levels w
  /\ forall v, Game.tree_value gt moves child value player levels w = inr v ->
               Rule.max_n_plain gt levels self w = (inr v, w).
Proof.
  revert w. induction levels as [|levels IH]; intros w.
  - rewrite tree_value_of_end_node by (by left).
    cbn [Rule.max_n_plain]. unfold bind.
    rewrite player_spec, get_legal_moves_spec, get_utility_spec.
    split; [done|]. by intros v [= <-].
  - destruct (decide (moves w = [])) as [Hnil|Hmoves].
    + rewrite tree_value_of_end_node by (by right).
      cbn [Rule.max_n_plain]. unfold bind.
      rewrite player_spec, get_legal_moves_spec, Hnil, get_utility_spec.
      split; [done|]. by intros v [= <-].
    + pose proof (children_values levels (moves w) w IH (fun m Hm => Hm)) as Hchildren.
      assert (Game.tree_value gt moves child value player (S levels) w
              = match Game.all_results
                        (map (fun m => Game.tree_value gt moves child value player
                                         levels (child w m)) (moves w)) with
                | inl e => inl e
                | inr utilities => dictionary_max gt (player w) utilities
                end) as ->.
      { cbn [Game.tree_value]. by destruct (moves w). }
      destruct (moves w) as [|m ms] eqn:Hms; [done|].
      assert (Rule.max_n_plain gt (S levels) self w
              = bind (map_each (m :: ms) (fun move =>
                        Rule.execute_move self move ;;;
                        u <- Rule.max_n_plain gt levels self ;;
                        Rule.undo_move self move ;;;
                        ret u))
                  (fun utilities => lift_result (max_by_key gt (player w) utilities))
                  w) as ->.
      { cbn [Rule.max_n_plain].
        rewrite (bind_ok _ _ w (player w) w) by apply player_spec.
        rewrite (bind_ok _ _ w (m :: ms) w)
          by (by rewrite get_legal_moves_spec, Hms).
        reflexivity. }
      destruct (Game.all_results _) as [e|us].
      * split; [by apply bind_fails | discriminate].
      * rewrite (bind_ok _ _ w us w) by exact Hchildren.
        unfold lift_result. cbn [fst].
        pose proof (dictionary_max_max_by_key gt (player w) us) as Heq.
        split; [by symmetry|]. intros v Hv. by rewrite <- Heq, Hv.
Qed.
End RecursiveSearch.

Lemma max_n_computes_the_tree_value_witness :
  Rule.max_n_plain (Ops0 := TwoPliesRule.ops) Qgtb 2 tt []
  = (inr (ThreeMoves.utility_of 1), [])
  /\ Game.n_max (Ops0 := TwoPlies.ops) Qgtb 25 2 []
     = (inr (ThreeMoves.utility_of 1), []).
Proof.
  split; [|by vm_compute].
  refine (proj2 (max_n_computes_the_tree_value (H0 := TwoPliesRule.ops) Qgtb tt
                   TwoPlies.moves (fun w m => m :: w) TwoPlies.value
                   (fun w => if Nat.even (length w) then "A" else "B")
                   _ _ _ _ _ _ 2 []) (ThreeMoves.utility_of 1) _).
  - reflexivity.
  - reflexivity.
  - reflexivity.
  - reflexivity.
  - reflexivity.
  - intros w. unfold TwoPlies.value.
    destruct (Nat.even (length w)), (hd 0%nat w) as [|[|[|[|n]]]];
      vm_compute; eauto.
  - vm_compute. reflexivity.
Defined.

(** ** The branches the pruned search keeps *)

Lemma strongly_sorted_prefix {A} (R : A -> A -> Prop) (l1 l2 : list A) :
  StronglySorted R (l1 ++ l2) -> StronglySorted R l1.
Proof.
  induction l1 as [|a l1 IH]; intros Hsorted; [constructor|].
  simpl in Hsorted. inversion Hsorted as [|? ? Hrest Hall]; subst.
  constructor; [by apply IH|].
  rewrite Forall_forall in Hall |- *. intros x Hx. apply Hall, elem_of_app. by left.
Qed.

Section SortedPrefix.
Context {A V : Type} (lt : V -> V -> bool).
Hypothesis lt_asym : forall a b, lt a b = true -> lt b a = false.
Hypothesis not_lt_trans : forall a b c,
  lt b a = false -> lt c b = false -> lt c a = false.

(** [sorted(keyed)[:width]] for [0 <= width]: a prefix in ascending order
    of the keys, below which no dropped key lies. *)
Lemma sorted_prefix_is_lowest (keyed : list (V * A)) (width : Z) :
  0 <= width ->
  exists kept dropped : list (V * A),
    slice_to (sorted_by_key lt keyed) width = map snd kept
    /\ Permutation (kept ++ dropped) keyed
    /\ length kept = Nat.min (Z.to_nat width) (length keyed)
    /\ Sorted (ascending lt) kept
    /\ forall x y, x ∈ kept -> y ∈ dropped -> lt (fst y) (fst x) = false.
Proof.
  intros Hwidth.
  set (sorted := fold_left (fun acc x => insert_by_key lt x acc) keyed []).
  assert (Permutation sorted keyed) as Hperm.
  { subst sorted. rewrite insert_all_perm. by rewrite app_nil_r. }
  assert (StronglySorted (ascending lt) (take (Z.to_nat width) sorted
                                         ++ drop (Z.to_nat width) sorted))
    as Hsorted.
  { rewrite take_drop. apply Sorted_StronglySorted.
    - intros x y z. unfold ascending. intros Hxy Hyz.
      by apply not_lt_trans with (fst y).
    - subst sorted. apply insert_all_sorted; [exact lt_asym | constructor]. }
  exists (take (Z.to_nat width) sorted), (drop (Z.to_nat width) sorted).
  split; [|split; [|split; [|split]]].
  - unfold slice_to, sorted_by_key. fold sorted.
    replace (0 <=? width) with true by (symmetry; by apply Z.leb_le).
    symmetry. apply fmap_take.
  - by rewrite take_drop.
  - by rewrite length_take, (Permutation_length Hperm).
  - by apply StronglySorted_Sorted, (strongly_sorted_prefix _ _ _ Hsorted).
  - intros x y Hx Hy. by apply (strongly_sorted_app_elem _ _ _ _ _ Hsorted Hx Hy).
Qed.
End SortedPrefix.

(** C8. With the temperature fixed at a negative value, which makes
    [temp < random()] true for every draw, and a deterministic evaluator,
    two runs of the width-pruned search from the same state, width bound
    and depth, over any two sequences of draws:
    - [Rule.max_n] ends in both runs with the same outcome (the same
      utility vector, or the same exception) and the same state of the
      rules;
    - the pruning step of [Rule.max_n] and that of [Evaluator.explore]
      keep in both runs the same branches: [width] of the legal moves, in
      ascending order of their depth-k evaluation, no dropped move being
      evaluated below a kept one ([<] a strict weak order);
    - [Evaluator.explore] agrees in both runs too, but below the root not
      on a utility vector: the recursive call is written without its
      [game] argument, and at any depth of 1 or more, once the branches
      are selected, the first of them is executed and [AttributeError] is
      raised, in both runs. *)
Theorem pruned_search_is_deterministic {R W M K V : Type} `{Countable K}
    `{!Rule.Ops R W M K V} (gt lt : V -> V -> bool)
    (evaluate_game : R -> prog W (gmap K V)) (get_player : R -> prog W K)
    (rng1 rng2 : random_source M) (temp : Q) :
  unit_interval rng1 ->
  unit_interval rng2 ->
  (temp < 0)%Q ->
  (forall a b, lt a b = true -> lt b a = false) ->
  (forall a b c, lt b a = false -> lt c b = false -> lt c a = false) ->
  (forall depth width k self w n1 n2,
      forget_draws (Rule.max_n gt lt rng1 depth width temp k self (w, n1))
      = forget_draws (Rule.max_n gt lt rng2 depth width temp k self (w, n2)))
  /\ (forall width k self player legal w n1 n2,
      Rule.width_active width (length legal) = true ->
      forget_draws (Rule.prune gt lt rng1 width temp k self player legal (w, n1))
      = Rule.heuristic_prune gt lt k self player legal (default 0 width) w
      /\ forget_draws (Rule.prune gt lt rng2 width temp k self player legal (w, n2))
         = Rule.heuristic_prune gt lt k self player legal (default 0 width) w)
  /\ (forall (width : Z) k self player legal (keys : list V) w n1 n2,
      0 < width < Z.of_nat (length legal) ->
      Forall2 (fun m key => Rule.evaluate gt k self player m w = (inr key, w))
        legal keys ->
      exists kept dropped : list (V * M),
        forget_draws (Rule.prune gt lt rng1 (Some width) temp k self player legal
                        (w, n1)) = (inr (map snd kept), w)
        /\ forget_draws (Rule.prune gt lt rng2 (Some width) temp k self player legal
                           (w, n2)) = (inr (map snd kept), w)
        /\ Permutation (kept ++ dropped) (zip keys legal)
        /\ length kept = Z.to_nat width
        /\ Sorted (ascending lt) kept
        /\ forall x y, x ∈ kept -> y ∈ dropped -> lt (fst y) (fst x) = false)
  /\ (forall game depth width k w n1 n2,
      forget_draws (Evaluator.explore gt lt evaluate_game get_player rng1 game
                      depth width temp k (w, n1))
      = forget_draws (Evaluator.explore gt lt evaluate_game get_player rng2 game
                        depth width temp k (w, n2)))
  /\ (forall width k game player legal w n1 n2,
      Z.leb 0 width && Z.ltb width (Z.of_nat (length legal)) = true ->
      forget_draws (Evaluator.explore_prune gt lt evaluate_game get_player rng1
                      width temp k game player legal (w, n1))
      = Evaluator.explore_heuristic_prune gt lt evaluate_game get_player k game
          player legal width w
      /\ forget_draws (Evaluator.explore_prune gt lt evaluate_game get_player rng2
                         width temp k game player legal (w, n2))
         = Evaluator.explore_heuristic_prune gt lt evaluate_game get_player k game
             player legal width w)
  /\ (forall (width : Z) k game player legal (keys : list V) w n1 n2,
      0 <= width < Z.of_nat (length legal) ->
      Forall2 (fun m key =>
                 Evaluator.explore_evaluate gt evaluate_game get_player k game player m w
                 = (inr key, w)) legal keys ->
      exists kept dropped : list (V * M),
        forget_draws (Evaluator.explore_prune gt lt evaluate_game get_player rng1
                        width temp k game player legal (w, n1))
          = (inr (map snd kept), w)
        /\ forget_draws (Evaluator.explore_prune gt lt evaluate_game get_player rng2
                           width temp k game player legal (w, n2))
             = (inr (map snd kept), w)
        /\ Permutation (kept ++ dropped) (zip keys legal)
        /\ length kept = Z.to_nat width
        /\ Sorted (ascending lt) kept
        /\ forall x y, x ∈ kept -> y ∈ dropped -> lt (fst y) (fst x) = false)
  /\ (forall (width : Z) k game depth player legal (keys : list V) w n1 n2,
      0 < width < Z.of_nat (length legal) ->
      get_player game w = (inr player, w) ->
      Rule.get_legal_moves game w = (inr legal, w) ->
      Forall2 (fun m key =>
                 Evaluator.explore_evaluate gt evaluate_game get_player k game player m w
                 = (inr key, w)) legal keys ->
      (forall m, m ∈ legal -> exists w', Rule.execute_move game m w = (inr tt, w')) ->
      fst (Evaluator.explore gt lt evaluate_game get_player rng1 game (S depth)
             width temp k (w, n1)) = inl AttributeError
      /\ fst (Evaluator.explore gt lt evaluate_game get_player rng2 game (S depth)
                width temp k (w, n2)) = inl AttributeError).
Proof.
  intros Hrng1 Hrng2 Htemp Hasym Htrans.
  assert (forall (rng : random_source M), unit_interval rng ->
          forall (width : Z) k self player legal (keys : list V) w n,
            0 < width < Z.of_nat (length legal) ->
            Forall2 (fun m key => Rule.evaluate gt k self player m w = (inr key, w))
              legal keys ->
            forget_draws (Rule.prune gt lt rng (Some width) temp k self player legal
                            (w, n))
            = (inr (slice_to (sorted_by_key lt (zip keys legal)) width), w))
    as Hkeep.
  { intros rng Hrng width k self player legal keys w n Hwidth Hkeys.
    rewrite (prune_heuristic gt lt temp Htemp rng (Some width) k self player legal w n
               Hrng).
    - unfold Rule.heuristic_prune, bind.
      by rewrite (map_each_stable _ _ _ _ Hkeys).
    - unfold Rule.width_active. apply andb_true_iff. split.
      + apply negb_true_iff, Z.eqb_neq. lia.
      + apply Z.ltb_lt. lia. }
  assert (forall (rng : random_source M), unit_interval rng ->
          forall (width : Z) k game player legal (keys : list V) w n,
            0 <= width < Z.of_nat (length legal) ->
            Forall2 (fun m key =>
                       Evaluator.explore_evaluate gt evaluate_game get_player k game
                         player m w = (inr key, w)) legal keys ->
            forget_draws (Evaluator.explore_prune gt lt evaluate_game get_player rng
                            width temp k game player legal (w, n))
            = (inr (slice_to (sorted_by_key lt (zip keys legal)) width), w))
    as Hkeep'.
  { intros rng Hrng width k game player legal keys w n Hwidth Hkeys.
    rewrite (explore_prune_heuristic gt lt evaluate_game get_player temp Htemp rng
               width k game player legal w n Hrng).
    - unfold Evaluator.explore_heuristic_prune, bind.
      by rewrite (map_each_stable _ _ _ _ Hkeys).
    - apply andb_true_iff. split; [apply Z.leb_le | apply Z.ltb_lt]; lia. }
  assert (forall (width : Z) legal (keys : list V),
            0 <= width < Z.of_nat (length legal) -> length keys = length legal ->
            exists kept dropped : list (V * M),
              slice_to (sorted_by_key lt (zip keys legal)) width = map snd kept
              /\ Permutation (kept ++ dropped) (zip keys legal)
              /\ length kept = Z.to_nat width
              /\ Sorted (ascending lt) kept
              /\ forall x y, x ∈ kept -> y ∈ dropped -> lt (fst y) (fst x) = false)
    as Hprefix.
  { intros width legal keys Hwidth Hlen.
    destruct (sorted_prefix_is_lowest lt Hasym Htrans (zip keys legal) width)
      as (kept & dropped & Hslice & Hperm & Hkept & Hsorted & Hlow); [lia|].
    exists kept, dropped. repeat split; try done.
    rewrite Hkept, length_zip_with. lia. }
  split; [|split; [|split; [|split; [|split; [|split]]]]].
  - intros. by apply max_n_agree.
  - intros width k self player legal w n1 n2 Hactive.
    split; by apply prune_heuristic.
  - intros width k self player legal keys w n1 n2 Hwidth Hkeys.
    destruct (Hprefix width legal keys) as (kept & dropped & Hslice & Hrest);
      [lia | by apply Forall2_length in Hkeys |].
    exists kept, dropped.
    rewrite (Hkeep rng1 Hrng1 width k self player legal keys w n1 Hwidth Hkeys).
    rewrite (Hkeep rng2 Hrng2 width k self player legal keys w n2 Hwidth Hkeys).
    rewrite Hslice. split; [done | split; [done | exact Hrest]].
  - intros. by apply explore_agree.
  - intros width k game player legal w n1 n2 Hactive.
    split; by apply explore_prune_heuristic.
  - intros width k game player legal keys w n1 n2 Hwidth Hkeys.
    destruct (Hprefix width legal keys) as (kept & dropped & Hslice & Hrest);
      [lia | by apply Forall2_length in Hkeys |].
    exists kept, dropped.
    rewrite (Hkeep' rng1 Hrng1 width k game player legal keys w n1 Hwidth Hkeys).
    rewrite (Hkeep' rng2 Hrng2 width k game player legal keys w n2 Hwidth Hkeys).
    rewrite Hslice. split; [done | split; [done | exact Hrest]].
  - intros width k game depth player legal keys w n1 n2 Hwidth Hplayer Hlegal Hkeys
      Hexec.
    destruct (Hprefix width legal keys)
      as (kept & dropped & Hslice & Hperm & Hlen & _);
      [lia | by apply Forall2_length in Hkeys |].
    assert (exists key0 m0 rest, kept = (key0, m0) :: rest /\ (m0 ∈ legal))
      as (key0 & m0 & rest & -> & Hm0).
    { destruct kept as [|[key0 m0] rest]; [simpl in Hlen; lia|].
      exists key0, m0, rest. split; [done|].
      assert ((key0, m0) ∈ zip keys legal) as Hin
        by (rewrite <- Hperm; left).
      by apply elem_of_zip_r in Hin. }
    destruct (Hexec m0 Hm0) as [w' Hrun].
    assert (forall (rng : random_source M) n, unit_interval rng ->
              fst (Evaluator.explore gt lt evaluate_game get_player rng game (S depth)
                     width temp k (w, n)) = inl AttributeError) as Hraise.
    { intros rng n Hrng. unfold Evaluator.explore.
      rewrite (bind_ok _ _ (w, n) player (w, n)) by (by apply on_fst_run).
      rewrite (bind_ok _ _ (w, n) legal (w, n)) by (by apply on_fst_run).
      assert (0 <= width < Z.of_nat (length legal)) as Hwidth' by lia.
      pose proof (Hkeep' rng Hrng width k game player legal keys w n Hwidth' Hkeys)
        as Hpruned.
      rewrite Hslice in Hpruned.
      destruct (Evaluator.explore_prune gt lt evaluate_game get_player rng width temp k
                  game player legal (w, n)) as [kept' [w0 n']] eqn:Hprune.
      unfold forget_draws in Hpruned. cbn [fst snd] in Hpruned.
      injection Hpruned as -> ->.
      unfold bind. rewrite Hprune. unfold on_fst. cbn [fst snd map].
      cbn [Evaluator.explore_tail map_each]. unfold bind at 1 2 3.
      rewrite Hrun. reflexivity. }
    split; by apply Hraise.
Qed.

(** Two searches of [ThreeMoves] at depth 1 with width 2 and temperature
    -1, under generators that disagree on every draw: [Rule.max_n] ends the
    same in both; of the moves 3, 1, 2, valued 0.9, 0.2 and 0.6, the
    pruning step keeps 1 and 2 in both; and [Evaluator.explore] raises in
    both. *)
Lemma pruned_search_is_deterministic_witness :
  forget_draws (Rule.max_n (Ops0 := ThreeMoves.ops) Qgtb Qltb ThreeMoves.low
                  1 (Some 2) (-1 # 1) 1 tt (0%nat, 0%nat))
  = forget_draws (Rule.max_n (Ops0 := ThreeMoves.ops) Qgtb Qltb ThreeMoves.high
                    1 (Some 2) (-1 # 1) 1 tt (0%nat, 5%nat))
  /\ (exists kept dropped : list (Q * nat),
        forget_draws (Rule.prune (Ops0 := ThreeMoves.ops) Qgtb Qltb ThreeMoves.low
                        (Some 2) (-1 # 1) 1 tt "A" [3; 1; 2]%nat (0%nat, 0%nat))
        = (inr (map snd kept), 0%nat)
        /\ forget_draws (Rule.prune (Ops0 := ThreeMoves.ops) Qgtb Qltb ThreeMoves.high
                           (Some 2) (-1 # 1) 1 tt "A" [3; 1; 2]%nat (0%nat, 5%nat))
           = (inr (map snd kept), 0%nat)
        /\ map snd kept = [1; 2]%nat
        /\ Permutation (kept ++ dropped)
             (zip [9 # 10; 2 # 10; 6 # 10]%Q [3; 1; 2]%nat)
        /\ Sorted (ascending Qltb) kept)
  /\ fst (Evaluator.explore (H0 := ThreeMoves.ops) Qgtb Qltb
            (Rule.get_utility (Ops := ThreeMoves.ops)) (fun _ w => (inr "A", w))
            ThreeMoves.low tt 1 2 (-1 # 1) 1 (0%nat, 0%nat)) = inl AttributeError
  /\ fst (Evaluator.explore (H0 := ThreeMoves.ops) Qgtb Qltb
            (Rule.get_utility (Ops := ThreeMoves.ops)) (fun _ w => (inr "A", w))
            ThreeMoves.high tt 1 2 (-1 # 1) 1 (0%nat, 5%nat)) = inl AttributeError.
Proof.
  destruct (pruned_search_is_deterministic (H0 := ThreeMoves.ops) Qgtb Qltb
              (Rule.get_utility (Ops := ThreeMoves.ops)) (fun _ w => (inr "A", w))
              ThreeMoves.low ThreeMoves.high (-1 # 1)
              ThreeMoves_low_range ThreeMoves_high_range)
    as (Hmax & _ & Hkept & _ & _ & _ & Hexplore).
  - unfold Qlt. simpl. lia.
  - exact Qltb_asym.
  - exact Qltb_not_lt_trans.
  - split; [apply Hmax|]. split.
    + destruct (Hkept 2 1%nat tt "A" [3; 1; 2]%nat [9 # 10; 2 # 10; 6 # 10]%Q
                  0%nat 0%nat 5%nat)
        as (kept & dropped & Hlow & Hhigh & Hperm & _ & Hsorted & _).
      * simpl. lia.
      * repeat constructor.
      * exists kept, dropped. split; [exact Hlow|]. split; [exact Hhigh|].
        split; [|split; [exact Hperm | exact Hsorted]].
        assert (forget_draws
                  (Rule.prune (Ops0 := ThreeMoves.ops) Qgtb Qltb ThreeMoves.low
                     (Some 2) (-1 # 1) 1 tt "A" [3; 1; 2]%nat (0%nat, 0%nat))
                = (inr [1; 2]%nat, 0%nat)) as Hrun by reflexivity.
        rewrite Hlow in Hrun. by injection Hrun.
    + apply (Hexplore 2 1%nat tt 0%nat "A" [1; 2; 3]%nat [2 # 10; 6 # 10; 9 # 10]%Q
               0%nat 0%nat 5%nat).
      * simpl. lia.
      * reflexivity.
      * reflexivity.
      * repeat constructor.
      * intros m _. by exists m.
Defined.
